(** * fs-traverse: recursive file-system traversal (lib/fs-traverse.js)

    A shallow embedding of the eight exported functions of
    [lib/fs-traverse.js] and the properties of its description.

    - The [fs] module of the host is a collaborator: its three calls
      ([stat], [readdir], [readFile], and their [Sync] forms) are the
      fields of a [FileSystem] record, a parameter of everything below.
    - JavaScript closures mutate variables of the enclosing call; all
      those variables are the fields of one record, [World].
    - The asynchronous functions hand callbacks to [fs]; the host runs
      one callback at a time, in an order the program does not choose.
      Outstanding operations are the [pending] list of the [World], and
      a step of the event loop delivers any one of them.
    - An exception that leaves a callback of the event loop is caught
      by nobody: the host ends the process, and no operation still
      outstanding is answered.
    - A pattern is a RegExp of the caller: [test] reads and writes its
      [lastIndex] when the pattern has the [g] or the [y] flag.
    - The synchronous functions recurse without bound on a cyclic file
      system; they take fuel. *)

From Stdlib Require Import ZArith Lia Ascii.
From stdpp Require Import base list strings.

(** ** Paths *)

(** [dir.replace(/\/$/, '')]: the pattern is anchored at the end of the
    input and is not global, so it removes the last character when that
    character is a slash, and nothing else. *)
Fixpoint replace_trailing_slash (dir : string) : string :=
  match dir with
  | EmptyString => EmptyString
  | String c rest =>
      match rest with
      | EmptyString => if Ascii.eqb c "/"%char then EmptyString else dir
      | String _ _ => String c (replace_trailing_slash rest)
      end
  end.

(** [fullFilePath_(dir, file)] *)
Definition fullFilePath (dir file : string) : string :=
  replace_trailing_slash dir +:+ "/" +:+ file.

(** Does the string end in a slash? *)
Fixpoint ends_with_slash (s : string) : bool :=
  match s with
  | EmptyString => false
  | String c EmptyString => Ascii.eqb c "/"%char
  | String _ rest => ends_with_slash rest
  end.

(** The join as the description words it: every trailing separator of
    the parent is dropped, then one separator and the child follow. *)
Fixpoint collapse_trailing_slashes (dir : string) : string :=
  match dir with
  | EmptyString => EmptyString
  | String c rest =>
      match collapse_trailing_slashes rest with
      | EmptyString => if Ascii.eqb c "/"%char then EmptyString else String c EmptyString
      | r => String c r
      end
  end.

Definition join_single_separator (dir file : string) : string :=
  collapse_trailing_slashes dir +:+ "/" +:+ file.

(** ** The collaborator: Node's [fs] module *)

(** An [Error] object, by its message. *)
Definition error := string.

(** A [Buffer]. *)
Definition Buffer := list Byte.byte.

(** An [fs.Stats] object: what [isDirectory()] answers, size and
    modification time. *)
Record Stats := mkStats {
  isDirectory : bool;
  size : Z;
  mtime : Z
}.

(** How [fs] answers a read whose path argument is [undefined]: the
    source can make that call, and what happens then is the host's
    choice between refusing the call and failing through the callback. *)
Inductive rejection :=
| ThrowsAtCall (e : error)
| FailsInCallback (e : error).

(** The file system, fixed for the length of a traversal.  [inl] is the
    error of the callback (or the exception of the [Sync] form). *)
Record FileSystem := mkFileSystem {
  fs_stat : string -> error + Stats;
  fs_readdir : string -> error + list string;
  fs_readFile : string -> error + Buffer;
  fs_readFile_undefined : rejection
}.

Definition rejection_error (r : rejection) : error :=
  match r with ThrowsAtCall e | FailsInCallback e => e end.

(** ** Callback arguments, operations and observations *)

(** The per-entry callback is called as [(err)], as [(null, file, stat)]
    or as [(null, file, stat, content)]. *)
Inductive entry_args :=
| EntryErr (err : error)
| Entry (file : string) (stat : Stats) (content : option Buffer).

(** The completion handler is called as [(err)], as [(null, files, stats)]
    or as [(err, files, stats, contents)] with a falsy [err]. *)
Inductive complete_args :=
| CompleteErr (err : error)
| Complete (files : list string) (stats : list Stats) (contents : option (list Buffer)).

(** A call into [fs].  The target of a read is the pair [(file, stat)]
    its callback closes over; both are [undefined] ([None]) when the
    enclosing handler was called as [(err)]. *)
Inductive Op :=
| OpStat (path : string)
| OpReaddir (path : string)
| OpReadFile (target : option (string * Stats)).

(** What an observer of a session sees: the caller's own callbacks
    running, the calls the synchronous functions make into [fs], and
    exceptions that leave a callback of the event loop. *)
Inductive event :=
| EvEntry (a : entry_args)
| EvComplete (a : complete_args)
| EvCall (op : Op)
| EvUncaught (e : error).

(** ** The variables of the closures *)

Record World := mkWorld {
  (* eachFileOrDirectory, eachFileOrDirectorySync *)
  filesToCheck : Z;
  checkedFiles : list string;
  checkedStats : list Stats;
  (* eachFile, eachFileSync: files, stats *)
  ef_files : list string;
  ef_stats : list Stats;
  (* eachFileMatching, eachFileMatchingSync: files, stats *)
  efm_files : list string;
  efm_stats : list Stats;
  (* the pattern the caller passed: expression.lastIndex *)
  lastIndex : nat;
  (* readEachFileMatching, readEachFileMatchingSync: files, contents, stats *)
  rd_files : list string;
  rd_contents : list Buffer;
  rd_stats : list Stats;
  (* the event loop: operations handed to fs, not yet answered *)
  pending : list Op;
  (* the observer *)
  trace : list event
}.

Definition empty_world : World :=
  mkWorld 0 [] [] [] [] [] [] 0 [] [] [] [] [].

Definition set_filesToCheck (v : Z) (w : World) : World :=
  mkWorld v (checkedFiles w) (checkedStats w)
    (ef_files w) (ef_stats w) (efm_files w) (efm_stats w) (lastIndex w)
    (rd_files w) (rd_contents w) (rd_stats w) (pending w) (trace w).

Definition set_checkedFiles (v : list string) (w : World) : World :=
  mkWorld (filesToCheck w) v (checkedStats w)
    (ef_files w) (ef_stats w) (efm_files w) (efm_stats w) (lastIndex w)
    (rd_files w) (rd_contents w) (rd_stats w) (pending w) (trace w).

Definition set_checkedStats (v : list Stats) (w : World) : World :=
  mkWorld (filesToCheck w) (checkedFiles w) v
    (ef_files w) (ef_stats w) (efm_files w) (efm_stats w) (lastIndex w)
    (rd_files w) (rd_contents w) (rd_stats w) (pending w) (trace w).

Definition set_ef_files (v : list string) (w : World) : World :=
  mkWorld (filesToCheck w) (checkedFiles w) (checkedStats w)
    v (ef_stats w) (efm_files w) (efm_stats w) (lastIndex w)
    (rd_files w) (rd_contents w) (rd_stats w) (pending w) (trace w).

Definition set_ef_stats (v : list Stats) (w : World) : World :=
  mkWorld (filesToCheck w) (checkedFiles w) (checkedStats w)
    (ef_files w) v (efm_files w) (efm_stats w) (lastIndex w)
    (rd_files w) (rd_contents w) (rd_stats w) (pending w) (trace w).

Definition set_efm_files (v : list string) (w : World) : World :=
  mkWorld (filesToCheck w) (checkedFiles w) (checkedStats w)
    (ef_files w) (ef_stats w) v (efm_stats w) (lastIndex w)
    (rd_files w) (rd_contents w) (rd_stats w) (pending w) (trace w).

Definition set_efm_stats (v : list Stats) (w : World) : World :=
  mkWorld (filesToCheck w) (checkedFiles w) (checkedStats w)
    (ef_files w) (ef_stats w) (efm_files w) v (lastIndex w)
    (rd_files w) (rd_contents w) (rd_stats w) (pending w) (trace w).

Definition set_lastIndex (v : nat) (w : World) : World :=
  mkWorld (filesToCheck w) (checkedFiles w) (checkedStats w)
    (ef_files w) (ef_stats w) (efm_files w) (efm_stats w) v
    (rd_files w) (rd_contents w) (rd_stats w) (pending w) (trace w).

Definition set_rd_files (v : list string) (w : World) : World :=
  mkWorld (filesToCheck w) (checkedFiles w) (checkedStats w)
    (ef_files w) (ef_stats w) (efm_files w) (efm_stats w) (lastIndex w)
    v (rd_contents w) (rd_stats w) (pending w) (trace w).

Definition set_rd_contents (v : list Buffer) (w : World) : World :=
  mkWorld (filesToCheck w) (checkedFiles w) (checkedStats w)
    (ef_files w) (ef_stats w) (efm_files w) (efm_stats w) (lastIndex w)
    (rd_files w) v (rd_stats w) (pending w) (trace w).

Definition set_rd_stats (v : list Stats) (w : World) : World :=
  mkWorld (filesToCheck w) (checkedFiles w) (checkedStats w)
    (ef_files w) (ef_stats w) (efm_files w) (efm_stats w) (lastIndex w)
    (rd_files w) (rd_contents w) v (pending w) (trace w).

Definition set_pending (v : list Op) (w : World) : World :=
  mkWorld (filesToCheck w) (checkedFiles w) (checkedStats w)
    (ef_files w) (ef_stats w) (efm_files w) (efm_stats w) (lastIndex w)
    (rd_files w) (rd_contents w) (rd_stats w) v (trace w).

Definition observe (ev : event) (w : World) : World :=
  mkWorld (filesToCheck w) (checkedFiles w) (checkedStats w)
    (ef_files w) (ef_stats w) (efm_files w) (efm_stats w) (lastIndex w)
    (rd_files w) (rd_contents w) (rd_stats w) (pending w) (trace w ++ [ev]).

(** ** Procedures: state and exceptions *)

Inductive outcome :=
| Returned
| Thrown (e : error)
| Diverged.

Definition Proc := World -> outcome * World.

Definition skip : Proc := fun w => (Returned, w).
Definition throw (e : error) : Proc := fun w => (Thrown e, w).
Definition diverge : Proc := fun w => (Diverged, w).
Definition modify (f : World -> World) : Proc := fun w => (Returned, f w).

Definition seq (p q : Proc) : Proc :=
  fun w => match p w with
           | (Returned, w') => q w'
           | r => r
           end.

Declare Scope proc_scope.
Delimit Scope proc_scope with proc.
Notation "p ;; q" := (seq p q)
  (at level 100, q at level 200, right associativity) : proc_scope.
Open Scope proc_scope.

(** [list.forEach(f)] *)
Fixpoint forEach {A : Type} (l : list A) (f : A -> Proc) : Proc :=
  match l with
  | [] => skip
  | x :: l' => f x ;; forEach l' f
  end.

(** [function() {}] *)
Definition NOOP {A : Type} : A -> Proc := fun _ => skip.

(** [completeHandler || NOOP] *)
Definition or_NOOP {A : Type} (h : option (A -> Proc)) : A -> Proc :=
  match h with Some f => f | None => NOOP end.

(** The error of calling what is not a function; its text is the
    engine's and varies with it. *)
Definition not_a_function : error := "TypeError: undefined is not a function".

(** [callback(...)] with no test before it: calling [undefined] throws. *)
Definition call {A : Type} (h : option (A -> Proc)) (a : A) : Proc :=
  match h with Some f => f a | None => throw not_a_function end.

(** [if (callback) { return callback(...) }] *)
Definition call_if_given {A : Type} (h : option (A -> Proc)) (a : A) : Proc :=
  match h with Some f => f a | None => skip end.

(** [(directory) ? directory : './'] : [undefined] and the empty string
    are falsy. *)
Definition directory_or_default (directory : option string) : string :=
  match directory with
  | None => "./"
  | Some EmptyString => "./"
  | Some d => d
  end.

(** Handing an operation to [fs]: its callback runs later. *)
Definition issue (op : Op) : Proc :=
  modify (fun w => set_pending (pending w ++ [op]) w).

Definition incr_filesToCheck : Proc :=
  modify (fun w => set_filesToCheck (filesToCheck w + 1) w).
Definition decr_filesToCheck : Proc :=
  modify (fun w => set_filesToCheck (filesToCheck w - 1) w).

(** [array.push(x)] on each of the arrays *)
Definition push_checkedFiles (x : string) : Proc :=
  modify (fun w => set_checkedFiles (checkedFiles w ++ [x]) w).
Definition push_checkedStats (x : Stats) : Proc :=
  modify (fun w => set_checkedStats (checkedStats w ++ [x]) w).
Definition push_ef_files (x : string) : Proc :=
  modify (fun w => set_ef_files (ef_files w ++ [x]) w).
Definition push_ef_stats (x : Stats) : Proc :=
  modify (fun w => set_ef_stats (ef_stats w ++ [x]) w).
Definition push_efm_files (x : string) : Proc :=
  modify (fun w => set_efm_files (efm_files w ++ [x]) w).
Definition push_efm_stats (x : Stats) : Proc :=
  modify (fun w => set_efm_stats (efm_stats w ++ [x]) w).
Definition push_rd_files (x : string) : Proc :=
  modify (fun w => set_rd_files (rd_files w ++ [x]) w).
Definition push_rd_contents (x : Buffer) : Proc :=
  modify (fun w => set_rd_contents (rd_contents w ++ [x]) w).
Definition push_rd_stats (x : Stats) : Proc :=
  modify (fun w => set_rd_stats (rd_stats w ++ [x]) w).

(** ** Sessions

    A call of one of the asynchronous functions runs its own statements
    ([start]) and leaves closures behind: the callbacks the event loop
    runs when [fs] answers a [stat], a [readdir] or a [readFile]. *)
Record Session := mkSession {
  start : Proc;
  on_stat : string -> Proc;
  on_readdir : string -> Proc;
  on_readFile : option (string * Stats) -> Proc
}.

(** Statements of an outer function that run before the inner call. *)
Definition preceded_by (p : Proc) (S : Session) : Session :=
  mkSession (p ;; start S) (on_stat S) (on_readdir S) (on_readFile S).

(** ** eachFileOrDirectory *)

Section Engine.
Variable fs : FileSystem.
Variable fileHandler : option (entry_args -> Proc).
Variable completeHandler : option (complete_args -> Proc).

(** [checkComplete_] *)
Definition checkComplete : Proc :=
  fun w =>
    if (filesToCheck w =? 0)%Z
    then or_NOOP completeHandler (Complete (checkedFiles w) (checkedStats w) None) w
    else skip w.

(** [onFileOrDirectory_], up to the call of [fs.stat] *)
Definition onFileOrDirectory (fileOrDirectory : string) : Proc :=
  incr_filesToCheck ;;
  issue (OpStat fileOrDirectory).

(** [onDirectory_], up to the call of [fs.readdir] *)
Definition onDirectory (dir : string) : Proc :=
  incr_filesToCheck ;;
  issue (OpReaddir dir).

(** The callback [onFileOrDirectory_] gives to [fs.stat] *)
Definition stat_callback (fileOrDirectory : string) : Proc :=
  decr_filesToCheck ;;
  match fs_stat fs fileOrDirectory with
  | inl err => call fileHandler (EntryErr err)
  | inr stat =>
      push_checkedFiles fileOrDirectory ;;
      push_checkedStats stat ;;
      call fileHandler (Entry fileOrDirectory stat None) ;;
      if isDirectory stat then onDirectory fileOrDirectory
      else checkComplete
  end.

(** The callback [onDirectory_] gives to [fs.readdir] *)
Definition readdir_callback (dir : string) : Proc :=
  decr_filesToCheck ;;
  match fs_readdir fs dir with
  | inl err => call fileHandler (EntryErr err)
  | inr files =>
      forEach files (fun file => onFileOrDirectory (fullFilePath dir file)) ;;
      checkComplete
  end.

End Engine.

Definition eachFileOrDirectory (fs : FileSystem) (directory : option string)
    (fileHandler : option (entry_args -> Proc))
    (completeHandler : option (complete_args -> Proc)) : Session :=
  {| start :=
       modify (set_filesToCheck 0) ;;
       modify (set_checkedFiles []) ;;
       modify (set_checkedStats []) ;;
       onFileOrDirectory (directory_or_default directory);
     on_stat := stat_callback fs fileHandler completeHandler;
     on_readdir := readdir_callback fs fileHandler completeHandler;
     on_readFile := NOOP |}.

(** ** eachFile *)

(** The per-entry function [eachFile] gives to [eachFileOrDirectory];
    [eachFileSync] gives the same text to [eachFileOrDirectorySync]. *)
Definition eachFile_handler (callback : option (entry_args -> Proc)) (a : entry_args) : Proc :=
  match a with
  | EntryErr err => call callback (EntryErr err)
  | Entry file stat _ =>
      if negb (isDirectory stat) then
        push_ef_files file ;;
        push_ef_stats stat ;;
        call_if_given callback (Entry file stat None)
      else skip
  end.

Definition eachFile_complete (completeHandler : option (complete_args -> Proc))
    (a : complete_args) : Proc :=
  match a with
  | CompleteErr err => or_NOOP completeHandler (CompleteErr err)
  | Complete _ _ _ =>
      fun w => or_NOOP completeHandler (Complete (ef_files w) (ef_stats w) None) w
  end.

Definition eachFile (fs : FileSystem) (path : option string)
    (callback : option (entry_args -> Proc))
    (completeHandler : option (complete_args -> Proc)) : Session :=
  preceded_by
    (modify (set_ef_files []) ;;
     modify (set_ef_stats []))
    (eachFileOrDirectory fs path (Some (eachFile_handler callback))
       (Some (eachFile_complete completeHandler))).

(** ** eachFileMatching *)

(** A pattern, as far as [test] looks at it.  [re_exec i s] is the
    search of [s] that starts at index [i]: the index at which the match
    it finds ends, or nothing when it finds none (as it does when [i] is
    beyond the end of [s]).  [re_global_or_sticky] is set for a pattern
    with the [g] or the [y] flag. *)
Record RegExp := mkRegExp {
  re_exec : nat -> string -> option nat;
  re_global_or_sticky : bool
}.

(** What the pattern matches: a search from the start of the string. *)
Definition matches (expression : RegExp) (s : string) : bool :=
  match re_exec expression 0 s with Some _ => true | None => false end.

(** [expression.test(s)], then [k] on its answer.  A pattern with the
    [g] or the [y] flag searches from [expression.lastIndex] on and
    leaves there the end of the match, or 0 when it finds none; a
    pattern without them searches from the start and leaves
    [lastIndex] alone. *)
Definition test (expression : RegExp) (s : string) (k : bool -> Proc) : Proc :=
  fun w =>
    if re_global_or_sticky expression then
      match re_exec expression (lastIndex w) s with
      | Some e => k true (set_lastIndex e w)
      | None => k false (set_lastIndex 0 w)
      end
    else k (matches expression s) w.

(** [test] can answer yes on [s]: the search finds a match from some
    index, from the start for a pattern without the flags. *)
Definition accepts (expression : RegExp) (s : string) : Prop :=
  if re_global_or_sticky expression
  then exists i, is_Some (re_exec expression i s)
  else matches expression s = true.

(** The per-entry function [eachFileMatching] gives to [eachFile];
    [eachFileMatchingSync] gives the same text to [eachFileSync]. *)
Definition eachFileMatching_handler (expression : RegExp)
    (callback : option (entry_args -> Proc)) (a : entry_args) : Proc :=
  match a with
  | EntryErr err => call callback (EntryErr err)
  | Entry file stat _ =>
      test expression file (fun matched =>
        if matched then
          push_efm_files file ;;
          push_efm_stats stat ;;
          call_if_given callback (Entry file stat None)
        else skip)
  end.

Definition eachFileMatching_complete (completeHandler : option (complete_args -> Proc))
    (a : complete_args) : Proc :=
  match a with
  | CompleteErr err => or_NOOP completeHandler (CompleteErr err)
  | Complete _ _ _ =>
      fun w => or_NOOP completeHandler (Complete (efm_files w) (efm_stats w) None) w
  end.

Definition eachFileMatching (fs : FileSystem) (expression : RegExp)
    (path : option string) (callback : option (entry_args -> Proc))
    (completeHandler : option (complete_args -> Proc)) : Session :=
  preceded_by
    (modify (set_efm_files []) ;;
     modify (set_efm_stats []))
    (eachFile fs path (Some (eachFileMatching_handler expression callback))
       (Some (eachFileMatching_complete completeHandler))).

(** ** readEachFileMatching *)

(** The per-entry function [readEachFileMatching] gives to
    [eachFileMatching], up to the call of [fs.readFile].  Its first
    parameter is never looked at: called as [(err)], it reads the
    [undefined] file. *)
Definition readEachFileMatching_handler (fs : FileSystem) (a : entry_args) : Proc :=
  match a with
  | EntryErr _ =>
      match fs_readFile_undefined fs with
      | ThrowsAtCall e => throw e
      | FailsInCallback _ => issue (OpReadFile None)
      end
  | Entry file stat _ => issue (OpReadFile (Some (file, stat)))
  end.

(** The callback that function gives to [fs.readFile] *)
Definition readFile_callback (fs : FileSystem) (callback : option (entry_args -> Proc))
    (target : option (string * Stats)) : Proc :=
  match target with
  | None => call callback (EntryErr (rejection_error (fs_readFile_undefined fs)))
  | Some (file, stat) =>
      match fs_readFile fs file with
      | inl err => call callback (EntryErr err)
      | inr content =>
          push_rd_files file ;;
          push_rd_contents content ;;
          push_rd_stats stat ;;
          call_if_given callback (Entry file stat (Some content))
      end
  end.

Definition readEachFileMatching_complete (completeHandler : option (complete_args -> Proc))
    (a : complete_args) : Proc :=
  match a with
  | CompleteErr err => or_NOOP completeHandler (CompleteErr err)
  | Complete _ _ _ =>
      fun w => or_NOOP completeHandler
                 (Complete (rd_files w) (rd_stats w) (Some (rd_contents w))) w
  end.

Definition readEachFileMatching (fs : FileSystem) (expression : RegExp)
    (path : option string) (callback : option (entry_args -> Proc))
    (completeHandler : option (complete_args -> Proc)) : Session :=
  let inner :=
    eachFileMatching fs expression path (Some (readEachFileMatching_handler fs))
      (Some (readEachFileMatching_complete completeHandler)) in
  {| start :=
       modify (set_rd_files []) ;;
       modify (set_rd_contents []) ;;
       modify (set_rd_stats []) ;;
       start inner;
     on_stat := on_stat inner;
     on_readdir := on_readdir inner;
     on_readFile := readFile_callback fs callback |}.

(** ** The event loop *)

Definition deliver (S : Session) (op : Op) : Proc :=
  match op with
  | OpStat p => on_stat S p
  | OpReaddir p => on_readdir S p
  | OpReadFile target => on_readFile S target
  end.

(** An exception that leaves a callback is seen by the observer. *)
Definition settle (r : outcome * World) : World :=
  match r with
  | (Thrown e, w) => observe (EvUncaught e) w
  | (_, w) => w
  end.

(** One turn of the loop: [fs] answers the [i]-th outstanding operation. *)
Definition step (S : Session) (i : nat) (w : World) : option World :=
  match pending w !! i with
  | None => None
  | Some op => Some (settle (deliver S op (set_pending (delete i (pending w)) w)))
  end.

(** Has an exception left a callback?  Nobody catches it there: the
    host ends the process. *)
Definition ended (w : World) : bool :=
  existsb (fun ev => match ev with EvUncaught _ => true | _ => false end) (trace w).

(** The loop: one answer after the other, for as long as the process
    is there. *)
Fixpoint run_from (S : Session) (sched : list nat) (w : World) : option World :=
  match sched with
  | [] => Some w
  | i :: sched' =>
      if ended w then None
      else
        match step S i w with
        | Some w' => run_from S sched' w'
        | None => None
        end
  end.

(** The call itself, in a fresh world. *)
Definition boot (S : Session) : World := settle (start S empty_world).

(** The world after the call and the answers [sched] picks, if each
    pick names an outstanding operation of a process that has not
    ended. *)
Definition run (S : Session) (sched : list nat) : option World :=
  run_from S sched (boot S).

(** The caller's callbacks, as an observer would supply them. *)
Definition record_entry : option (entry_args -> Proc) :=
  Some (fun a => modify (observe (EvEntry a))).
Definition record_complete : option (complete_args -> Proc) :=
  Some (fun a => modify (observe (EvComplete a))).

(** ** The synchronous functions *)

Definition statSync (fs : FileSystem) (path : string) (k : Stats -> Proc) : Proc :=
  modify (observe (EvCall (OpStat path))) ;;
  match fs_stat fs path with
  | inl e => throw e
  | inr stat => k stat
  end.

Definition readdirSync (fs : FileSystem) (path : string) (k : list string -> Proc) : Proc :=
  modify (observe (EvCall (OpReaddir path))) ;;
  match fs_readdir fs path with
  | inl e => throw e
  | inr files => k files
  end.

Definition readFileSync (fs : FileSystem) (target : option (string * Stats))
    (k : string -> Stats -> Buffer -> Proc) : Proc :=
  modify (observe (EvCall (OpReadFile target))) ;;
  match target with
  | None => throw (rejection_error (fs_readFile_undefined fs))
  | Some (file, stat) =>
      match fs_readFile fs file with
      | inl e => throw e
      | inr content => k file stat content
      end
  end.

Section EngineSync.
Variable fs : FileSystem.
Variable fileHandler : option (entry_args -> Proc).

(** [onDirectory_], calling back into [onFileOrDirectory_] *)
Definition onDirectorySync (onFileOrDirectory_ : string -> Proc) (dir : string) : Proc :=
  readdirSync fs dir (fun files =>
    forEach files (fun file => onFileOrDirectory_ (fullFilePath dir file))).

(** [onFileOrDirectory_] *)
Fixpoint onFileOrDirectorySync (fuel : nat) (fileOrDirectory : string) : Proc :=
  match fuel with
  | O => diverge
  | S fuel' =>
      statSync fs fileOrDirectory (fun stat =>
        push_checkedFiles fileOrDirectory ;;
        push_checkedStats stat ;;
        call fileHandler (Entry fileOrDirectory stat None) ;;
        if isDirectory stat
        then onDirectorySync (onFileOrDirectorySync fuel') fileOrDirectory
        else skip)
  end.
End EngineSync.

Definition eachFileOrDirectorySync (fs : FileSystem) (fuel : nat)
    (directory : option string) (fileHandler : option (entry_args -> Proc)) : Proc :=
  modify (set_checkedFiles []) ;;
  modify (set_checkedStats []) ;;
  onFileOrDirectorySync fs fileHandler fuel (directory_or_default directory).

Definition eachFileSync (fs : FileSystem) (fuel : nat) (path : option string)
    (callback : option (entry_args -> Proc)) : Proc :=
  modify (set_ef_files []) ;;
  modify (set_ef_stats []) ;;
  eachFileOrDirectorySync fs fuel path (Some (eachFile_handler callback)).

Definition eachFileMatchingSync (fs : FileSystem) (fuel : nat)
    (expression : RegExp) (path : option string)
    (callback : option (entry_args -> Proc)) : Proc :=
  modify (set_efm_files []) ;;
  modify (set_efm_stats []) ;;
  eachFileSync fs fuel path (Some (eachFileMatching_handler expression callback)).

(** The per-entry function [readEachFileMatchingSync] gives to
    [eachFileMatchingSync] *)
Definition readEachFileMatchingSync_handler (fs : FileSystem)
    (callback : option (entry_args -> Proc)) (a : entry_args) : Proc :=
  readFileSync fs
    (match a with EntryErr _ => None | Entry file stat _ => Some (file, stat) end)
    (fun file stat content =>
       push_rd_files file ;;
       push_rd_contents content ;;
       push_rd_stats stat ;;
       call_if_given callback (Entry file stat (Some content))).

Definition readEachFileMatchingSync (fs : FileSystem) (fuel : nat)
    (expression : RegExp) (path : option string)
    (callback : option (entry_args -> Proc)) : Proc :=
  modify (set_rd_files []) ;;
  modify (set_rd_contents []) ;;
  modify (set_rd_stats []) ;;
  eachFileMatchingSync fs fuel expression path
    (Some (readEachFileMatchingSync_handler fs callback)).

(** ** File systems to run on *)

(** What a path names on a disk given as a table. *)
Inductive node :=
| FileNode (stat : Stats) (content : Buffer)
| LockedFile (stat : Stats)
| DirNode (stat : Stats) (names : list string).

Fixpoint find_node (disk : list (string * node)) (path : string) : option node :=
  match disk with
  | [] => None
  | (p, n) :: disk' => if String.eqb p path then Some n else find_node disk' path
  end.

Definition node_stat (n : node) : Stats :=
  match n with FileNode st _ | LockedFile st | DirNode st _ => st end.

Definition disk_fs (disk : list (string * node)) : FileSystem :=
  {| fs_stat p :=
       match find_node disk p with
       | Some n => inr (node_stat n)
       | None => inl ("ENOENT: " +:+ p)
       end;
     fs_readdir p :=
       match find_node disk p with
       | Some (DirNode _ names) => inr names
       | Some _ => inl ("ENOTDIR: " +:+ p)
       | None => inl ("ENOENT: " +:+ p)
       end;
     fs_readFile p :=
       match find_node disk p with
       | Some (FileNode _ content) => inr content
       | Some (LockedFile _) => inl ("EACCES: " +:+ p)
       | Some (DirNode _ _) => inl ("EISDIR: " +:+ p)
       | None => inl ("ENOENT: " +:+ p)
       end;
     fs_readFile_undefined := ThrowsAtCall "TypeError: path must be a string" |}.

Definition a_file : Stats := mkStats false 3 0.
Definition a_dir : Stats := mkStats true 4096 0.

(** [root/{a.txt, sub/{b.txt, c.log}}] *)
Definition sample_disk : list (string * node) :=
  [ ("root", DirNode a_dir ["a.txt"; "sub"]);
    ("root/a.txt", FileNode a_file [Byte.x61]);
    ("root/sub", DirNode a_dir ["b.txt"; "c.log"]);
    ("root/sub/b.txt", FileNode a_file [Byte.x62]);
    ("root/sub/c.log", FileNode a_file [Byte.x63]) ].

Definition sample_fs : FileSystem := disk_fs sample_disk.

(** Nothing at all: every path is missing. *)
Definition empty_fs : FileSystem := disk_fs [].

(** A lone file. *)
Definition one_file_fs : FileSystem := disk_fs [("a.txt", FileNode a_file [Byte.x61])].

(** Does [s] end in [.txt]? *)
Fixpoint has_txt_suffix (s : string) : bool :=
  match s with
  | EmptyString => false
  | String c rest => String.eqb s ".txt" || has_txt_suffix rest
  end.

(** The search for [\.txt$] from index [i] on: the match, if there is
    one, is the last four characters. *)
Definition search_txt_suffix (i : nat) (s : string) : option nat :=
  if has_txt_suffix s && (i + 4 <=? String.length s)
  then Some (String.length s)
  else None.

(** [expression = /\.txt$/] *)
Definition ends_in_txt : RegExp := mkRegExp search_txt_suffix false.

(** [expression = /\.txt$/g] *)
Definition ends_in_txt_g : RegExp := mkRegExp search_txt_suffix true.

(** [r/{long-name.txt, a.txt}] *)
Definition two_txt_fs : FileSystem :=
  disk_fs [ ("r", DirNode a_dir ["long-name.txt"; "a.txt"]);
            ("r/long-name.txt", FileNode a_file [Byte.x61]);
            ("r/a.txt", FileNode a_file [Byte.x62]) ].

(** ** Reading a trace *)

(** A visited entry: a path and its metadata. *)
Abbreviation visit := (string * Stats)%type (only parsing).

(** The entries the caller's per-entry callback was given, in order. *)
Definition visited (t : list event) : list visit :=
  omap (fun ev => match ev with
                  | EvEntry (Entry file stat _) => Some (file, stat)
                  | _ => None
                  end) t.

(** Every call of the caller's per-entry callback, errors included. *)
Definition entry_calls (t : list event) : list entry_args :=
  omap (fun ev => match ev with EvEntry a => Some a | _ => None end) t.

(** Every call of the caller's completion handler. *)
Definition completions (t : list event) : list complete_args :=
  omap (fun ev => match ev with EvComplete a => Some a | _ => None end) t.

(** The errors the caller's per-entry callback was given. *)
Definition entry_errors (t : list event) : list error :=
  omap (fun ev => match ev with EvEntry (EntryErr e) => Some e | _ => None end) t.

(** Does [fs] fail the operation, and with which error? *)
Definition fails (fs : FileSystem) (op : Op) : option error :=
  match op with
  | OpStat p => match fs_stat fs p with inl e => Some e | inr _ => None end
  | OpReaddir p => match fs_readdir fs p with inl e => Some e | inr _ => None end
  | OpReadFile None => Some (rejection_error (fs_readFile_undefined fs))
  | OpReadFile (Some (file, _)) =>
      match fs_readFile fs file with inl e => Some e | inr _ => None end
  end.

(** Filtering what a caller was given, from outside: entries the test
    rejects are dropped, from the calls of the per-entry callback and
    from the lists the completion handler receives. *)
Definition filter_complete (keep : visit -> bool) (a : complete_args) : complete_args :=
  match a with
  | Complete files stats contents =>
      let kept := filter (fun v => keep v = true) (zip files stats) in
      Complete kept.*1 kept.*2 contents
  | CompleteErr err => CompleteErr err
  end.

Definition filter_event (keep : visit -> bool) (ev : event) : option event :=
  match ev with
  | EvEntry (Entry file stat _) => if keep (file, stat) then Some ev else None
  | EvComplete a => Some (EvComplete (filter_complete keep a))
  | _ => Some ev
  end.

Definition filter_events (keep : visit -> bool) (t : list event) : list event :=
  omap (filter_event keep) t.

Definition is_file : visit -> bool := fun v => negb (isDirectory v.2).
Definition path_matches (expression : string -> bool) : visit -> bool :=
  fun v => expression v.1.

(** ** The entries below a path *)

(** The listings of the paths [ps], one after the other. *)
Fixpoint subtrees (below : string -> option (list visit)) (ps : list string)
    : option (list visit) :=
  match ps with
  | [] => Some []
  | p :: ps' =>
      match below p, subtrees below ps' with
      | Some l, Some ls => Some (l ++ ls)
      | _, _ => None
      end
  end.

(** The entries at and below [p], parents first, when every [stat] and
    [readdir] on the way succeeds and [fuel] covers the depth. *)
Fixpoint subtree (fs : FileSystem) (fuel : nat) (p : string) : option (list visit) :=
  match fuel with
  | O => None
  | S fuel' =>
      match fs_stat fs p with
      | inl _ => None
      | inr stat =>
          if isDirectory stat then
            match fs_readdir fs p with
            | inl _ => None
            | inr names =>
                match subtrees (subtree fs fuel') (fullFilePath p <$> names) with
                | Some l => Some ((p, stat) :: l)
                | None => None
                end
            end
          else Some [(p, stat)]
      end
  end.

(** [p] is the root of a finite directory tree on which no [stat] and no
    [readdir] fails. *)
Inductive directory_tree (fs : FileSystem) : string -> Prop :=
| tree_file p stat :
    fs_stat fs p = inr stat ->
    isDirectory stat = false ->
    directory_tree fs p
| tree_directory p stat names :
    fs_stat fs p = inr stat ->
    isDirectory stat = true ->
    fs_readdir fs p = inr names ->
    (forall name, name ∈ names -> directory_tree fs (fullFilePath p name)) ->
    directory_tree fs p.

(** ** What a run on a tree still owes *)

(** An outstanding operation together with the entries its answer, and
    the answers to everything it starts, will deliver. *)
Definition covers (fs : FileSystem) (x : Op * list visit) : Prop :=
  match x.1 with
  | OpStat p => exists n, subtree fs n p = Some x.2
  | OpReaddir p =>
      exists n names,
        fs_readdir fs p = inr names /\
        subtrees (subtree fs n) (fullFilePath p <$> names) = Some x.2
  | OpReadFile _ => False
  end.

(** Turns of the loop an outstanding operation still costs. *)
Definition weight (x : Op * list visit) : nat :=
  match x.1 with
  | OpStat _ => 2 * length x.2
  | OpReaddir _ => 2 * length x.2 + 1
  | OpReadFile _ => 0
  end.

(** The state of [eachFileOrDirectory] under a recording caller, [k]
    turns into the traversal of a tree whose entries are [L]: inside a
    callback, before [checkComplete] has run. *)
Definition tree_progress (fs : FileSystem) (L : list visit) (k : nat) (w : World) : Prop :=
  exists plan : list (Op * list visit),
    pending w = plan.*1 /\
    Forall (covers fs) plan /\
    visited (trace w) ++ (plan ≫= snd) ≡ₚ L /\
    sum_list_with weight plan + k <= 2 * length L /\
    filesToCheck w = Z.of_nat (length (pending w)) /\
    checkedFiles w = (visited (trace w)).*1 /\
    checkedStats w = (visited (trace w)).*2 /\
    entry_errors (trace w) = [] /\
    completions (trace w) = [].

(** The same between two callbacks: the completion handler has run, once
    and last, exactly if nothing is outstanding. *)
Definition tree_invariant (fs : FileSystem) (L : list visit) (k : nat) (w : World) : Prop :=
  exists w0,
    tree_progress fs L k w0 /\
    w = match pending w0 with
        | [] => observe (EvComplete (Complete (checkedFiles w0) (checkedStats w0) None)) w0
        | _ :: _ => w0
        end.

(** ** Two sessions side by side *)

(** The variables of [eachFileOrDirectory] and the outstanding
    operations agree. *)
Definition same_engine (w1 w2 : World) : Prop :=
  filesToCheck w1 = filesToCheck w2 /\
  checkedFiles w1 = checkedFiles w2 /\
  checkedStats w1 = checkedStats w2 /\
  pending w1 = pending w2.

(** [w2], a world of [eachFile] under a recording caller, against [w1],
    the world of [eachFileOrDirectory] under a recording caller after
    the same answers. *)
Definition eachFile_refines (w1 w2 : World) : Prop :=
  same_engine w1 w2 /\
  trace w2 = filter_events is_file (trace w1) /\
  checkedFiles w1 = (visited (trace w1)).*1 /\
  checkedStats w1 = (visited (trace w1)).*2 /\
  ef_files w2 = (visited (trace w2)).*1 /\
  ef_stats w2 = (visited (trace w2)).*2.

(** [w2], a world of [eachFileMatching] under a recording caller,
    against [w1], the world of [eachFile] under a recording caller after
    the same answers. *)
Definition eachFileMatching_refines (expression : string -> bool) (w1 w2 : World) : Prop :=
  same_engine w1 w2 /\
  trace w2 = filter_events (path_matches expression) (trace w1) /\
  ef_files w1 = (visited (trace w1)).*1 /\
  ef_stats w1 = (visited (trace w1)).*2 /\
  ef_files w2 = ef_files w1 /\
  ef_stats w2 = ef_stats w1 /\
  efm_files w2 = (visited (trace w2)).*1 /\
  efm_stats w2 = (visited (trace w2)).*2.

(** The same two worlds for a pattern with any flags: the caller of
    [eachFileMatching] has been given the same errors, and a selection
    of the entries, all of which the pattern accepts. *)
Definition eachFileMatching_selects (expression : RegExp) (w1 w2 : World) : Prop :=
  same_engine w1 w2 /\
  entry_errors (trace w2) = entry_errors (trace w1) /\
  ended w2 = ended w1 /\
  visited (trace w2) `sublist_of` visited (trace w1) /\
  Forall (fun v => accepts expression v.1) (visited (trace w2)).

(** Related, or both absent. *)
Definition both (R : World -> World -> Prop) (o1 o2 : option World) : Prop :=
  match o1, o2 with
  | Some w1, Some w2 => R w1 w2
  | None, None => True
  | _, _ => False
  end.

(** ** Worlds reached on the sample file systems *)

(** The world a schedule leads to (the fresh world if the schedule
    cannot be followed to its end). *)
Definition world_after (S : Session) (sched : list nat) : World :=
  match run S sched with Some w => w | None => empty_world end.

(** Answers in the order the operations were handed to [fs]. *)
Definition in_order (n : nat) : list nat := replicate n 0.

(** Every call of the completion handler seen in [t] carried no error
    and the entries the per-entry callback had been given before it. *)
Definition payloads_accumulated (t : list event) : Prop :=
  forall t1 a t2,
    t = t1 ++ EvComplete a :: t2 ->
    a = Complete (visited t1).*1 (visited t1).*2 None.

(** The arrays of [eachFileOrDirectory] hold what its caller was given. *)
Definition engine_accumulates (w : World) : Prop :=
  checkedFiles w = (visited (trace w)).*1 /\
  checkedStats w = (visited (trace w)).*2 /\
  payloads_accumulated (trace w).

(** A directory listing that names a child which is gone by the time it
    is probed, next to a file that is there. *)
Definition racy_fs : FileSystem :=
  disk_fs [ ("root", DirNode a_dir ["gone"; "a.txt"]);
            ("root/a.txt", FileNode a_file [Byte.x61]) ].

(** [empty_fs] on a host that reports a bad path argument through the
    callback. *)
Definition empty_fs_late : FileSystem :=
  mkFileSystem (fs_stat empty_fs) (fs_readdir empty_fs) (fs_readFile empty_fs)
    (FailsInCallback "TypeError: path must be a string").

(** A file that is there and cannot be read. *)
Definition locked_fs : FileSystem := disk_fs [("a.txt", LockedFile a_file)].

(** ** Failures in the synchronous functions *)

(** The error of a call into [fs] that fails, seen in a trace. *)
Definition failing_call (fs : FileSystem) (ev : event) : option error :=
  match ev with
  | EvCall op => fails fs op
  | _ => None
  end.

Definition no_failure (fs : FileSystem) (t : list event) : Prop :=
  Forall (fun ev => failing_call fs ev = None) t.

(** The result of a procedure that met no failing call, or that threw
    the error of the failing call it made last. *)
Definition stops_at_failure (fs : FileSystem) (r : outcome * World) : Prop :=
  match r.1 with
  | Thrown e =>
      exists t ev, trace r.2 = t ++ [ev] /\ no_failure fs t /\ failing_call fs ev = Some e
  | _ => no_failure fs (trace r.2)
  end.

Definition careful (fs : FileSystem) (p : Proc) : Prop :=
  forall w, no_failure fs (trace w) -> stops_at_failure fs (p w).

(** A call that, made in a fresh world, does nothing after a call into
    [fs] has failed and throws that call's error to its caller; and
    throws nothing else. *)
Definition aborts_at_first_failure (fs : FileSystem) (p : Proc) : Prop :=
  forall o w,
    p empty_world = (o, w) ->
    (forall t1 ev t2 e,
       trace w = t1 ++ ev :: t2 ->
       failing_call fs ev = Some e ->
       t2 = [] /\ o = Thrown e) /\
    (forall e,
       o = Thrown e ->
       exists t ev, trace w = t ++ [ev] /\ failing_call fs ev = Some e).

(** ** Lists that belong together *)

(** Two lists of equal length whose elements at equal positions are
    related. *)
Definition aligned {A B : Type} (R : A -> B -> Prop) (xs : list A) (ys : list B) : Prop :=
  length xs = length ys /\
  forall i x y, xs !! i = Some x -> ys !! i = Some y -> R x y.

(** [stat] is what probing [file] produces; [content] is what reading
    [file] produces. *)
Definition stat_of (fs : FileSystem) (file : string) (stat : Stats) : Prop :=
  fs_stat fs file = inr stat.
Definition content_of (fs : FileSystem) (file : string) (content : Buffer) : Prop :=
  fs_readFile fs file = inr content.

Definition entry_ok (fs : FileSystem) (a : entry_args) : Prop :=
  match a with
  | EntryErr _ => True
  | Entry file stat None => stat_of fs file stat
  | Entry file stat (Some content) => stat_of fs file stat /\ content_of fs file content
  end.

Definition complete_ok (fs : FileSystem) (a : complete_args) : Prop :=
  match a with
  | CompleteErr _ => True
  | Complete files stats None => aligned (stat_of fs) files stats
  | Complete files stats (Some contents) =>
      aligned (stat_of fs) files stats /\ aligned (content_of fs) files contents
  end.

(** The [stat] a read closes over is the one of its file. *)
Definition op_ok (fs : FileSystem) (op : Op) : Prop :=
  match op with
  | OpReadFile (Some (file, stat)) => stat_of fs file stat
  | _ => True
  end.

Definition event_ok (fs : FileSystem) (ev : event) : Prop :=
  match ev with
  | EvEntry a => entry_ok fs a
  | EvComplete a => complete_ok fs a
  | _ => True
  end.

(** In every session the arrays of files, stats and contents correspond
    position by position, and so did everything handed to the caller. *)
Definition consistent (fs : FileSystem) (w : World) : Prop :=
  aligned (stat_of fs) (checkedFiles w) (checkedStats w) /\
  aligned (stat_of fs) (ef_files w) (ef_stats w) /\
  aligned (stat_of fs) (efm_files w) (efm_stats w) /\
  aligned (stat_of fs) (rd_files w) (rd_stats w) /\
  aligned (content_of fs) (rd_files w) (rd_contents w) /\
  Forall (op_ok fs) (pending w) /\
  Forall (event_ok fs) (trace w).

Definition keeps (fs : FileSystem) (p : Proc) : Prop :=
  forall w, consistent fs w -> consistent fs (p w).2.

Definition entry_handler_keeps (fs : FileSystem) (h : option (entry_args -> Proc)) : Prop :=
  forall f a, h = Some f -> entry_ok fs a -> keeps fs (f a).

Definition complete_handler_keeps (fs : FileSystem) (h : option (complete_args -> Proc))
    : Prop :=
  forall f a, h = Some f -> complete_ok fs a -> keeps fs (f a).

Definition session_keeps (fs : FileSystem) (S : Session) : Prop :=
  keeps fs (start S) /\
  (forall p, keeps fs (on_stat S p)) /\
  (forall p, keeps fs (on_readdir S p)) /\
  (forall target, op_ok fs (OpReadFile target) -> keeps fs (on_readFile S target)).

(** ** Further properties: definitions *)

(** A probe or a listing, not a read. *)
Definition is_probe (op : Op) : Prop :=
  match op with
  | OpStat _ | OpReaddir _ => True
  | OpReadFile _ => False
  end.

(** Between two callbacks of a session of [eachFileOrDirectory]: the
    counter is the number of outstanding operations, none of which is a
    read, and the completion handler has run either not at all, or once,
    as the last thing seen, with nothing outstanding. *)
Definition counted (w : World) : Prop :=
  filesToCheck w = Z.of_nat (length (pending w)) /\
  Forall is_probe (pending w) /\
  (completions (trace w) = [] \/
   (pending w = [] /\
    exists t a, trace w = t ++ [EvComplete a] /\ completions t = [])).

(** [q] is a child, by a name its listing gives, of a directory among
    the entries [seen]. *)
Definition child_of_seen (fs : FileSystem) (seen : list visit) (q : string) : Prop :=
  exists p stat names name,
    (p, stat) ∈ seen /\ isDirectory stat = true /\
    fs_readdir fs p = inr names /\ name ∈ names /\
    q = fullFilePath p name.

(** Each entry of [l] is the root, first of all, or a listed child of a
    directory that comes before it. *)
Definition parents_first (fs : FileSystem) (root : string) (l : list visit) : Prop :=
  forall l1 v l2,
    l = l1 ++ v :: l2 ->
    (l1 = [] /\ v.1 = root) \/ child_of_seen fs l1 v.1.

(** An outstanding operation that the entries [seen] account for. *)
Definition op_descends (fs : FileSystem) (seen : list visit) (op : Op) : Prop :=
  match op with
  | OpStat q => child_of_seen fs seen q
  | OpReaddir p => exists stat, (p, stat) ∈ seen /\ isDirectory stat = true
  | OpReadFile _ => False
  end.

Definition descends (fs : FileSystem) (root : string) (w : World) : Prop :=
  parents_first fs root (visited (trace w)) /\
  ((visited (trace w) = [] /\ (pending w = [OpStat root] \/ pending w = [])) \/
   Forall (op_descends fs (visited (trace w))) (pending w)).

(** A call of the completion handler whose stats are all of
    non-directories. *)
Definition files_only (a : complete_args) : Prop :=
  match a with
  | Complete _ stats _ => Forall (fun stat => isDirectory stat = false) stats
  | CompleteErr _ => True
  end.

(** Two results of synchronous calls: the same outcome, and the second
    caller has seen what the first has seen, filtered by [keep]. *)
Definition alike (keep : visit -> bool) (r1 r2 : outcome * World) : Prop :=
  r2.1 = r1.1 /\ trace r2.2 = filter_events keep (trace r1.2).

(** Two procedures that keep two such callers in step. *)
Definition mirrors (keep : visit -> bool) (p1 p2 : Proc) : Prop :=
  forall w1 w2,
    trace w2 = filter_events keep (trace w1) ->
    alike keep (p1 w1) (p2 w2).

(** ** The reader's bookkeeping *)

(** The files whose read is outstanding. *)
Definition read_targets (ops : list Op) : list visit :=
  omap (fun op => match op with
                  | OpReadFile (Some target) => Some target
                  | _ => None
                  end) ops.

(** [fs] can read the file. *)
Definition readable (fs : FileSystem) (v : visit) : bool :=
  match fs_readFile fs v.1 with
  | inr _ => true
  | inl _ => false
  end.

(** Between two callbacks of a session of [readEachFileMatching]: the
    arrays of [eachFileMatching] hold the matched files, all of them
    non-directories whose path the pattern accepts; the reader's arrays
    hold what its caller was given; and the matched files that can be
    read are those given to the caller together with those whose read is
    outstanding, each once. *)
Definition reads_accounted (fs : FileSystem) (expression : RegExp) (w : World)
    : Prop :=
  exists matched : list visit,
    efm_files w = matched.*1 /\
    efm_stats w = matched.*2 /\
    Forall (fun v => accepts expression v.1 /\ isDirectory v.2 = false) matched /\
    rd_files w = (visited (trace w)).*1 /\
    rd_stats w = (visited (trace w)).*2 /\
    filter (fun v => readable fs v = true) matched ≡ₚ
      visited (trace w) ++ filter (fun v => readable fs v = true) (read_targets (pending w)).

(** What is left of an observation when the caller of [eachFile] gives no
    per-entry callback: an entry is not seen at all, an error is seen as
    the TypeError of calling [undefined]. *)
Definition without_callback (ev : event) : option event :=
  match ev with
  | EvEntry (Entry _ _ _) => None
  | EvEntry (EntryErr _) => Some (EvUncaught not_a_function)
  | _ => Some ev
  end.

(** [w2], a world of [eachFile] without a per-entry callback, against
    [w1], the world of [eachFile] under a recording callback after the
    same answers. *)
Definition callback_omitted (w1 w2 : World) : Prop :=
  same_engine w1 w2 /\
  ef_files w2 = ef_files w1 /\
  ef_stats w2 = ef_stats w1 /\
  trace w2 = omap without_callback (trace w1) /\
  ended w1 = false.

(** No error has been handed over, or one has and nothing has happened
    since. *)
Definition at_most_the_first_error (t : list event) : Prop :=
  entry_errors t = [] \/
  exists t0 e, t = t0 ++ [EvEntry (EntryErr e)] /\ entry_errors t0 = [].

(** The two calls after the same answers.  While both are there, the
    call with a callback has been handed at most one error, just now;
    the call without one is gone as soon as an error had been handed
    over before the last answer. *)
Definition callback_omitted_until_error (o1 o2 : option World) : Prop :=
  match o1, o2 with
  | Some w1, Some w2 => callback_omitted w1 w2 /\ at_most_the_first_error (trace w1)
  | Some w1, None => entry_errors (trace w1) <> []
  | None, Some _ => False
  | None, None => True
  end.

(** ** What a traversal finds when parts of it fail *)

(** Entries visited and errors met. *)
Abbreviation findings := (list (string * Stats) * list error)%type (only parsing).

(** The findings below the paths [ps], one after the other. *)
Fixpoint surveys (below : string -> option findings) (ps : list string) : option findings :=
  match ps with
  | [] => Some ([], [])
  | p :: ps' =>
      match below p, surveys below ps' with
      | Some (l, es), Some (ls, ess) => Some (l ++ ls, es ++ ess)
      | _, _ => None
      end
  end.

(** What [eachFileOrDirectory] finds at and below [p]: a failing [stat]
    gives its error and no entry; a failing [readdir] gives the directory
    and its error; [fuel] bounds the depth. *)
Fixpoint survey (fs : FileSystem) (fuel : nat) (p : string) : option findings :=
  match fuel with
  | O => None
  | S fuel' =>
      match fs_stat fs p with
      | inl e => Some ([], [e])
      | inr stat =>
          if isDirectory stat then
            match fs_readdir fs p with
            | inl e => Some ([(p, stat)], [e])
            | inr names =>
                match surveys (survey fs fuel') (fullFilePath p <$> names) with
                | Some (l, es) => Some ((p, stat) :: l, es)
                | None => None
                end
            end
          else Some ([(p, stat)], [])
      end
  end.

(** An outstanding operation together with what its answer, and the
    answers to everything it starts, will find. *)
Definition surveyed (fs : FileSystem) (x : Op * findings) : Prop :=
  match x.1 with
  | OpStat p => exists n, survey fs n p = Some x.2
  | OpReaddir p =>
      exists n,
        match fs_readdir fs p with
        | inl e => x.2 = ([], [e])
        | inr names => surveys (survey fs n) (fullFilePath p <$> names) = Some x.2
        end
  | OpReadFile _ => False
  end.

Definition survey_weight (x : Op * findings) : nat :=
  match x.1 with
  | OpStat _ => 2 * (length x.2.1 + length x.2.2)
  | OpReaddir _ => 2 * (length x.2.1 + length x.2.2) + 1
  | OpReadFile _ => 0
  end.

Definition plan_entries (plan : list (Op * findings)) : list (string * Stats) :=
  plan ≫= (fun x => x.2.1).
Definition plan_errors (plan : list (Op * findings)) : list error :=
  plan ≫= (fun x => x.2.2).

(** The state of [eachFileOrDirectory] under a recording caller, [k]
    answers into a traversal that finds the entries [L] and the errors
    [Es]. *)
Definition survey_invariant (fs : FileSystem) (L : list (string * Stats)) (Es : list error)
    (k : nat) (w : World) : Prop :=
  exists plan : list (Op * findings),
    pending w = plan.*1 /\
    Forall (surveyed fs) plan /\
    visited (trace w) ++ plan_entries plan ≡ₚ L /\
    entry_errors (trace w) ++ plan_errors plan ≡ₚ Es /\
    sum_list_with survey_weight plan + k <= 2 * (length L + length Es).

(** ** What a traversal meets, in order *)

(** An entry visited or an error met. *)
Abbreviation finding := (string * Stats + error)%type (only parsing).

(** What is met below the paths [ps], one after the other. *)
Fixpoint chronicles (below : string -> option (list finding)) (ps : list string)
    : option (list finding) :=
  match ps with
  | [] => Some []
  | p :: ps' =>
      match below p, chronicles below ps' with
      | Some c, Some cs => Some (c ++ cs)
      | _, _ => None
      end
  end.

(** The entries and the errors at and below [p] in the order of a walk
    that takes parents first and children in the order of the listing,
    and that goes on after a failure; [fuel] bounds the depth. *)
Fixpoint chronicle (fs : FileSystem) (fuel : nat) (p : string) : option (list finding) :=
  match fuel with
  | O => None
  | S fuel' =>
      match fs_stat fs p with
      | inl e => Some [inr e]
      | inr stat =>
          if isDirectory stat then
            match fs_readdir fs p with
            | inl e => Some [inl (p, stat); inr e]
            | inr names =>
                match chronicles (chronicle fs fuel') (fullFilePath p <$> names) with
                | Some c => Some (inl (p, stat) :: c)
                | None => None
                end
            end
          else Some [inl (p, stat)]
      end
  end.

Definition entries_met (c : list finding) : list (string * Stats) :=
  omap (fun x => match x with inl v => Some v | inr _ => None end) c.
Definition errors_met (c : list finding) : list error :=
  omap (fun x => match x with inl _ => None | inr e => Some e end) c.

(** The entries that come before the first error, and that error. *)
Fixpoint before_failure (c : list finding) : list (string * Stats) * option error :=
  match c with
  | [] => ([], None)
  | inl v :: c' => (v :: (before_failure c').1, (before_failure c').2)
  | inr e :: _ => ([], Some e)
  end.

(** How a synchronous call that would meet [c] ends when started in [w]:
    it has visited the entries that come before the first error, those
    and no other, and has thrown that error; without an error it has
    visited every entry and returned. *)
Definition ends_at_first_error (c : list finding) (w : World) (r : outcome * World) : Prop :=
  visited (trace r.2) = visited (trace w) ++ (before_failure c).1 /\
  r.1 = match (before_failure c).2 with
        | Some e => Thrown e
        | None => Returned
        end.

(** ** Reading along *)

(** What the caller of [readEachFileMatchingSync] sees where the caller
    of [eachFileMatchingSync] sees [ev]: for an entry, the read of its
    file and then the entry with the content. *)
Definition with_content (fs : FileSystem) (ev : event) : list event :=
  match ev with
  | EvEntry (Entry file stat None) =>
      EvCall (OpReadFile (Some (file, stat))) ::
      match fs_readFile fs file with
      | inr content => [EvEntry (Entry file stat (Some content))]
      | inl _ => []
      end
  | _ => [ev]
  end.

(** Every file that can be probed can be read. *)
Definition files_readable (fs : FileSystem) : Prop :=
  forall file stat,
    fs_stat fs file = inr stat -> isDirectory stat = false ->
    exists content, fs_readFile fs file = inr content.

(** Two procedures that keep a caller who reads along in step. *)
Definition read_along (fs : FileSystem) (p1 p2 : Proc) : Prop :=
  forall w1 w2,
    trace w2 = trace w1 ≫= with_content fs ->
    lastIndex w2 = lastIndex w1 ->
    (p2 w2).1 = (p1 w1).1 /\
    trace (p2 w2).2 = trace (p1 w1).2 ≫= with_content fs /\
    lastIndex (p2 w2).2 = lastIndex (p1 w1).2.

(** ** Path lemmas *)

Lemma replace_trailing_slash_snoc (d : string) :
  replace_trailing_slash (d +:+ "/") = d.
Proof.
  induction d as [|c d IH]; [reflexivity|].
  destruct d as [|c' d']; [reflexivity|].
  change (String c (replace_trailing_slash (String c' d' +:+ "/")) = String c (String c' d')).
  by rewrite IH.
Qed.

Lemma replace_trailing_slash_id (d : string) :
  ends_with_slash d = false -> replace_trailing_slash d = d.
Proof.
  induction d as [|c d IH]; [reflexivity|].
  cbn [ends_with_slash replace_trailing_slash].
  destruct d as [|c' d'].
  - intros ->. reflexivity.
  - intros H. rewrite (IH H). reflexivity.
Qed.

Lemma append_assoc (a b c : string) : (a +:+ b) +:+ c = a +:+ (b +:+ c).
Proof.
  induction a as [|x a IH]; [reflexivity|].
  change (String x ((a +:+ b) +:+ c) = String x (a +:+ b +:+ c)).
  by rewrite IH.
Qed.

(** C9, as the code has it: [fullFilePath] removes at most one trailing
    separator of the parent before it adds its own.  A parent written
    with one trailing slash and a parent written with none give the same
    child path, with a single slash between parent and child; of several
    trailing slashes only the last is dropped. *)
Theorem fullFilePath_strips_one_separator :
  (forall d file, fullFilePath (d +:+ "/") file = d +:+ "/" +:+ file) /\
  (forall d file, fullFilePath d file =
     (if ends_with_slash d then replace_trailing_slash d else d) +:+ "/" +:+ file) /\
  (forall d file, fullFilePath (d +:+ "//") file = d +:+ "//" +:+ file).
Proof.
  split; [|split]; intros d file; unfold fullFilePath.
  - by rewrite replace_trailing_slash_snoc.
  - destruct (ends_with_slash d) eqn:E; [reflexivity|].
    by rewrite replace_trailing_slash_id.
  - change "//" with ("/" +:+ "/").
    rewrite <- (append_assoc d "/" "/"), replace_trailing_slash_snoc.
    by rewrite !append_assoc.
Qed.

(** C9, as the description states it, fails on a parent that ends in two
    separators: one of them survives in the child path. *)
Lemma fullFilePath_keeps_duplicate_separator :
  fullFilePath "a//" "b" = "a//b" /\
  join_single_separator "a//" "b" = "a/b" /\
  fullFilePath "a//" "b" <> join_single_separator "a//" "b".
Proof. split; [reflexivity|split; [reflexivity|discriminate]]. Qed.

(** ** Procedures, step by step *)

Lemma seq_returned (p q : Proc) w w1 :
  p w = (Returned, w1) -> (p ;; q) w = q w1.
Proof. unfold seq. by intros ->. Qed.

Lemma seq_thrown (p q : Proc) w w1 e :
  p w = (Thrown e, w1) -> (p ;; q) w = (Thrown e, w1).
Proof. unfold seq. by intros ->. Qed.

Lemma seq_diverged (p q : Proc) w w1 :
  p w = (Diverged, w1) -> (p ;; q) w = (Diverged, w1).
Proof. unfold seq. by intros ->. Qed.

Lemma seq_assoc (p q r : Proc) w :
  ((p ;; q) ;; r) w = (p ;; (q ;; r)) w.
Proof. unfold seq. by destruct (p w) as [[| |] w1]. Qed.

Lemma seq_modify (f : World -> World) (q : Proc) w :
  (modify f ;; q) w = q (f w).
Proof. reflexivity. Qed.

Lemma forEach_app {A} (l1 l2 : list A) (f : A -> Proc) w :
  forEach (l1 ++ l2) f w = (forEach l1 f ;; forEach l2 f) w.
Proof.
  revert w. induction l1 as [|x l1 IH]; intros w; [reflexivity|].
  cbn [app forEach]. unfold seq in *.
  destruct (f x w) as [[| |] w1]; try reflexivity. apply IH.
Qed.

(** [files.forEach] in the callback of [readdir]: one [stat] handed to
    [fs] per child, the counter raised once for each. *)
Lemma forEach_onFileOrDirectory (files : list string) (g : string -> string) w :
  forEach files (fun file => onFileOrDirectory (g file)) w =
  (Returned,
   set_pending (pending w ++ ((fun file => OpStat (g file)) <$> files))
     (set_filesToCheck (filesToCheck w + Z.of_nat (length files)) w)).
Proof.
  revert w. induction files as [|x files IH]; intros w.
  - destruct w; cbn. unfold skip, set_pending, set_filesToCheck; cbn.
    by rewrite Z.add_0_r, app_nil_r.
  - cbn [forEach]. unfold seq at 1. cbn -[Z.of_nat Z.add].
    rewrite IH. unfold set_pending, set_filesToCheck; cbn -[Z.of_nat Z.add].
    do 2 f_equal; [lia | by rewrite <- app_assoc].
Qed.

(** ** Reading a trace: the readers distribute over appending *)

Lemma visited_app t1 t2 : visited (t1 ++ t2) = visited t1 ++ visited t2.
Proof. apply omap_app. Qed.
Lemma entry_calls_app t1 t2 : entry_calls (t1 ++ t2) = entry_calls t1 ++ entry_calls t2.
Proof. apply omap_app. Qed.
Lemma completions_app t1 t2 : completions (t1 ++ t2) = completions t1 ++ completions t2.
Proof. apply omap_app. Qed.
Lemma entry_errors_app t1 t2 : entry_errors (t1 ++ t2) = entry_errors t1 ++ entry_errors t2.
Proof. apply omap_app. Qed.
Lemma filter_events_app keep t1 t2 :
  filter_events keep (t1 ++ t2) = filter_events keep t1 ++ filter_events keep t2.
Proof. apply omap_app. Qed.

(** ** Lists of outstanding work *)

Lemma fmap_delete {A B} (f : A -> B) (l : list A) i :
  f <$> delete i l = delete i (f <$> l).
Proof.
  revert i. induction l as [|x l IH]; intros [|i]; cbn; try reflexivity.
  by rewrite IH.
Qed.

Lemma subtrees_Some (below : string -> option (list visit)) ps l :
  subtrees below ps = Some l ->
  exists ls, Forall2 (fun p lp => below p = Some lp) ps ls /\ l = concat ls.
Proof.
  revert l. induction ps as [|p ps IH]; intros l; cbn.
  - intros [= <-]. exists []. split; [constructor | reflexivity].
  - destruct (below p) as [lp|] eqn:Hp; [|discriminate].
    destruct (subtrees below ps) as [lr|] eqn:Hr; [|discriminate].
    intros [= <-]. destruct (IH lr eq_refl) as (ls & Hls & ->).
    exists (lp :: ls). split; [by constructor | reflexivity].
Qed.

Lemma subtrees_of_Forall2 (below : string -> option (list visit)) ps ls :
  Forall2 (fun p lp => below p = Some lp) ps ls ->
  subtrees below ps = Some (concat ls).
Proof.
  induction 1 as [|p lp ps ls Hp _ IH]; cbn; [reflexivity|].
  by rewrite Hp, IH.
Qed.

(** The plan for the children of a directory. *)
Lemma children_plan fs n (cs : list string) (ls : list (list visit)) :
  Forall2 (fun p lp => subtree fs n p = Some lp) cs ls ->
  (zip (OpStat <$> cs) ls).*1 = OpStat <$> cs /\
  Forall (covers fs) (zip (OpStat <$> cs) ls) /\
  (zip (OpStat <$> cs) ls ≫= snd) = concat ls /\
  sum_list_with weight (zip (OpStat <$> cs) ls) = 2 * length (concat ls).
Proof.
  induction 1 as [|p lp cs ls Hp _ (IH1 & IH2 & IH3 & IH4)]; cbn.
  - by repeat split.
  - repeat split.
    + by rewrite IH1.
    + constructor; [by exists n | done].
    + by rewrite IH3.
    + rewrite IH4. unfold weight; cbn. rewrite length_app. lia.
Qed.

(** ** The engine on a tree, under a recording caller *)

Ltac unfold_procs :=
  unfold stat_callback, readdir_callback, readFile_callback, checkComplete,
    onDirectory, onFileOrDirectory,
    eachFile_handler, eachFile_complete,
    eachFileMatching_handler, eachFileMatching_complete,
    readEachFileMatching_handler, readEachFileMatching_complete,
    record_entry, record_complete,
    call, call_if_given, or_NOOP, NOOP,
    incr_filesToCheck, decr_filesToCheck,
    push_checkedFiles, push_checkedStats, push_ef_files, push_ef_stats,
    push_efm_files, push_efm_stats, push_rd_files, push_rd_contents, push_rd_stats,
    issue, modify, seq, skip, throw, settle in *.

Lemma plan_lookup (plan : list (Op * list visit)) (ops : list Op) i op :
  ops = plan.*1 -> ops !! i = Some op ->
  exists l, plan !! i = Some (op, l).
Proof.
  intros -> H. rewrite list_lookup_fmap in H.
  destruct (plan !! i) as [[op' l]|]; [|discriminate].
  injection H as <-. by exists l.
Qed.

Lemma plan_delete (plan : list (Op * list visit)) i x :
  plan !! i = Some x ->
  (plan ≫= snd) ≡ₚ x.2 ++ (delete i plan ≫= snd) /\
  sum_list_with weight plan = weight x + sum_list_with weight (delete i plan).
Proof.
  intros H. pose proof (delete_Permutation _ _ _ H) as HP. split.
  - by rewrite HP at 1.
  - by rewrite HP at 1.
Qed.

Ltac world_simpl :=
  cbn [filesToCheck checkedFiles checkedStats ef_files ef_stats efm_files efm_stats
       lastIndex rd_files rd_contents rd_stats pending trace
       set_filesToCheck set_checkedFiles set_checkedStats set_ef_files set_ef_stats
       set_efm_files set_efm_stats set_lastIndex set_rd_files set_rd_contents set_rd_stats
       set_pending observe] in *.

(** ** [expression.test] *)

(** A pattern without the [g] and the [y] flag: the answer is a function
    of the string and nothing is written. *)
Lemma test_without_flags expression s k w :
  re_global_or_sticky expression = false ->
  test expression s k w = k (matches expression s) w.
Proof. intros H. unfold test. by rewrite H. Qed.

(** Whatever the flags: [test] writes [lastIndex] at most, and says yes
    only to what the pattern accepts. *)
Lemma test_answers expression s k w :
  exists b w0,
    test expression s k w = k b w0 /\
    (w0 = w \/ exists i, w0 = set_lastIndex i w) /\
    (b = true -> accepts expression s).
Proof.
  unfold test, accepts. destruct (re_global_or_sticky expression).
  - destruct (re_exec expression (lastIndex w) s) as [e|] eqn:E.
    + exists true, (set_lastIndex e w). split_and!; [done|eauto|].
      intros _. exists (lastIndex w). by rewrite E.
    + exists false, (set_lastIndex 0 w). split_and!; [done|eauto|done].
  - exists (matches expression s), w. split_and!; [done|eauto|done].
Qed.

Lemma accepts_without_flags expression s :
  re_global_or_sticky expression = false ->
  accepts expression s <-> matches expression s = true.
Proof. intros H. unfold accepts. by rewrite H. Qed.

Lemma seq_test_without_flags expression s k (q : Proc) w :
  re_global_or_sticky expression = false ->
  (test expression s k ;; q) w = (k (matches expression s) ;; q) w.
Proof. intros H. unfold seq. by rewrite test_without_flags. Qed.

Lemma seq_test_answers expression s k (q : Proc) w :
  exists b w0,
    (test expression s k ;; q) w = (k b ;; q) w0 /\
    (w0 = w \/ exists i, w0 = set_lastIndex i w) /\
    (b = true -> accepts expression s).
Proof.
  destruct (test_answers expression s k w) as (b & w0 & H & Hw0 & Hb).
  exists b, w0. split_and!; [|done|done]. unfold seq. by rewrite H.
Qed.

(** ** The loop *)

Lemma run_from_cons S i sched w w' :
  run_from S (i :: sched) w = Some w' ->
  ended w = false /\
  exists w1, step S i w = Some w1 /\ run_from S sched w1 = Some w'.
Proof.
  cbn [run_from]. destruct (ended w); [done|].
  destruct (step S i w) as [w1|]; [|done]. eauto.
Qed.

Lemma run_from_alive S i sched w :
  ended w = false ->
  run_from S (i :: sched) w =
    match step S i w with Some w' => run_from S sched w' | None => None end.
Proof. intros H. cbn [run_from]. by rewrite H. Qed.

Lemma run_from_ended S i sched w :
  ended w = true -> run_from S (i :: sched) w = None.
Proof. intros H. cbn [run_from]. by rewrite H. Qed.

Lemma ended_observe ev w :
  ended (observe ev w) =
    ended w || match ev with EvUncaught _ => true | _ => false end.
Proof.
  unfold ended. cbn [trace observe]. rewrite existsb_app. cbn.
  by rewrite orb_false_r.
Qed.

Ltac ended_tac :=
  unfold ended; world_simpl; rewrite ?existsb_app; cbn [existsb];
  rewrite ?orb_false_r; try done.

Section Base.
Variable fs : FileSystem.
Variable directory : option string.

Lemma tree_progress_checkComplete L k w :
  tree_progress fs L k w ->
  exists w', checkComplete record_complete w = (Returned, w') /\
             tree_invariant fs L k w'.
Proof.
  intros Hw. pose proof Hw as (plan & Hpend & _ & _ & _ & Hcount & _).
  unfold_procs. rewrite Hcount.
  destruct (pending w) as [|op ops] eqn:E; cbn [length].
  - eexists. split; [reflexivity|]. exists w. by rewrite E.
  - replace (Z.of_nat (S (length ops)) =? 0)%Z with false
      by (symmetry; apply Z.eqb_neq; lia).
    eexists. split; [reflexivity|]. exists w. by rewrite E.
Qed.

Lemma tree_progress_busy L k w :
  tree_progress fs L k w -> pending w <> [] -> tree_invariant fs L k w.
Proof. intros Hw Hne. exists w. split; [done|]. by destruct (pending w). Qed.

Lemma tree_invariant_step L k i w w' :
  tree_invariant fs L k w ->
  step (eachFileOrDirectory fs directory record_entry record_complete) i w = Some w' ->
  tree_invariant fs L (S k) w'.
Proof.
  intros (w0 & Hw0 & ->).
  unfold step. destruct (pending _ !! i) as [op|] eqn:Hop; [|discriminate].
  assert (Hww : match pending w0 with
                | [] => observe (EvComplete (Complete (checkedFiles w0) (checkedStats w0) None)) w0
                | _ :: _ => w0 end = w0).
  { destruct (pending w0) eqn:E; [|done]. world_simpl. by rewrite E in Hop. }
  rewrite Hww in *. clear Hww. rename w0 into w.
  destruct Hw0 as (plan & Hpend & Hcov & Hperm & Hsum & Hcount & Hfiles & Hstats & Hcalls & Hnone).
  intros [= <-].
  destruct (plan_lookup _ _ _ _ Hpend Hop) as [l Hl].
  destruct (plan_delete _ _ _ Hl) as [HP HS]. cbn [snd] in HP.
  pose proof (proj1 (Forall_lookup _ _) Hcov _ _ Hl) as Hc.
  assert (Hlen : length (pending w) = S (length (delete i (pending w)))).
  { rewrite length_delete by eauto. apply lookup_lt_Some in Hop. lia. }
  destruct op as [p|p|t]; unfold covers in Hc; cbn [fst snd] in Hc; [| |done].
  - destruct Hc as [[|n] Hn]; [discriminate|]. cbn [subtree] in Hn.
    cbn [deliver eachFileOrDirectory on_stat]. unfold stat_callback.
    destruct (fs_stat fs p) as [e|st]; [discriminate|].
    destruct (isDirectory st) eqn:Hdir.
    + destruct (fs_readdir fs p) as [e|names] eqn:Hnames; [discriminate|].
      destruct (subtrees _ _) as [l'|] eqn:Hsub; [|discriminate].
      injection Hn as <-. unfold_procs. cbn.
      apply tree_progress_busy; [|world_simpl; by destruct (delete i (pending w))].
      exists (delete i plan ++ [(OpReaddir p, l')]).
      world_simpl. split_and!.
      * by rewrite fmap_app, fmap_delete, <- Hpend.
      * apply Forall_app. split; [by apply Forall_delete|].
        constructor; [|done]. unfold covers; cbn. eauto.
      * rewrite visited_app, bind_app. cbn. rewrite <- Hperm, HP, app_nil_r.
        rewrite <- !app_assoc. apply Permutation_app_head. cbn.
        apply Permutation_cons; [done|]. apply Permutation_app_comm.
      * revert Hsum. rewrite HS, sum_list_with_app. unfold weight; cbn. lia.
      * rewrite length_app, Hcount, Hlen. cbn [length]. lia.
      * rewrite visited_app, fmap_app, Hfiles. done.
      * rewrite visited_app, fmap_app, Hstats. done.
      * by rewrite entry_errors_app, Hcalls.
      * by rewrite completions_app, Hnone.
    + injection Hn as <-.
      unfold decr_filesToCheck, push_checkedFiles, push_checkedStats, call, record_entry.
      rewrite !seq_modify.
      match goal with |- context [checkComplete _ ?w1] =>
        destruct (tree_progress_checkComplete L (S k) w1) as (w' & -> & Hw'); [|done] end.
      exists (delete i plan).
      world_simpl. split_and!.
      * by rewrite fmap_delete, <- Hpend.
      * by apply Forall_delete.
      * rewrite visited_app. cbn. rewrite <- Hperm, HP.
        rewrite <- !app_assoc. done.
      * revert Hsum. rewrite HS. unfold weight; cbn. lia.
      * rewrite Hcount, Hlen. lia.
      * rewrite visited_app, fmap_app, Hfiles. done.
      * rewrite visited_app, fmap_app, Hstats. done.
      * by rewrite entry_errors_app, Hcalls.
      * by rewrite completions_app, Hnone.
  - destruct Hc as (n & names & Hnames & Hsub).
    cbn [deliver eachFileOrDirectory on_readdir]. unfold readdir_callback.
    rewrite Hnames. unfold decr_filesToCheck. rewrite seq_modify.
    erewrite seq_returned by apply forEach_onFileOrDirectory.
    match goal with |- context [checkComplete _ ?w1] =>
      destruct (tree_progress_checkComplete L (S k) w1) as (w' & -> & Hw'); [|done] end.
    apply subtrees_Some in Hsub as (ls & Hls & ->).
    destruct (children_plan fs n _ _ Hls) as (HC1 & HC2 & HC3 & HC4).
    exists (delete i plan ++ zip (OpStat <$> (fullFilePath p <$> names)) ls).
    world_simpl. split_and!; try done.
    * rewrite fmap_app, fmap_delete, <- Hpend, HC1.
      by rewrite <- list_fmap_compose.
    * apply Forall_app. split; [by apply Forall_delete | done].
    * rewrite bind_app, HC3. rewrite <- Hperm, HP.
      apply Permutation_app_head, Permutation_app_comm.
    * revert Hsum. rewrite HS, sum_list_with_app, HC4. unfold weight; cbn. lia.
    * rewrite length_app, length_fmap, Hcount, Hlen. lia.
Qed.

Lemma tree_invariant_boot n L :
  subtree fs n (directory_or_default directory) = Some L ->
  tree_invariant fs L 0
    (boot (eachFileOrDirectory fs directory record_entry record_complete)).
Proof.
  intros HL. unfold boot. cbn [start eachFileOrDirectory].
  unfold onFileOrDirectory, incr_filesToCheck, issue. rewrite !seq_modify.
  unfold modify, settle. apply tree_progress_busy; [|done].
  exists [(OpStat (directory_or_default directory), L)].
  cbn. split_and!; try done.
  - constructor; [|done]. by exists n.
  - by rewrite app_nil_r.
  - unfold weight; cbn. lia.
Qed.

Lemma tree_invariant_run_from L k sched w w' :
  tree_invariant fs L k w ->
  run_from (eachFileOrDirectory fs directory record_entry record_complete) sched w = Some w' ->
  tree_invariant fs L (k + length sched) w'.
Proof.
  revert k w. induction sched as [|i sched IH]; intros k w Hw; cbn.
  - intros [= <-]. by rewrite Nat.add_0_r.
  - intros Hrun. apply run_from_cons in Hrun as (_ & w1 & Hstep & Hrun).
    replace (k + S (length sched)) with (S k + length sched) by lia.
    eapply IH; [|done]. by eapply tree_invariant_step.
Qed.

(** A recording caller throws nothing: the process goes on. *)
Lemma ended_checkComplete w :
  exists w', checkComplete record_complete w = (Returned, w') /\ ended w' = ended w.
Proof.
  unfold_procs. destruct (filesToCheck w =? 0)%Z; eexists; (split; [reflexivity|]);
    [|done]. ended_tac.
Qed.

Lemma recording_engine_goes_on i w w' :
  step (eachFileOrDirectory fs directory record_entry record_complete) i w = Some w' ->
  ended w' = ended w.
Proof.
  unfold step. destruct (pending w !! i) as [op|]; [|done]. intros [= <-].
  destruct op as [p|p|t]; cbn [deliver eachFileOrDirectory on_stat on_readdir on_readFile].
  - unfold stat_callback, decr_filesToCheck. rewrite seq_modify.
    destruct (fs_stat fs p) as [e|st].
    + unfold_procs. ended_tac.
    + unfold push_checkedFiles, push_checkedStats, call, record_entry.
      rewrite !seq_modify. destruct (isDirectory st).
      * unfold_procs. ended_tac.
      * match goal with |- context [checkComplete _ ?w1] =>
          destruct (ended_checkComplete w1) as (w' & -> & Hw') end.
        unfold settle. rewrite Hw'. ended_tac.
  - unfold readdir_callback, decr_filesToCheck. rewrite seq_modify.
    destruct (fs_readdir fs p) as [e|names].
    + unfold_procs. ended_tac.
    + erewrite seq_returned by apply forEach_onFileOrDirectory.
      match goal with |- context [checkComplete _ ?w1] =>
        destruct (ended_checkComplete w1) as (w' & -> & Hw') end.
      unfold settle. rewrite Hw'. ended_tac.
  - done.
Qed.

Lemma tree_invariant_bound L k w : tree_invariant fs L k w -> k <= 2 * length L.
Proof. intros (w0 & (plan & _ & _ & _ & H & _) & _). lia. Qed.

Lemma tree_invariant_pending L k w :
  tree_invariant fs L k w -> pending w = [] ->
  visited (trace w) ≡ₚ L /\
  entry_errors (trace w) = [] /\
  completions (trace w) =
    [Complete (visited (trace w)).*1 (visited (trace w)).*2 None] /\
  checkedFiles w = (visited (trace w)).*1 /\
  checkedStats w = (visited (trace w)).*2 /\
  filesToCheck w = 0%Z.
Proof.
  intros (w0 & (plan & Hpend & _ & Hperm & _ & Hcount & Hfiles & Hstats & Hcalls & Hnone) & ->).
  destruct (pending w0) as [|op ops] eqn:E; [|intros Hq; congruence]. intros _.
  destruct plan; [|done]. cbn in Hperm. rewrite app_nil_r in Hperm.
  world_simpl.
  rewrite visited_app, entry_errors_app, completions_app, Hnone, Hfiles, Hstats.
  cbn. rewrite !app_nil_r. done.
Qed.

Lemma tree_invariant_finishes L m : forall k w,
  2 * length L - k <= m ->
  tree_invariant fs L k w ->
  ended w = false ->
  exists sched w',
    run_from (eachFileOrDirectory fs directory record_entry record_complete) sched w = Some w' /\
    pending w' = [].
Proof.
  induction m as [|m IH]; intros k w Hm Hw Hon.
  - destruct (pending w) as [|op ops] eqn:E.
    { exists [], w. by split. }
    destruct (step (eachFileOrDirectory fs directory record_entry record_complete) 0 w)
      as [w1|] eqn:Hstep.
    + apply (tree_invariant_step L k) in Hstep; [|done].
      apply tree_invariant_bound in Hstep. lia.
    + unfold step in Hstep. by rewrite E in Hstep.
  - destruct (pending w) as [|op ops] eqn:E.
    { exists [], w. by split. }
    destruct (step (eachFileOrDirectory fs directory record_entry record_complete) 0 w)
      as [w1|] eqn:Hstep.
    + pose proof (tree_invariant_step L k _ _ _ Hw Hstep) as Hw1.
      destruct (IH (S k) w1) as (sched & w' & Hrun & Hq); [lia|done| |].
      { by rewrite (recording_engine_goes_on _ _ _ Hstep). }
      exists (0 :: sched), w'. split; [|done].
      by rewrite run_from_alive, Hstep.
    + unfold step in Hstep. by rewrite E in Hstep.
Qed.
End Base.

(** ** The listing of a tree *)

Lemma subtrees_ext (f g : string -> option (list visit)) ps l :
  (forall p lp, f p = Some lp -> g p = Some lp) ->
  subtrees f ps = Some l -> subtrees g ps = Some l.
Proof.
  intros Hfg. revert l. induction ps as [|p ps IH]; intros l; cbn; [done|].
  destruct (f p) as [lp|] eqn:Hp; [|discriminate].
  destruct (subtrees f ps) as [lr|]; [|discriminate].
  intros [= <-]. by rewrite (Hfg _ _ Hp), (IH lr eq_refl).
Qed.

Lemma subtree_more_fuel fs n m p l :
  n <= m -> subtree fs n p = Some l -> subtree fs m p = Some l.
Proof.
  revert m p l. induction n as [|n IH]; intros m p l Hnm; [discriminate|].
  destruct m as [|m]; [lia|]. cbn [subtree].
  destruct (fs_stat fs p) as [e|st]; [done|].
  destruct (isDirectory st); [|done].
  destruct (fs_readdir fs p) as [e|names]; [done|].
  destruct (subtrees (subtree fs n) _) as [l'|] eqn:Hsub; [|discriminate].
  intros [= <-].
  erewrite subtrees_ext; [done| |exact Hsub].
  intros q lq. apply IH. lia.
Qed.

Lemma directory_tree_subtree fs p :
  directory_tree fs p -> exists n l, subtree fs n p = Some l.
Proof.
  induction 1 as [p st Hst Hdir | p st names Hst Hdir Hnames _ IH].
  - exists 1, [(p, st)]. cbn. by rewrite Hst, Hdir.
  - assert (exists n ls, Forall2 (fun q lq => subtree fs n q = Some lq)
                           (fullFilePath p <$> names) ls) as (n & ls & Hls).
    { clear Hnames. induction names as [|name names IHn].
      - exists 0, []. constructor.
      - destruct IHn as (n1 & ls & Hls).
        { intros x Hx. apply IH. by right. }
        destruct (IH name) as (n2 & l2 & Hl2); [by left|].
        exists (n1 `max` n2), (l2 :: ls). cbn. constructor.
        + eapply subtree_more_fuel; [|done]. lia.
        + eapply Forall2_impl; [done|]. cbn. intros q lq Hq.
          eapply subtree_more_fuel; [|done]. lia. }
    exists (S n), ((p, st) :: concat ls). cbn.
    by rewrite Hst, Hdir, Hnames, (subtrees_of_Forall2 _ _ _ Hls).
Qed.

(** The synchronous engine under a recording caller walks the listing. *)
Lemma onFileOrDirectorySync_subtree fs n : forall p l w,
  subtree fs n p = Some l ->
  exists w',
    onFileOrDirectorySync fs record_entry n p w = (Returned, w') /\
    visited (trace w') = visited (trace w) ++ l /\
    entry_calls (trace w') = entry_calls (trace w) ++ ((fun v => Entry v.1 v.2 None) <$> l) /\
    checkedFiles w' = checkedFiles w ++ l.*1 /\
    checkedStats w' = checkedStats w ++ l.*2.
Proof.
  induction n as [|n IH]; intros p l w; [discriminate|].
  cbn [subtree onFileOrDirectorySync]. unfold statSync. rewrite seq_modify.
  destruct (fs_stat fs p) as [e|st]; [discriminate|].
  unfold push_checkedFiles, push_checkedStats, call, record_entry. rewrite !seq_modify.
  destruct (isDirectory st).
  - unfold onDirectorySync, readdirSync. rewrite seq_modify.
    destruct (fs_readdir fs p) as [e|names]; [discriminate|].
    destruct (subtrees _ _) as [l'|] eqn:Hsub; [|discriminate].
    intros [= <-].
    assert (Hgen : forall w1, exists w',
      forEach names (fun file => onFileOrDirectorySync fs record_entry n (fullFilePath p file)) w1
        = (Returned, w') /\
      visited (trace w') = visited (trace w1) ++ l' /\
      entry_calls (trace w') = entry_calls (trace w1) ++ ((fun v => Entry v.1 v.2 None) <$> l') /\
      checkedFiles w' = checkedFiles w1 ++ l'.*1 /\
      checkedStats w' = checkedStats w1 ++ l'.*2).
    { clear w. revert l' Hsub. induction names as [|name names IHn]; intros l' Hsub w1.
      - injection Hsub as <-. exists w1. cbn. by rewrite !app_nil_r.
      - cbn in Hsub.
        destruct (subtree fs n (fullFilePath p name)) as [l1|] eqn:H1; [|discriminate].
        destruct (subtrees _ _) as [l2|] eqn:H2; [|discriminate].
        injection Hsub as <-.
        destruct (IH _ _ w1 H1) as (w2 & Hrun2 & Hv2 & Hc2 & Hf2 & Hs2).
        destruct (IHn _ eq_refl w2) as (w3 & Hrun3 & Hv3 & Hc3 & Hf3 & Hs3).
        exists w3. cbn [forEach]. rewrite (seq_returned _ _ _ _ Hrun2).
        split; [done|].
        rewrite Hv3, Hc3, Hf3, Hs3, Hv2, Hc2, Hf2, Hs2, !fmap_app, <- !app_assoc.
        done. }
    match goal with |- context [forEach _ _ ?w1] =>
      destruct (Hgen w1) as (w' & Hrun & Hv & Hc & Hf & Hs) end.
    exists w'. split; [exact Hrun|].
    rewrite Hv, Hc, Hf, Hs. world_simpl.
    rewrite !visited_app, !entry_calls_app. cbn. rewrite !app_nil_r, <- !app_assoc.
    done.
  - intros [= <-]. eexists. split; [reflexivity|]. world_simpl.
    rewrite !visited_app, !entry_calls_app. cbn. rewrite !app_nil_r.
    done.
Qed.

Lemma subtree_directory_tree fs n : forall p l,
  subtree fs n p = Some l -> directory_tree fs p.
Proof.
  induction n as [|n IH]; intros p l; [discriminate|]. cbn [subtree].
  destruct (fs_stat fs p) as [e|st] eqn:Hst; [discriminate|].
  destruct (isDirectory st) eqn:Hdir; [|intros _; by eapply tree_file].
  destruct (fs_readdir fs p) as [e|names] eqn:Hnames; [discriminate|].
  destruct (subtrees _ _) as [l'|] eqn:Hsub; [|discriminate]. intros _.
  eapply tree_directory; [done..|].
  apply subtrees_Some in Hsub as (ls & Hls & _).
  intros name Hin.
  assert (fullFilePath p name ∈ fullFilePath p <$> names) as Hin'
    by (by apply list_elem_of_fmap_2).
  apply list_elem_of_lookup in Hin' as [i Hi].
  destruct (Forall2_lookup_l _ _ _ _ _ Hls Hi) as (lq & _ & Hq).
  by eapply IH.
Qed.

(** C6: on every finite directory tree on which no [stat] and no
    [readdir] fails, the concurrent traversal and the sequential one
    visit the same entries.  The sequential call returns (with any fuel
    past the depth of the tree) after visiting the listing [L]; every
    order in which the answers of [fs] can arrive ends, after at most
    [2 * length L] answers, and once nothing is outstanding the
    per-entry callback of the concurrent call has been given a
    permutation of [L]; and some order of answers gets there. *)
Theorem concurrent_visits_what_sequential_visits fs directory :
  directory_tree fs (directory_or_default directory) ->
  exists (fuel : nat) (L : list visit),
    (forall fuel', fuel <= fuel' ->
       exists ws,
         eachFileOrDirectorySync fs fuel' directory record_entry empty_world
           = (Returned, ws) /\
         visited (trace ws) = L) /\
    (forall sched wa,
       run (eachFileOrDirectory fs directory record_entry record_complete) sched = Some wa ->
       length sched <= 2 * length L /\
       (pending wa = [] -> visited (trace wa) ≡ₚ L)) /\
    (exists sched wa,
       run (eachFileOrDirectory fs directory record_entry record_complete) sched = Some wa /\
       pending wa = []).
Proof.
  intros Htree. destruct (directory_tree_subtree _ _ Htree) as (n & L & HL).
  exists n, L. split_and!.
  - intros fuel' Hfuel. unfold eachFileOrDirectorySync. rewrite !seq_modify.
    match goal with |- context [onFileOrDirectorySync _ _ _ _ ?w1] =>
      destruct (onFileOrDirectorySync_subtree fs fuel' (directory_or_default directory) L w1)
        as (ws & Hrun & Hv & _) end.
    { by eapply subtree_more_fuel. }
    exists ws. split; [done|]. by rewrite Hv.
  - intros sched wa Hrun.
    pose proof (tree_invariant_run_from fs directory L 0 sched _ _
                  (tree_invariant_boot fs directory n L HL) Hrun) as Hinv.
    split.
    + apply tree_invariant_bound in Hinv. lia.
    + intros Hq. by destruct (tree_invariant_pending _ _ _ _ Hinv Hq) as [? _].
  - eapply (tree_invariant_finishes fs directory L (2 * length L) 0); [lia| |done].
    by eapply tree_invariant_boot.
Qed.

Lemma concurrent_visits_what_sequential_visits_on_sample :
  exists (fuel : nat) (L : list visit),
    (forall fuel', fuel <= fuel' ->
       exists ws,
         eachFileOrDirectorySync sample_fs fuel' (Some "root") record_entry empty_world
           = (Returned, ws) /\
         visited (trace ws) = L) /\
    (forall sched wa,
       run (eachFileOrDirectory sample_fs (Some "root") record_entry record_complete) sched
         = Some wa ->
       length sched <= 2 * length L /\
       (pending wa = [] -> visited (trace wa) ≡ₚ L)) /\
    (exists sched wa,
       run (eachFileOrDirectory sample_fs (Some "root") record_entry record_complete) sched
         = Some wa /\
       pending wa = []).
Proof.
  apply (concurrent_visits_what_sequential_visits sample_fs (Some "root")).
  apply (subtree_directory_tree sample_fs 3 "root"
           [("root", a_dir); ("root/a.txt", a_file); ("root/sub", a_dir);
            ("root/sub/b.txt", a_file); ("root/sub/c.log", a_file)]).
  reflexivity.
Defined.

(** ** The layers, side by side with the layer beneath *)

Lemma visited_filter_events keep t :
  visited (filter_events keep t) = filter (fun v => keep v = true) (visited t).
Proof.
  induction t as [|ev t IH]; [done|].
  unfold filter_events, visited in *. cbn [omap].
  destruct ev as [[e|file stat c]|[e|fs ss c]|op|e]; cbn; try done.
  destruct (keep (file, stat)) eqn:K; cbn; [by f_equal | done].
Qed.

Lemma filter_keep_snoc (keep : visit -> bool) (l : list visit) v :
  filter (fun v => keep v = true) (l ++ [v]) =
  filter (fun v => keep v = true) l ++ (if keep v then [v] else []).
Proof.
  rewrite filter_app, filter_cons, filter_nil.
  destruct (keep v) eqn:K; [by rewrite decide_True | by rewrite decide_False].
Qed.

Lemma is_file_pair p st : is_file (p, st) = negb (isDirectory st).
Proof. reflexivity. Qed.

Ltac refines_simpl :=
  unfold eachFile_refines, eachFileMatching_refines, same_engine in *; world_simpl;
  rewrite ?filter_events_app, ?visited_app, ?fmap_app;
  cbn [filter_events filter_event filter_complete visited omap fmap list_fmap list_omap
       fst snd app];
  rewrite ?app_nil_r.

Lemma eachFile_refines_checkComplete w1 w2 :
  eachFile_refines w1 w2 ->
  exists w1' w2',
    checkComplete record_complete w1 = (Returned, w1') /\
    checkComplete (Some (eachFile_complete record_complete)) w2 = (Returned, w2') /\
    eachFile_refines w1' w2'.
Proof.
  intros ((Hc & Hf & Hs & Hp) & Ht & Hf1 & Hs1 & Hf2 & Hs2).
  unfold checkComplete. rewrite <- Hc.
  destruct (filesToCheck w1 =? 0)%Z.
  - do 2 eexists. split; [reflexivity|]. split; [reflexivity|].
    refines_simpl. split_and!; try done.
    by rewrite Hf2, Hs2, Ht, visited_filter_events, Hf1, Hs1, zip_fst_snd.
  - exists w1, w2. by repeat split.
Qed.

Lemma eachFile_refines_step fs directory i w1 w2 :
  eachFile_refines w1 w2 ->
  both eachFile_refines
    (step (eachFileOrDirectory fs directory record_entry record_complete) i w1)
    (step (eachFile fs directory record_entry record_complete) i w2).
Proof.
  intros HR. pose proof HR as ((Hc & Hf & Hs & Hp) & Ht & Hf1 & Hs1 & Hf2 & Hs2).
  unfold step. rewrite <- Hp.
  destruct (pending w1 !! i) as [[p|p|t]|]; [| | |done]; cbn [both deliver].
  - cbn [eachFile eachFileOrDirectory preceded_by on_stat]. unfold stat_callback.
    unfold decr_filesToCheck. rewrite !seq_modify.
    destruct (fs_stat fs p) as [e|st].
    + unfold_procs. cbn. refines_simpl. split_and!; congruence.
    + unfold push_checkedFiles, push_checkedStats, call, record_entry, eachFile_handler.
      rewrite !seq_modify.
      destruct (isDirectory st) eqn:Hdir; cbn [negb].
      * unfold_procs. cbn. refines_simpl. rewrite is_file_pair, Hdir. cbn.
        rewrite app_nil_r. split_and!; congruence.
      * unfold push_ef_files, push_ef_stats, call_if_given.
        repeat (rewrite seq_assoc || rewrite seq_modify).
        match goal with
        | |- eachFile_refines (settle (checkComplete _ ?a)) (settle (checkComplete _ ?b)) =>
            destruct (eachFile_refines_checkComplete a b) as (w1' & w2' & -> & -> & HR');
            [|exact HR'] end.
        refines_simpl. rewrite is_file_pair, Hdir. cbn.
        split_and!; congruence.
  - cbn [eachFile eachFileOrDirectory preceded_by on_readdir]. unfold readdir_callback.
    unfold decr_filesToCheck. rewrite !seq_modify.
    destruct (fs_readdir fs p) as [e|names].
    + unfold_procs. cbn. refines_simpl. split_and!; congruence.
    + erewrite !seq_returned by apply forEach_onFileOrDirectory.
      match goal with
      | |- eachFile_refines (settle (checkComplete _ ?a)) (settle (checkComplete _ ?b)) =>
          destruct (eachFile_refines_checkComplete a b) as (w1' & w2' & -> & -> & HR');
          [|exact HR'] end.
      refines_simpl. split_and!; congruence.
  - cbn. refines_simpl. split_and!; congruence.
Qed.

Lemma path_matches_pair expression p st : path_matches expression (p, st) = expression p.
Proof. reflexivity. Qed.

Lemma eachFileMatching_refines_checkComplete expression w1 w2 :
  eachFileMatching_refines expression w1 w2 ->
  exists w1' w2',
    checkComplete (Some (eachFile_complete record_complete)) w1 = (Returned, w1') /\
    checkComplete
      (Some (eachFile_complete (Some (eachFileMatching_complete record_complete)))) w2
      = (Returned, w2') /\
    eachFileMatching_refines expression w1' w2'.
Proof.
  intros ((Hc & Hf & Hs & Hp) & Ht & Hf1 & Hs1 & Hf2 & Hs2 & Hm1 & Hm2).
  unfold checkComplete. rewrite <- Hc.
  destruct (filesToCheck w1 =? 0)%Z.
  - do 2 eexists. split; [reflexivity|]. split; [reflexivity|].
    refines_simpl. split_and!; try done.
    by rewrite Hm1, Hm2, Ht, visited_filter_events, Hf1, Hs1, zip_fst_snd.
  - exists w1, w2. by repeat split.
Qed.

Lemma eachFileMatching_refines_step fs expression directory i w1 w2 :
  re_global_or_sticky expression = false ->
  eachFileMatching_refines (matches expression) w1 w2 ->
  both (eachFileMatching_refines (matches expression))
    (step (eachFile fs directory record_entry record_complete) i w1)
    (step (eachFileMatching fs expression directory record_entry record_complete) i w2).
Proof.
  intros Hflags HR.
  pose proof HR as ((Hc & Hf & Hs & Hp) & Ht & Hf1 & Hs1 & Hf2 & Hs2 & Hm1 & Hm2).
  unfold step. rewrite <- Hp.
  destruct (pending w1 !! i) as [[p|p|t]|]; [| | |done]; cbn [both deliver].
  - cbn [eachFileMatching eachFile eachFileOrDirectory preceded_by on_stat].
    unfold stat_callback, decr_filesToCheck. rewrite !seq_modify.
    destruct (fs_stat fs p) as [e|st].
    + unfold_procs. cbn. refines_simpl. split_and!; congruence.
    + unfold push_checkedFiles, push_checkedStats, call, record_entry, eachFile_handler.
      rewrite !seq_modify.
      destruct (isDirectory st) eqn:Hdir; cbn [negb].
      * unfold_procs. cbn. refines_simpl. split_and!; congruence.
      * unfold push_ef_files, push_ef_stats, call_if_given, eachFileMatching_handler.
        repeat (rewrite seq_assoc || rewrite seq_modify).
        rewrite seq_test_without_flags by done.
        destruct (matches expression p) eqn:Hexp.
        -- unfold push_efm_files, push_efm_stats, call_if_given, record_entry.
           repeat (rewrite seq_assoc || rewrite seq_modify).
           match goal with
           | |- eachFileMatching_refines _ (settle (checkComplete _ ?a))
                                           (settle (checkComplete _ ?b)) =>
               destruct (eachFileMatching_refines_checkComplete (matches expression) a b)
                 as (w1' & w2' & -> & -> & HR'); [|exact HR'] end.
           refines_simpl. rewrite path_matches_pair, Hexp. cbn.
           split_and!; congruence.
        -- rewrite (seq_returned skip _ _ _ eq_refl).
           match goal with
           | |- eachFileMatching_refines _ (settle (checkComplete _ ?a))
                                           (settle (checkComplete _ ?b)) =>
               destruct (eachFileMatching_refines_checkComplete (matches expression) a b)
                 as (w1' & w2' & -> & -> & HR'); [|exact HR'] end.
           refines_simpl. rewrite path_matches_pair, Hexp. cbn. rewrite ?app_nil_r.
           split_and!; congruence.
  - cbn [eachFileMatching eachFile eachFileOrDirectory preceded_by on_readdir].
    unfold readdir_callback, decr_filesToCheck. rewrite !seq_modify.
    destruct (fs_readdir fs p) as [e|names].
    + unfold_procs. cbn. refines_simpl. split_and!; congruence.
    + erewrite !seq_returned by apply forEach_onFileOrDirectory.
      match goal with
      | |- eachFileMatching_refines _ (settle (checkComplete _ ?a))
                                      (settle (checkComplete _ ?b)) =>
          destruct (eachFileMatching_refines_checkComplete (matches expression) a b)
            as (w1' & w2' & -> & -> & HR'); [|exact HR'] end.
      refines_simpl. split_and!; congruence.
  - cbn. refines_simpl. split_and!; congruence.
Qed.

(** Two processes that have ended or not together, step by step. *)
Lemma both_run_from (R : World -> World -> Prop) (S1 S2 : Session) :
  (forall w1 w2, R w1 w2 -> ended w2 = ended w1) ->
  (forall i w1 w2, R w1 w2 -> both R (step S1 i w1) (step S2 i w2)) ->
  forall sched w1 w2, R w1 w2 -> both R (run_from S1 sched w1) (run_from S2 sched w2).
Proof.
  intros Hon Hstep. induction sched as [|i sched IH]; intros w1 w2 HR; [done|].
  cbn [run_from]. rewrite (Hon _ _ HR). destruct (ended w1); [done|].
  specialize (Hstep i w1 w2 HR).
  destruct (step S1 i w1), (step S2 i w2); try done. by apply IH.
Qed.

Lemma ended_filter_events keep w1 w2 :
  trace w2 = filter_events keep (trace w1) -> ended w2 = ended w1.
Proof.
  unfold ended. intros ->. induction (trace w1) as [|ev t IH]; [done|].
  unfold filter_events in *. cbn [omap].
  destruct ev as [[e|file stat c]|a|op|e]; cbn; try done.
  by destruct (keep (file, stat)).
Qed.

Lemma eachFile_refines_run fs directory sched :
  both eachFile_refines
    (run (eachFileOrDirectory fs directory record_entry record_complete) sched)
    (run (eachFile fs directory record_entry record_complete) sched).
Proof.
  apply both_run_from; [|apply eachFile_refines_step|].
  - intros w1 w2 (_ & Ht & _). by eapply ended_filter_events.
  - by repeat split.
Qed.

Lemma eachFileMatching_refines_run fs expression directory sched :
  re_global_or_sticky expression = false ->
  both (eachFileMatching_refines (matches expression))
    (run (eachFile fs directory record_entry record_complete) sched)
    (run (eachFileMatching fs expression directory record_entry record_complete) sched).
Proof.
  intros Hflags.
  apply both_run_from; [|intros i w1 w2; by apply eachFileMatching_refines_step|].
  - intros w1 w2 (_ & Ht & _). by eapply ended_filter_events.
  - by repeat split.
Qed.

(** *** Any pattern *)

Ltac selects_simpl :=
  unfold eachFileMatching_selects, same_engine, ended in *; world_simpl;
  rewrite ?existsb_app, ?entry_errors_app, ?visited_app;
  cbn [entry_errors visited omap list_omap existsb];
  rewrite ?app_nil_r, ?orb_false_r.

Lemma eachFileMatching_selects_checkComplete expression w1 w2 :
  eachFileMatching_selects expression w1 w2 ->
  exists w1' w2',
    checkComplete (Some (eachFile_complete record_complete)) w1 = (Returned, w1') /\
    checkComplete
      (Some (eachFile_complete (Some (eachFileMatching_complete record_complete)))) w2
      = (Returned, w2') /\
    eachFileMatching_selects expression w1' w2'.
Proof.
  intros ((Hc & Hf & Hs & Hp) & He & Hon & Hsub & Hacc).
  unfold checkComplete. rewrite <- Hc.
  destruct (filesToCheck w1 =? 0)%Z.
  - do 2 eexists. split; [reflexivity|]. split; [reflexivity|].
    selects_simpl. by split_and!.
  - exists w1, w2. by repeat split.
Qed.

Lemma eachFileMatching_selects_step fs expression directory i w1 w2 :
  eachFileMatching_selects expression w1 w2 ->
  both (eachFileMatching_selects expression)
    (step (eachFile fs directory record_entry record_complete) i w1)
    (step (eachFileMatching fs expression directory record_entry record_complete) i w2).
Proof.
  intros HR.
  pose proof HR as ((Hc & Hf & Hs & Hp) & He & Hon & Hsub & Hacc).
  unfold step. rewrite <- Hp.
  destruct (pending w1 !! i) as [[p|p|t]|]; [| | |done]; cbn [both deliver].
  - cbn [eachFileMatching eachFile eachFileOrDirectory preceded_by on_stat].
    unfold stat_callback, decr_filesToCheck. rewrite !seq_modify.
    destruct (fs_stat fs p) as [e|st].
    + unfold_procs. cbn. selects_simpl. split_and!; congruence.
    + unfold push_checkedFiles, push_checkedStats, call, record_entry, eachFile_handler.
      rewrite !seq_modify.
      destruct (isDirectory st) eqn:Hdir; cbn [negb].
      * unfold_procs. cbn. selects_simpl. split_and!; congruence.
      * unfold push_ef_files, push_ef_stats, call_if_given, eachFileMatching_handler.
        repeat (rewrite seq_assoc || rewrite seq_modify).
        match goal with |- context [seq (test expression p ?k) ?q ?w] =>
          destruct (seq_test_answers expression p k q w) as (b & w0 & -> & Hw0 & Hb) end.
        destruct b.
        -- unfold push_efm_files, push_efm_stats, call_if_given, record_entry.
           repeat (rewrite seq_assoc || rewrite seq_modify).
           match goal with
           | |- eachFileMatching_selects _ (settle (checkComplete _ ?a))
                                           (settle (checkComplete _ ?b)) =>
               destruct (eachFileMatching_selects_checkComplete expression a b)
                 as (w1' & w2' & -> & -> & HR'); [|exact HR'] end.
           destruct Hw0 as [->|[j ->]]; selects_simpl;
             (split_and!; try congruence;
              [by apply sublist_app | apply Forall_app; split; [done|]; constructor; auto]).
        -- rewrite (seq_returned skip _ _ _ eq_refl).
           match goal with
           | |- eachFileMatching_selects _ (settle (checkComplete _ ?a))
                                           (settle (checkComplete _ ?b)) =>
               destruct (eachFileMatching_selects_checkComplete expression a b)
                 as (w1' & w2' & -> & -> & HR'); [|exact HR'] end.
           destruct Hw0 as [->|[j ->]]; selects_simpl;
             (split_and!; try congruence; by apply sublist_inserts_r).
  - cbn [eachFileMatching eachFile eachFileOrDirectory preceded_by on_readdir].
    unfold readdir_callback, decr_filesToCheck. rewrite !seq_modify.
    destruct (fs_readdir fs p) as [e|names].
    + unfold_procs. cbn. selects_simpl. split_and!; congruence.
    + erewrite !seq_returned by apply forEach_onFileOrDirectory.
      match goal with
      | |- eachFileMatching_selects _ (settle (checkComplete _ ?a))
                                      (settle (checkComplete _ ?b)) =>
          destruct (eachFileMatching_selects_checkComplete expression a b)
            as (w1' & w2' & -> & -> & HR'); [|exact HR'] end.
      selects_simpl. split_and!; congruence.
  - cbn. selects_simpl. split_and!; congruence.
Qed.

Lemma eachFileMatching_selects_run fs expression directory sched :
  both (eachFileMatching_selects expression)
    (run (eachFile fs directory record_entry record_complete) sched)
    (run (eachFileMatching fs expression directory record_entry record_complete) sched).
Proof.
  apply both_run_from; [|apply eachFileMatching_selects_step|].
  - by intros w1 w2 (_ & _ & Hon & _).
  - by repeat split.
Qed.

Lemma completions_filter_events keep t :
  completions (filter_events keep t) = filter_complete keep <$> completions t.
Proof.
  induction t as [|ev t IH]; [done|].
  unfold filter_events, completions in *. cbn [omap].
  destruct ev as [[e|file stat c]|a|op|e]; cbn; try done.
  - by destruct (keep (file, stat)).
  - by f_equal.
Qed.

Lemma entry_errors_filter_events keep t :
  entry_errors (filter_events keep t) = entry_errors t.
Proof.
  induction t as [|ev t IH]; [done|].
  unfold filter_events, entry_errors in *. cbn [omap].
  destruct ev as [[e|file stat c]|a|op|e]; cbn; try done.
  - by f_equal.
  - by destruct (keep (file, stat)).
Qed.

(** A finished [eachFile] on a tree, whatever the order of the answers. *)
Lemma eachFile_on_tree fs directory n L sched w :
  subtree fs n (directory_or_default directory) = Some L ->
  run (eachFile fs directory record_entry record_complete) sched = Some w ->
  pending w = [] ->
  visited (trace w) ≡ₚ filter (fun v => is_file v = true) L /\
  entry_errors (trace w) = [] /\
  completions (trace w) = [Complete (visited (trace w)).*1 (visited (trace w)).*2 None].
Proof.
  intros HL Hrun Hq.
  pose proof (eachFile_refines_run fs directory sched) as HR. rewrite Hrun in HR.
  destruct (run (eachFileOrDirectory _ _ _ _) sched) as [wB|] eqn:HB; [|done].
  destruct HR as ((_ & _ & _ & Hp) & Ht & _).
  pose proof (tree_invariant_run_from fs directory L 0 sched _ _
                (tree_invariant_boot fs directory n L HL) HB) as Hinv.
  rewrite <- Hp in Hq.
  destruct (tree_invariant_pending _ _ _ _ Hinv Hq) as (Hv & He & Hc & _).
  rewrite Ht, visited_filter_events, entry_errors_filter_events, completions_filter_events.
  rewrite Hc, He. split_and!; [by rewrite Hv|done|].
  cbn. by rewrite zip_fst_snd.
Qed.

(** A finished [eachFileMatching] on a tree, whatever the order. *)
Lemma eachFileMatching_on_tree fs expression directory n L sched w :
  re_global_or_sticky expression = false ->
  subtree fs n (directory_or_default directory) = Some L ->
  run (eachFileMatching fs expression directory record_entry record_complete) sched = Some w ->
  pending w = [] ->
  visited (trace w) ≡ₚ
    filter (fun v => path_matches (matches expression) v = true)
      (filter (fun v => is_file v = true) L) /\
  entry_errors (trace w) = [] /\
  completions (trace w) = [Complete (visited (trace w)).*1 (visited (trace w)).*2 None].
Proof.
  intros Hflags HL Hrun Hq.
  pose proof (eachFileMatching_refines_run fs expression directory sched Hflags) as HR.
  rewrite Hrun in HR.
  destruct (run (eachFile _ _ _ _) sched) as [wE|] eqn:HE; [|done].
  destruct HR as ((_ & _ & _ & Hp) & Ht & _).
  rewrite <- Hp in Hq.
  destruct (eachFile_on_tree _ _ _ _ _ _ HL HE Hq) as (Hv & He & Hc).
  rewrite Ht, visited_filter_events, entry_errors_filter_events, completions_filter_events.
  rewrite Hc, He. split_and!; [by rewrite Hv|done|].
  cbn. by rewrite zip_fst_snd.
Qed.

(** X16: for a pattern without the [g] and the [y] flag, what
    [eachFileMatching] delivers is what [eachFile] delivers, filtered
    from outside by whether the pattern matches the full path.  After
    the same answers of [fs], in the same order, the observations of a
    caller of [eachFileMatching] are those of a caller of [eachFile]
    with the non-matching entries removed from the per-entry calls and
    from the lists given to the completion handler, on every file system
    and at every moment.  On a tree without failures this holds for
    finished traversals whatever the two orders of answers were: the
    entries delivered are the same up to order, and each completion
    handler receives once the entries its per-entry callback received. *)
Theorem eachFileMatching_filters_eachFile fs expression path :
  re_global_or_sticky expression = false ->
  (forall sched,
     both (fun w1 w2 =>
             trace w2 = filter_events (path_matches (matches expression)) (trace w1))
       (run (eachFile fs path record_entry record_complete) sched)
       (run (eachFileMatching fs expression path record_entry record_complete) sched)) /\
  (directory_tree fs (directory_or_default path) ->
   forall sched1 sched2 w1 w2,
     run (eachFile fs path record_entry record_complete) sched1 = Some w1 ->
     pending w1 = [] ->
     run (eachFileMatching fs expression path record_entry record_complete) sched2 = Some w2 ->
     pending w2 = [] ->
     visited (trace w2) ≡ₚ
       filter (fun v => path_matches (matches expression) v = true) (visited (trace w1)) /\
     completions (trace w1) = [Complete (visited (trace w1)).*1 (visited (trace w1)).*2 None] /\
     completions (trace w2) = [Complete (visited (trace w2)).*1 (visited (trace w2)).*2 None]).
Proof.
  intros Hflags. split.
  - intros sched.
    pose proof (eachFileMatching_refines_run fs expression path sched Hflags) as HR.
    destruct (run (eachFile _ _ _ _) sched), (run (eachFileMatching _ _ _ _ _) sched);
      try done.
    by destruct HR as (_ & Ht & _).
  - intros Htree sched1 sched2 w1 w2 H1 Hq1 H2 Hq2.
    destruct (directory_tree_subtree _ _ Htree) as (n & L & HL).
    destruct (eachFile_on_tree _ _ _ _ _ _ HL H1 Hq1) as (Hv1 & _ & Hc1).
    destruct (eachFileMatching_on_tree _ _ _ _ _ _ _ Hflags HL H2 Hq2) as (Hv2 & _ & Hc2).
    split_and!; [|done|done]. by rewrite Hv2, Hv1.
Qed.

(** C7 at a pattern with the [g] flag, on [r/{long-name.txt, a.txt}].
    With the answers in the order the operations were issued, [eachFile]
    delivers both files, and [/\.txt$/g] matches the path of both;
    [eachFileMatching] with that pattern delivers [r/long-name.txt]
    only, to the per-entry callback and to the completion handler: the
    test of [r/a.txt] starts at the [lastIndex] the match before it
    left, which is beyond its end.  With the probe of [r/a.txt] answered
    first, both are delivered. *)
Theorem eachFileMatching_withholds_what_a_global_pattern_matches :
  let wE := world_after
              (eachFile two_txt_fs (Some "r") record_entry record_complete)
              (in_order 4) in
  let wM := world_after
              (eachFileMatching two_txt_fs ends_in_txt_g (Some "r")
                 record_entry record_complete)
              (in_order 4) in
  let wM' := world_after
               (eachFileMatching two_txt_fs ends_in_txt_g (Some "r")
                  record_entry record_complete)
               [0; 0; 1; 0] in
  pending wE = [] /\ pending wM = [] /\ pending wM' = [] /\
  filter (fun v => path_matches (matches ends_in_txt_g) v = true) (visited (trace wE))
    = [("r/long-name.txt", a_file); ("r/a.txt", a_file)] /\
  completions (trace wE)
    = [Complete ["r/long-name.txt"; "r/a.txt"] [a_file; a_file] None] /\
  visited (trace wM) = [("r/long-name.txt", a_file)] /\
  completions (trace wM) = [Complete ["r/long-name.txt"] [a_file] None] /\
  visited (trace wM') = [("r/a.txt", a_file); ("r/long-name.txt", a_file)].
Proof. vm_compute. done. Qed.


Lemma length_entry_calls t :
  length (entry_calls t) = length (visited t) + length (entry_errors t).
Proof.
  induction t as [|ev t IH]; [done|].
  unfold entry_calls, visited, entry_errors in *.
  destruct ev as [[e|file stat c]|a|op|e]; cbn; lia.
Qed.

(** C3, as the code has it: on the tree [root/{a.txt, sub/{b.txt, c.log}}]
    a finished [eachFile] has called its per-entry callback for exactly
    the three files [root/a.txt], [root/sub/b.txt] and [root/sub/c.log],
    in an order that depends on the order of the answers, and never with
    an error; the directories [root] and [root/sub] are walked and not
    handed to the callback. *)
Theorem eachFile_on_sample_visits_the_files sched w :
  run (eachFile sample_fs (Some "root") record_entry record_complete) sched = Some w ->
  pending w = [] ->
  (visited (trace w)).*1 ≡ₚ ["root/a.txt"; "root/sub/b.txt"; "root/sub/c.log"] /\
  entry_errors (trace w) = [] /\
  length (entry_calls (trace w)) = 3.
Proof.
  intros Hrun Hq.
  destruct (eachFile_on_tree sample_fs (Some "root") 3
              [("root", a_dir); ("root/a.txt", a_file); ("root/sub", a_dir);
               ("root/sub/b.txt", a_file); ("root/sub/c.log", a_file)]
              sched w eq_refl Hrun Hq) as (Hv & He & _).
  assert (Hp : (visited (trace w)).*1 ≡ₚ ["root/a.txt"; "root/sub/b.txt"; "root/sub/c.log"]).
  { by rewrite Hv. }
  split_and!; [done|done|].
  pose proof (Permutation_length Hp) as Hlen. rewrite length_fmap in Hlen.
  by rewrite length_entry_calls, He, Hlen.
Qed.

Lemma eachFile_on_sample_visits_the_files_in_order :
  (visited (trace (world_after
     (eachFile sample_fs (Some "root") record_entry record_complete) (in_order 7)))).*1
    ≡ₚ ["root/a.txt"; "root/sub/b.txt"; "root/sub/c.log"] /\
  entry_errors (trace (world_after
     (eachFile sample_fs (Some "root") record_entry record_complete) (in_order 7))) = [] /\
  length (entry_calls (trace (world_after
     (eachFile sample_fs (Some "root") record_entry record_complete) (in_order 7)))) = 3.
Proof.
  apply (eachFile_on_sample_visits_the_files (in_order 7)
           (world_after (eachFile sample_fs (Some "root") record_entry record_complete)
              (in_order 7)));
    vm_compute; reflexivity.
Defined.

(** C3, as the description states it, fails: a finished [eachFile] on
    that tree has not been given the four entries [a.txt], [sub],
    [sub/b.txt] and [sub/c.log]; the directory [sub] is not among them. *)
Lemma eachFile_on_sample_does_not_visit_sub :
  ~ (forall sched w,
       run (eachFile sample_fs (Some "root") record_entry record_complete) sched = Some w ->
       pending w = [] ->
       (visited (trace w)).*1 ≡ₚ
         ["root/a.txt"; "root/sub"; "root/sub/b.txt"; "root/sub/c.log"]).
Proof.
  intros H.
  assert (Hrun : run (eachFile sample_fs (Some "root") record_entry record_complete)
                   (in_order 7)
                 = Some (world_after
                           (eachFile sample_fs (Some "root") record_entry record_complete)
                           (in_order 7)))
    by (vm_compute; reflexivity).
  specialize (H _ _ Hrun). clear Hrun.
  assert (Hq : pending (world_after
                          (eachFile sample_fs (Some "root") record_entry record_complete)
                          (in_order 7)) = [])
    by (vm_compute; reflexivity).
  specialize (H Hq). clear Hq.
  apply Permutation_length in H. vm_compute in H. discriminate H.
Qed.

(** ** Errors under [eachFileOrDirectory] *)

Lemma payloads_accumulated_snoc t ev :
  payloads_accumulated t ->
  (forall a, ev = EvComplete a -> a = Complete (visited t).*1 (visited t).*2 None) ->
  payloads_accumulated (t ++ [ev]).
Proof.
  intros Ht Hev t1 a t2 Heq.
  destruct t2 as [|x t2 _] using rev_ind.
  - apply app_inj_tail in Heq as [-> ->]. by apply Hev.
  - rewrite app_comm_cons, app_assoc in Heq.
    apply app_inj_tail in Heq as [-> _]. by eapply Ht.
Qed.

Lemma engine_accumulates_checkComplete w :
  engine_accumulates w ->
  exists w', checkComplete record_complete w = (Returned, w') /\
             engine_accumulates w' /\
             (w' = w \/
              w' = observe (EvComplete (Complete (checkedFiles w) (checkedStats w) None)) w).
Proof.
  intros (Hf & Hs & Hp). unfold checkComplete.
  destruct (filesToCheck w =? 0)%Z.
  - eexists. split; [reflexivity|]. split; [|by right].
    unfold engine_accumulates. world_simpl. rewrite visited_app. cbn. rewrite app_nil_r.
    split_and!; [done..|].
    apply payloads_accumulated_snoc; [done|]. intros a [= <-]. by rewrite Hf, Hs.
  - exists w. split; [done|]. split; [done | by left].
Qed.

Lemma engine_accumulates_step fs directory i w w' :
  engine_accumulates w ->
  step (eachFileOrDirectory fs directory record_entry record_complete) i w = Some w' ->
  engine_accumulates w'.
Proof.
  intros Hw. pose proof Hw as (Hf & Hs & Hp). unfold step.
  destruct (pending w !! i) as [[p|p|t]|]; [| | |done]; intros [= <-]; cbn [deliver].
  - cbn [eachFileOrDirectory on_stat]. unfold stat_callback, decr_filesToCheck.
    rewrite !seq_modify.
    destruct (fs_stat fs p) as [e|st].
    + unfold_procs. cbn. unfold engine_accumulates. world_simpl.
      rewrite visited_app. cbn. rewrite app_nil_r. split_and!; [done..|].
      by apply payloads_accumulated_snoc.
    + unfold push_checkedFiles, push_checkedStats, call, record_entry.
      rewrite !seq_modify.
      assert (Hmid : forall w1, checkedFiles w1 = checkedFiles w ++ [p] ->
                checkedStats w1 = checkedStats w ++ [st] ->
                trace w1 = trace w ++ [EvEntry (Entry p st None)] ->
                engine_accumulates w1).
      { intros w1 H1 H2 H3. unfold engine_accumulates. rewrite H1, H2, H3.
        rewrite visited_app, !fmap_app, Hf, Hs. split_and!; [done..|].
        by apply payloads_accumulated_snoc. }
      destruct (isDirectory st).
      * unfold_procs. cbn. by apply Hmid.
      * match goal with |- context [checkComplete _ ?a] =>
          destruct (engine_accumulates_checkComplete a) as (w' & -> & Hw' & _) end;
          [by apply Hmid | done].
  - cbn [eachFileOrDirectory on_readdir]. unfold readdir_callback, decr_filesToCheck.
    rewrite !seq_modify.
    destruct (fs_readdir fs p) as [e|names].
    + unfold_procs. cbn. unfold engine_accumulates. world_simpl.
      rewrite visited_app. cbn. rewrite app_nil_r. split_and!; [done..|].
      by apply payloads_accumulated_snoc.
    + erewrite !seq_returned by apply forEach_onFileOrDirectory.
      match goal with |- context [checkComplete _ ?a] =>
        destruct (engine_accumulates_checkComplete a) as (w' & -> & Hw' & _) end;
        [by repeat split | done].
  - done.
Qed.

Lemma engine_accumulates_run fs directory sched w :
  run (eachFileOrDirectory fs directory record_entry record_complete) sched = Some w ->
  engine_accumulates w.
Proof.
  unfold run.
  assert (H0 : engine_accumulates
                 (boot (eachFileOrDirectory fs directory record_entry record_complete))).
  { repeat split. intros [|? ?] a t2; discriminate. }
  revert H0. generalize (boot (eachFileOrDirectory fs directory record_entry record_complete)).
  induction sched as [|i sched IH]; intros w0 H0.
  - by intros [= <-].
  - intros Hrun. apply run_from_cons in Hrun as (_ & w1 & Hstep & Hrun).
    eapply IH; [|done]. by eapply engine_accumulates_step.
Qed.

(** C1, as the code has it: in [eachFileOrDirectory] a failing [stat] or
    [readdir] hands its error to the per-entry callback and does nothing
    else: nothing is accumulated for the path and nothing below it is
    started.  The completion handler is never given an error: at each of
    its calls it receives the entries accumulated up to then.  When the
    root itself cannot be probed, the per-entry callback is called once,
    with that error, and nothing is accumulated. *)
Theorem errors_go_to_the_entry_callback fs directory :
  (forall w i p e,
     pending w !! i = Some (OpStat p) ->
     fs_stat fs p = inl e ->
     step (eachFileOrDirectory fs directory record_entry record_complete) i w =
       Some (observe (EvEntry (EntryErr e))
               (set_filesToCheck (filesToCheck w - 1)
                  (set_pending (delete i (pending w)) w)))) /\
  (forall w i p e,
     pending w !! i = Some (OpReaddir p) ->
     fs_readdir fs p = inl e ->
     step (eachFileOrDirectory fs directory record_entry record_complete) i w =
       Some (observe (EvEntry (EntryErr e))
               (set_filesToCheck (filesToCheck w - 1)
                  (set_pending (delete i (pending w)) w)))) /\
  (forall sched w,
     run (eachFileOrDirectory fs directory record_entry record_complete) sched = Some w ->
     payloads_accumulated (trace w)) /\
  (forall e sched w,
     fs_stat fs (directory_or_default directory) = inl e ->
     run (eachFileOrDirectory fs directory record_entry record_complete) sched = Some w ->
     pending w = [] ->
     entry_calls (trace w) = [EntryErr e] /\
     checkedFiles w = [] /\ checkedStats w = []).
Proof.
  split_and!.
  - intros w i p e Hop He. unfold step. rewrite Hop. cbn [deliver eachFileOrDirectory on_stat].
    unfold stat_callback. rewrite He. reflexivity.
  - intros w i p e Hop He. unfold step. rewrite Hop.
    cbn [deliver eachFileOrDirectory on_readdir].
    unfold readdir_callback. rewrite He. reflexivity.
  - intros sched w Hrun. by destruct (engine_accumulates_run _ _ _ _ Hrun) as (_ & _ & ?).
  - intros e sched w He. unfold run, boot. cbn [start eachFileOrDirectory].
    destruct sched as [|i sched]; [by intros [= <-]|].
    intros Hrun. apply run_from_cons in Hrun as (_ & w1 & Hstep & Hrun).
    destruct i as [|i]; [|done].
    unfold step in Hstep.
    cbn [lookup list_lookup pending deliver eachFileOrDirectory on_stat] in Hstep.
    cbn in Hstep. unfold stat_callback in Hstep. rewrite He in Hstep. cbn in Hstep.
    injection Hstep as <-.
    destruct sched as [|j sched]; [by injection Hrun as <-|].
    by apply run_from_cons in Hrun as (_ & w2 & Hstep & _).
Qed.

Lemma errors_go_to_the_entry_callback_on_empty_fs :
  step (eachFileOrDirectory empty_fs (Some "nope") record_entry record_complete) 0
    (set_pending [OpStat "nope"] empty_world)
    = Some (observe (EvEntry (EntryErr "ENOENT: nope"))
              (set_filesToCheck (-1) empty_world)) /\
  step (eachFileOrDirectory empty_fs (Some "nope") record_entry record_complete) 0
    (set_pending [OpReaddir "nope"] empty_world)
    = Some (observe (EvEntry (EntryErr "ENOENT: nope"))
              (set_filesToCheck (-1) empty_world)) /\
  payloads_accumulated
    (trace (world_after
              (eachFileOrDirectory empty_fs (Some "nope") record_entry record_complete) [0])) /\
  entry_calls
    (trace (world_after
              (eachFileOrDirectory empty_fs (Some "nope") record_entry record_complete) [0]))
    = [EntryErr "ENOENT: nope"] /\
  checkedFiles
    (world_after (eachFileOrDirectory empty_fs (Some "nope") record_entry record_complete) [0])
    = [] /\
  checkedStats
    (world_after (eachFileOrDirectory empty_fs (Some "nope") record_entry record_complete) [0])
    = [].
Proof.
  destruct (errors_go_to_the_entry_callback empty_fs (Some "nope")) as (H1 & H2 & H3 & H4).
  assert (Hrun : run (eachFileOrDirectory empty_fs (Some "nope") record_entry record_complete)
                   [0]
                 = Some (world_after
                           (eachFileOrDirectory empty_fs (Some "nope")
                              record_entry record_complete) [0]))
    by (vm_compute; reflexivity).
  assert (Hq : pending (world_after
                          (eachFileOrDirectory empty_fs (Some "nope")
                             record_entry record_complete) [0]) = [])
    by (vm_compute; reflexivity).
  assert (He : fs_stat empty_fs (directory_or_default (Some "nope")) = inl "ENOENT: nope")
    by (vm_compute; reflexivity).
  split_and!.
  - rewrite (H1 (set_pending [OpStat "nope"] empty_world) 0 "nope" "ENOENT: nope");
      vm_compute; reflexivity.
  - rewrite (H2 (set_pending [OpReaddir "nope"] empty_world) 0 "nope" "ENOENT: nope");
      vm_compute; reflexivity.
  - exact (H3 [0] _ Hrun).
  - exact (proj1 (H4 _ _ _ He Hrun Hq)).
  - exact (proj1 (proj2 (H4 _ _ _ He Hrun Hq))).
  - exact (proj2 (proj2 (H4 _ _ _ He Hrun Hq))).
Defined.

(** C1, as the description states it, fails when the root does not
    exist: the traversal comes to rest with the error handed to the
    per-entry callback, and no completion handler has received it. *)
Lemma completion_never_receives_the_error :
  ~ (forall sched w e,
       run (eachFileOrDirectory empty_fs (Some "nope") record_entry record_complete) sched
         = Some w ->
       pending w = [] ->
       e ∈ entry_errors (trace w) ->
       CompleteErr e ∈ completions (trace w)).
Proof.
  intros H.
  assert (Hrun : run (eachFileOrDirectory empty_fs (Some "nope") record_entry record_complete)
                   [0]
                 = Some (world_after
                           (eachFileOrDirectory empty_fs (Some "nope")
                              record_entry record_complete) [0]))
    by (vm_compute; reflexivity).
  specialize (H _ _ "ENOENT: nope" Hrun). clear Hrun.
  vm_compute in H.
  specialize (H eq_refl (list_elem_of_here _ _)).
  inversion H.
Qed.

Lemma eachFileMatching_filters_eachFile_on_sample :
  both (fun w1 w2 =>
          trace w2 = filter_events (path_matches (matches ends_in_txt)) (trace w1))
    (run (eachFile sample_fs (Some "root") record_entry record_complete) (in_order 7))
    (run (eachFileMatching sample_fs ends_in_txt (Some "root") record_entry record_complete)
       (in_order 7)) /\
  visited (trace (world_after
     (eachFileMatching sample_fs ends_in_txt (Some "root") record_entry record_complete)
     [0; 0; 1; 1; 2; 1; 0]))
    ≡ₚ filter (fun v => path_matches (matches ends_in_txt) v = true)
         (visited (trace (world_after
            (eachFile sample_fs (Some "root") record_entry record_complete) (in_order 7)))).
Proof.
  destruct (eachFileMatching_filters_eachFile sample_fs ends_in_txt (Some "root") eq_refl)
    as [Hsame Hany].
  split; [apply Hsame|].
  refine (proj1 (Hany _ (in_order 7) [0; 0; 1; 1; 2; 1; 0] _ _ _ _ _ _)).
  - apply (subtree_directory_tree sample_fs 3 "root"
             [("root", a_dir); ("root/a.txt", a_file); ("root/sub", a_dir);
              ("root/sub/b.txt", a_file); ("root/sub/c.log", a_file)]).
    vm_compute; reflexivity.
  - vm_compute; reflexivity.
  - vm_compute; reflexivity.
  - vm_compute; reflexivity.
  - vm_compute; reflexivity.
Defined.

(** ** Where the code departs from its description *)

(** C2 at a root that does not exist: whatever [fs] does, the completion
    handler of [eachFileOrDirectory] is never called; the one answer
    there is leaves the counter at zero, nothing outstanding, and the
    error with the per-entry callback. *)
Theorem completion_never_fires_for_a_missing_root :
  (forall sched,
     match run (eachFileOrDirectory empty_fs (Some "nope") record_entry record_complete) sched
     with
     | Some w => completions (trace w) = []
     | None => True
     end) /\
  match run (eachFileOrDirectory empty_fs (Some "nope") record_entry record_complete) [0] with
  | Some w =>
      pending w = [] /\ filesToCheck w = 0%Z /\
      trace w = [EvEntry (EntryErr "ENOENT: nope")]
  | None => False
  end.
Proof.
  split.
  - intros [|[|i] [|j sched]]; vm_compute; done.
  - vm_compute. done.
Qed.

(** Whether the completion handler is called at all depends on which
    answer arrives last.  On [racy_fs] the probe of [root/gone] fails.
    If it is answered before the probe of [root/a.txt], the completion
    handler is called, with no error and the two entries probed with
    success; if it is answered after, the completion handler is never
    called. *)
Lemma completion_depends_on_the_order_of_answers :
  (let w := world_after
              (eachFileOrDirectory racy_fs (Some "root") record_entry record_complete)
              [0; 0; 0; 0] in
   pending w = [] /\
   entry_errors (trace w) = ["ENOENT: root/gone"] /\
   completions (trace w) = [Complete ["root"; "root/a.txt"] [a_dir; a_file] None]) /\
  (let w := world_after
              (eachFileOrDirectory racy_fs (Some "root") record_entry record_complete)
              [0; 0; 1; 0] in
   pending w = [] /\ filesToCheck w = 0%Z /\
   entry_errors (trace w) = ["ENOENT: root/gone"] /\
   completions (trace w) = []).
Proof. vm_compute. done. Qed.

(** X7: the layers under the reader hand on every error of the layer
    beneath: after the same answers, the callers of [eachFileOrDirectory],
    [eachFile] and [eachFileMatching] have been given the same errors. *)
Lemma filter_layers_forward_errors fs expression path sched :
  both (fun w1 w2 => entry_errors (trace w2) = entry_errors (trace w1))
    (run (eachFileOrDirectory fs path record_entry record_complete) sched)
    (run (eachFile fs path record_entry record_complete) sched) /\
  both (fun w1 w2 => entry_errors (trace w2) = entry_errors (trace w1))
    (run (eachFile fs path record_entry record_complete) sched)
    (run (eachFileMatching fs expression path record_entry record_complete) sched).
Proof.
  pose proof (eachFile_refines_run fs path sched) as H1.
  pose proof (eachFileMatching_selects_run fs expression path sched) as H2.
  split.
  - destruct (run (eachFileOrDirectory _ _ _ _) sched), (run (eachFile _ _ _ _) sched);
      try done.
    cbn [both] in *. destruct H1 as (_ & Ht & _). rewrite Ht.
    apply entry_errors_filter_events.
  - destruct (run (eachFile _ _ _ _) sched), (run (eachFileMatching _ _ _ _ _) sched);
      try done.
    cbn [both] in *. by destruct H2 as (_ & He & _).
Qed.

(** C4 at a root that does not exist.  [eachFileMatching] hands the
    error of the probe to its caller.  [readEachFileMatching] does not:
    its per-entry function reads the [undefined] file instead.  On a host
    that refuses that call, the caller's callback is never called and the
    refusal leaves the callback of [stat] as an exception; on a host that
    answers through the callback, the caller is given that answer.  The
    error of the probe reaches the caller in neither case. *)
Theorem readEachFileMatching_loses_the_probe_error :
  entry_calls (trace (world_after
    (eachFileMatching empty_fs ends_in_txt (Some "nope") record_entry record_complete) [0]))
    = [EntryErr "ENOENT: nope"] /\
  (forall sched,
     match run (readEachFileMatching empty_fs ends_in_txt (Some "nope")
                  record_entry record_complete) sched with
     | Some w => entry_calls (trace w) = []
     | None => True
     end) /\
  trace (world_after
    (readEachFileMatching empty_fs ends_in_txt (Some "nope") record_entry record_complete) [0])
    = [EvUncaught "TypeError: path must be a string"] /\
  (forall sched,
     match run (readEachFileMatching empty_fs_late ends_in_txt (Some "nope")
                  record_entry record_complete) sched with
     | Some w =>
         Forall (fun a => a = EntryErr "TypeError: path must be a string")
           (entry_calls (trace w))
     | None => True
     end) /\
  trace (world_after
    (readEachFileMatching empty_fs_late ends_in_txt (Some "nope") record_entry record_complete)
    [0; 0])
    = [EvEntry (EntryErr "TypeError: path must be a string")].
Proof.
  split_and!.
  - vm_compute. done.
  - intros [|[|i] [|j sched]]; vm_compute; done.
  - vm_compute. done.
  - intros [|[|i] [|[|j] [|k sched]]]; vm_compute; repeat constructor.
  - vm_compute. done.
Qed.

(** C5 on a lone file that matches.  The answer to the probe makes
    [readEachFileMatching] ask for the content and, in the same turn,
    call the completion handler: with no error, empty lists and the read
    still outstanding.  No order of answers gives the completion handler
    anything else; the content arrives at the per-entry callback after
    completion.  When the file cannot be read, completion has reported
    success with empty lists all the same. *)
Theorem readEachFileMatching_completes_before_the_reads :
  (let w := world_after
              (readEachFileMatching one_file_fs ends_in_txt (Some "a.txt")
                 record_entry record_complete) [0] in
   trace w = [EvComplete (Complete [] [] (Some []))] /\
   pending w = [OpReadFile (Some ("a.txt", a_file))]) /\
  (forall sched,
     match run (readEachFileMatching one_file_fs ends_in_txt (Some "a.txt")
                  record_entry record_complete) sched with
     | Some w =>
         Forall (fun a => a = Complete [] [] (Some [])) (completions (trace w))
     | None => True
     end) /\
  trace (world_after
           (readEachFileMatching one_file_fs ends_in_txt (Some "a.txt")
              record_entry record_complete) [0; 0])
    = [EvComplete (Complete [] [] (Some []));
       EvEntry (Entry "a.txt" a_file (Some [Byte.x61]))] /\
  trace (world_after
           (readEachFileMatching locked_fs ends_in_txt (Some "a.txt")
              record_entry record_complete) [0; 0])
    = [EvComplete (Complete [] [] (Some []));
       EvEntry (EntryErr "EACCES: a.txt")].
Proof.
  split_and!.
  - vm_compute. done.
  - intros [|[|i] [|[|j] [|k sched]]]; vm_compute; repeat constructor.
  - vm_compute. done.
  - vm_compute. done.
Qed.

(** ** Failures in the synchronous functions *)

Section Careful.
Variable fs : FileSystem.

Lemma careful_skip : careful fs skip.
Proof. intros w Hw. exact Hw. Qed.

Lemma careful_diverge : careful fs diverge.
Proof. intros w Hw. exact Hw. Qed.

Lemma careful_modify f :
  (forall w, trace (f w) = trace w) -> careful fs (modify f).
Proof. intros Hf w Hw. unfold stops_at_failure, modify; cbn. by rewrite Hf. Qed.

Lemma careful_observe ev :
  failing_call fs ev = None -> careful fs (modify (observe ev)).
Proof.
  intros Hev w Hw. unfold stops_at_failure, modify; cbn.
  apply Forall_app. split; [done|]. by constructor.
Qed.

Lemma careful_seq p q : careful fs p -> careful fs q -> careful fs (p ;; q).
Proof.
  intros Hp Hq w Hw. specialize (Hp w Hw). unfold seq.
  destruct (p w) as [[| e |] w1]; [|done..]. by apply Hq.
Qed.

Lemma careful_forEach {A} (l : list A) f :
  (forall x, careful fs (f x)) -> careful fs (forEach l f).
Proof.
  intros Hf. induction l as [|x l IH]; cbn [forEach].
  - apply careful_skip.
  - by apply careful_seq.
Qed.

Lemma careful_call_fs op (k : Proc) :
  (fails fs op = None -> careful fs k) ->
  (forall e, fails fs op = Some e -> k = throw e) ->
  careful fs (modify (observe (EvCall op)) ;; k).
Proof.
  intros Hok Herr w Hw. rewrite seq_modify.
  destruct (fails fs op) as [e|] eqn:Hop.
  - rewrite (Herr e eq_refl). unfold stops_at_failure, throw; cbn.
    exists (trace w), (EvCall op). by repeat split.
  - apply (Hok eq_refl). cbn. apply Forall_app. split; [done|]. by constructor.
Qed.

Lemma careful_statSync p k :
  (forall stat, careful fs (k stat)) -> careful fs (statSync fs p k).
Proof.
  intros Hk. unfold statSync. apply careful_call_fs; cbn.
  - destruct (fs_stat fs p); [done|]. intros _. apply Hk.
  - destruct (fs_stat fs p); [by intros ? [= ->] | done].
Qed.

Lemma careful_readdirSync p k :
  (forall files, careful fs (k files)) -> careful fs (readdirSync fs p k).
Proof.
  intros Hk. unfold readdirSync. apply careful_call_fs; cbn.
  - destruct (fs_readdir fs p); [done|]. intros _. apply Hk.
  - destruct (fs_readdir fs p); [by intros ? [= ->] | done].
Qed.

Lemma careful_readFileSync target k :
  (forall file stat content, careful fs (k file stat content)) ->
  careful fs (readFileSync fs target k).
Proof.
  intros Hk. unfold readFileSync. apply careful_call_fs; cbn.
  - destruct target as [[file stat]|]; [|done].
    destruct (fs_readFile fs file); [done|]. intros _. apply Hk.
  - destruct target as [[file stat]|]; [|by intros ? [= ->]].
    destruct (fs_readFile fs file); [by intros ? [= ->] | done].
Qed.

Lemma careful_record_entry a : careful fs (call record_entry a).
Proof. by apply careful_observe. Qed.

Lemma careful_eachFile_handler h a :
  (forall a, careful fs (h a)) -> careful fs (eachFile_handler (Some h) a).
Proof.
  intros Hh. destruct a as [e|file stat c]; cbn; [apply Hh|].
  destruct (isDirectory stat); cbn; [apply careful_skip|].
  repeat apply careful_seq; [by apply careful_modify..|apply Hh].
Qed.

Lemma careful_test expression s k :
  (forall b, careful fs (k b)) -> careful fs (test expression s k).
Proof.
  intros Hk w Hw.
  destruct (test_answers expression s k w) as (b & w0 & -> & Hw0 & _).
  apply Hk. by destruct Hw0 as [->|[j ->]].
Qed.

Lemma careful_eachFileMatching_handler expression h a :
  (forall a, careful fs (h a)) ->
  careful fs (eachFileMatching_handler expression (Some h) a).
Proof.
  intros Hh. destruct a as [e|file stat c]; cbn; [apply Hh|].
  apply careful_test. intros [|]; [|apply careful_skip].
  repeat apply careful_seq; [by apply careful_modify..|apply Hh].
Qed.

Lemma careful_readEachFileMatchingSync_handler h a :
  (forall a, careful fs (h a)) ->
  careful fs (readEachFileMatchingSync_handler fs (Some h) a).
Proof.
  intros Hh. unfold readEachFileMatchingSync_handler.
  apply careful_readFileSync. intros file stat content.
  repeat apply careful_seq; [by apply careful_modify..|apply Hh].
Qed.

Lemma careful_onFileOrDirectorySync h fuel :
  (forall a, careful fs (h a)) ->
  forall p, careful fs (onFileOrDirectorySync fs (Some h) fuel p).
Proof.
  intros Hh. induction fuel as [|fuel IH]; intros p; cbn [onFileOrDirectorySync].
  - apply careful_diverge.
  - apply careful_statSync. intros stat.
    repeat apply careful_seq; [by apply careful_modify..|apply Hh|].
    destruct (isDirectory stat); [|apply careful_skip].
    unfold onDirectorySync. apply careful_readdirSync. intros files.
    apply careful_forEach. intros file. apply IH.
Qed.

Lemma careful_aborts p : careful fs p -> aborts_at_first_failure fs p.
Proof.
  intros Hp o w Hrun. specialize (Hp empty_world (Forall_nil_2 _)).
  rewrite Hrun in Hp. unfold stops_at_failure in Hp; cbn [fst snd] in Hp. split.
  - intros t1 ev t2 e Ht Hev.
    assert (Hnot : forall t2', ~ no_failure fs (t1 ++ ev :: t2')).
    { intros t2' H. apply Forall_app in H as [_ H]. apply Forall_cons in H as [H _].
      congruence. }
    destruct o as [|e'|];
      [rewrite Ht in Hp; by destruct (Hnot t2)| |rewrite Ht in Hp; by destruct (Hnot t2)].
    destruct Hp as (t & ev' & Ht' & Hclean & Hev').
    rewrite Ht in Ht'.
    destruct t2 as [|x t2 _] using rev_ind.
    + apply app_inj_tail in Ht' as [-> ->]. split; [done|]. congruence.
    + rewrite app_comm_cons, app_assoc in Ht'.
      apply app_inj_tail in Ht' as [<- _]. by destruct (Hnot t2).
  - intros e ->. destruct Hp as (t & ev & Ht & _ & Hev). eauto.
Qed.
End Careful.

(** C8: in the synchronous functions a failing [statSync] or
    [readdirSync] (and, in [readEachFileMatchingSync], a failing
    [readFileSync]) ends the whole call on the spot.  In the trace of a
    call of [eachFileOrDirectorySync], [eachFileSync],
    [eachFileMatchingSync] or [readEachFileMatchingSync], a call into
    [fs] that fails is the last event: no entry is handed to the
    caller's callback after it and no sibling is probed; the call throws
    that error to its caller, and throws nothing else. *)
Theorem sequential_calls_abort_at_the_first_failure fs fuel expression path :
  aborts_at_first_failure fs (eachFileOrDirectorySync fs fuel path record_entry) /\
  aborts_at_first_failure fs (eachFileSync fs fuel path record_entry) /\
  aborts_at_first_failure fs (eachFileMatchingSync fs fuel expression path record_entry) /\
  aborts_at_first_failure fs (readEachFileMatchingSync fs fuel expression path record_entry).
Proof.
  assert (Hrec : forall a, careful fs (call record_entry a))
    by apply careful_record_entry.
  split_and!; apply careful_aborts;
    unfold readEachFileMatchingSync, eachFileMatchingSync, eachFileSync,
      eachFileOrDirectorySync;
    repeat (apply careful_seq; [by apply careful_modify|]);
    apply careful_onFileOrDirectorySync; intros a.
  - apply Hrec.
  - by apply careful_eachFile_handler.
  - apply careful_eachFile_handler. intros a'.
    by apply careful_eachFileMatching_handler.
  - apply careful_eachFile_handler. intros a'.
    apply careful_eachFileMatching_handler. intros a''.
    by apply careful_readEachFileMatchingSync_handler.
Qed.

(** On [racy_fs] the probe of the first child fails: the call throws,
    and the sibling [root/a.txt] is neither probed nor visited. *)
Lemma sequential_call_aborts_on_racy_fs :
  (@nil event = [] /\
   (eachFileOrDirectorySync racy_fs 5 (Some "root") record_entry empty_world).1
     = Thrown "ENOENT: root/gone") /\
  trace (eachFileOrDirectorySync racy_fs 5 (Some "root") record_entry empty_world).2
    = [EvCall (OpStat "root"); EvEntry (Entry "root" a_dir None);
       EvCall (OpReaddir "root"); EvCall (OpStat "root/gone")].
Proof.
  split; [|vm_compute; reflexivity].
  apply (proj1 (proj1 (sequential_calls_abort_at_the_first_failure
                         racy_fs 5 ends_in_txt (Some "root"))
                  (eachFileOrDirectorySync racy_fs 5 (Some "root") record_entry empty_world).1
                  (eachFileOrDirectorySync racy_fs 5 (Some "root") record_entry empty_world).2
                  (surjective_pairing _))
           [EvCall (OpStat "root"); EvEntry (Entry "root" a_dir None);
            EvCall (OpReaddir "root")]
           (EvCall (OpStat "root/gone")) [] "ENOENT: root/gone");
    vm_compute; reflexivity.
Defined.

(** ** Lists that belong together *)

Lemma aligned_Forall2 {A B} (R : A -> B -> Prop) xs ys :
  aligned R xs ys <-> Forall2 R xs ys.
Proof. unfold aligned. symmetry. apply Forall2_same_length_lookup. Qed.

Lemma aligned_nil {A B} (R : A -> B -> Prop) : aligned R [] [].
Proof. apply aligned_Forall2. constructor. Qed.

Lemma aligned_snoc {A B} (R : A -> B -> Prop) xs ys x y :
  aligned R xs ys -> R x y -> aligned R (xs ++ [x]) (ys ++ [y]).
Proof.
  rewrite !aligned_Forall2. intros H Hxy.
  apply Forall2_app; [done|]. by constructor.
Qed.

Ltac consistent_tac :=
  let H1 := fresh in let H2 := fresh in let H3 := fresh in let H4 := fresh in
  let H5 := fresh in let H6 := fresh in let H7 := fresh in
  intros ? (H1 & H2 & H3 & H4 & H5 & H6 & H7); unfold consistent; world_simpl;
  split_and!;
  try done;
  try (apply aligned_nil);
  try (apply aligned_snoc; done);
  try (apply Forall_app; split; [done | by constructor]).

Section Consistent.
Variable fs : FileSystem.

Lemma consistent_empty : consistent fs empty_world.
Proof. unfold consistent; cbn. split_and!; try apply aligned_nil; constructor. Qed.

Lemma keeps_skip : keeps fs skip.
Proof. by intros w Hw. Qed.

Lemma keeps_throw e : keeps fs (throw e).
Proof. by intros w Hw. Qed.

Lemma keeps_diverge : keeps fs diverge.
Proof. by intros w Hw. Qed.

Lemma keeps_seq p q : keeps fs p -> keeps fs q -> keeps fs (p ;; q).
Proof.
  intros Hp Hq w Hw. specialize (Hp w Hw). unfold seq.
  destruct (p w) as [[| |] w1]; cbn in *; [by apply Hq|done..].
Qed.

Lemma keeps_forEach {A} (l : list A) f :
  (forall x, keeps fs (f x)) -> keeps fs (forEach l f).
Proof.
  intros Hf. induction l as [|x l IH]; cbn [forEach];
    [apply keeps_skip | by apply keeps_seq].
Qed.

Lemma keeps_modify f :
  (forall w, consistent fs w -> consistent fs (f w)) -> keeps fs (modify f).
Proof. intros Hf w Hw. by apply Hf. Qed.

Lemma keeps_modify2 f g k :
  (forall w, consistent fs w -> consistent fs (g (f w))) ->
  keeps fs k -> keeps fs (modify f ;; modify g ;; k).
Proof. intros Hfg Hk w Hw. rewrite !seq_modify. by apply Hk, Hfg. Qed.

Lemma keeps_modify3 f g h k :
  (forall w, consistent fs w -> consistent fs (h (g (f w)))) ->
  keeps fs k -> keeps fs (modify f ;; modify g ;; modify h ;; k).
Proof. intros Hfgh Hk w Hw. rewrite !seq_modify. by apply Hk, Hfgh. Qed.

Lemma keeps_incr : keeps fs incr_filesToCheck.
Proof. apply keeps_modify. consistent_tac. Qed.

Lemma keeps_decr : keeps fs decr_filesToCheck.
Proof. apply keeps_modify. consistent_tac. Qed.

Lemma keeps_issue op : op_ok fs op -> keeps fs (issue op).
Proof. intros Hop. apply keeps_modify. consistent_tac. Qed.

Lemma keeps_observe ev : event_ok fs ev -> keeps fs (modify (observe ev)).
Proof. intros Hev. apply keeps_modify. consistent_tac. Qed.

Lemma keeps_push_checked file stat k :
  stat_of fs file stat -> keeps fs k ->
  keeps fs (push_checkedFiles file ;; push_checkedStats stat ;; k).
Proof. intros Hst. apply keeps_modify2. consistent_tac. Qed.

Lemma keeps_push_ef file stat k :
  stat_of fs file stat -> keeps fs k ->
  keeps fs (push_ef_files file ;; push_ef_stats stat ;; k).
Proof. intros Hst. apply keeps_modify2. consistent_tac. Qed.

Lemma keeps_push_efm file stat k :
  stat_of fs file stat -> keeps fs k ->
  keeps fs (push_efm_files file ;; push_efm_stats stat ;; k).
Proof. intros Hst. apply keeps_modify2. consistent_tac. Qed.

Lemma keeps_push_rd file stat content k :
  stat_of fs file stat -> content_of fs file content -> keeps fs k ->
  keeps fs (push_rd_files file ;; push_rd_contents content ;; push_rd_stats stat ;; k).
Proof. intros Hst Hc. apply keeps_modify3. consistent_tac. Qed.

Lemma keeps_call h a :
  entry_handler_keeps fs h -> entry_ok fs a -> keeps fs (call h a).
Proof. intros Hh Ha. destruct h as [f|]; [by eapply Hh | apply keeps_throw]. Qed.

Lemma keeps_call_if_given h a :
  entry_handler_keeps fs h -> entry_ok fs a -> keeps fs (call_if_given h a).
Proof. intros Hh Ha. destruct h as [f|]; [by eapply Hh | apply keeps_skip]. Qed.

Lemma keeps_or_NOOP h a :
  complete_handler_keeps fs h -> complete_ok fs a -> keeps fs (or_NOOP h a).
Proof. intros Hh Ha. destruct h as [f|]; [by eapply Hh | apply keeps_skip]. Qed.

Lemma keeps_record_entry : entry_handler_keeps fs record_entry.
Proof. intros f a [= <-] Ha. by apply keeps_observe. Qed.

Lemma keeps_record_complete : complete_handler_keeps fs record_complete.
Proof. intros f a [= <-] Ha. by apply keeps_observe. Qed.

Lemma keeps_eachFile_handler callback :
  entry_handler_keeps fs callback ->
  entry_handler_keeps fs (Some (eachFile_handler callback)).
Proof.
  intros Hcb f a [= <-] Ha. destruct a as [e|file stat c]; cbn.
  - by apply keeps_call.
  - assert (Hst : stat_of fs file stat) by (destruct c; [apply Ha | done]).
    destruct (isDirectory stat); cbn; [apply keeps_skip|].
    apply keeps_push_ef; [done|]. by apply keeps_call_if_given.
Qed.

Lemma keeps_eachFile_complete completeHandler :
  complete_handler_keeps fs completeHandler ->
  complete_handler_keeps fs (Some (eachFile_complete completeHandler)).
Proof.
  intros Hch f a [= <-] _. destruct a as [e|files stats contents]; cbn.
  - by apply keeps_or_NOOP.
  - intros w Hw. apply keeps_or_NOOP; [done| |done]. apply Hw.
Qed.

Lemma keeps_test expression s k :
  (forall b, keeps fs (k b)) -> keeps fs (test expression s k).
Proof.
  intros Hk w Hw.
  destruct (test_answers expression s k w) as (b & w0 & -> & Hw0 & _).
  apply Hk. by destruct Hw0 as [->|[j ->]].
Qed.

Lemma keeps_eachFileMatching_handler expression callback :
  entry_handler_keeps fs callback ->
  entry_handler_keeps fs (Some (eachFileMatching_handler expression callback)).
Proof.
  intros Hcb f a [= <-] Ha. destruct a as [e|file stat c]; cbn.
  - by apply keeps_call.
  - assert (Hst : stat_of fs file stat) by (destruct c; [apply Ha | done]).
    apply keeps_test. intros [|]; [|apply keeps_skip].
    apply keeps_push_efm; [done|]. by apply keeps_call_if_given.
Qed.

Lemma keeps_eachFileMatching_complete completeHandler :
  complete_handler_keeps fs completeHandler ->
  complete_handler_keeps fs (Some (eachFileMatching_complete completeHandler)).
Proof.
  intros Hch f a [= <-] _. destruct a as [e|files stats contents]; cbn.
  - by apply keeps_or_NOOP.
  - intros w Hw. apply keeps_or_NOOP; [done| |done]. apply Hw.
Qed.

Lemma keeps_readEachFileMatching_handler :
  entry_handler_keeps fs (Some (readEachFileMatching_handler fs)).
Proof.
  intros f a [= <-] Ha. destruct a as [e|file stat c]; cbn.
  - destruct (fs_readFile_undefined fs); [apply keeps_throw | by apply keeps_issue].
  - apply keeps_issue. cbn. destruct c; [apply Ha | done].
Qed.

Lemma keeps_readEachFileMatching_complete completeHandler :
  complete_handler_keeps fs completeHandler ->
  complete_handler_keeps fs (Some (readEachFileMatching_complete completeHandler)).
Proof.
  intros Hch f a [= <-] _. destruct a as [e|files stats contents]; cbn.
  - by apply keeps_or_NOOP.
  - intros w Hw. apply keeps_or_NOOP; [done| |done]. cbn. split; apply Hw.
Qed.

Lemma keeps_readFile_callback callback target :
  entry_handler_keeps fs callback ->
  op_ok fs (OpReadFile target) ->
  keeps fs (readFile_callback fs callback target).
Proof.
  intros Hcb Hop. unfold readFile_callback. destruct target as [[file stat]|].
  - destruct (fs_readFile fs file) as [e|content] eqn:Hc.
    + by apply keeps_call.
    + apply keeps_push_rd; [done..|]. by apply keeps_call_if_given.
  - by apply keeps_call.
Qed.

Lemma keeps_checkComplete completeHandler :
  complete_handler_keeps fs completeHandler -> keeps fs (checkComplete completeHandler).
Proof.
  intros Hch w Hw. unfold checkComplete.
  destruct (filesToCheck w =? 0)%Z; [|done].
  apply keeps_or_NOOP; [done| |done]. apply Hw.
Qed.

Lemma keeps_onFileOrDirectory p : keeps fs (onFileOrDirectory p).
Proof. apply keeps_seq; [apply keeps_incr | by apply keeps_issue]. Qed.

Lemma keeps_onDirectory p : keeps fs (onDirectory p).
Proof. apply keeps_seq; [apply keeps_incr | by apply keeps_issue]. Qed.

Lemma keeps_stat_callback fileHandler completeHandler p :
  entry_handler_keeps fs fileHandler ->
  complete_handler_keeps fs completeHandler ->
  keeps fs (stat_callback fs fileHandler completeHandler p).
Proof.
  intros Hfh Hch. unfold stat_callback. apply keeps_seq; [apply keeps_decr|].
  destruct (fs_stat fs p) as [e|stat] eqn:Hst; [by apply keeps_call|].
  apply keeps_push_checked; [done|].
  apply keeps_seq; [by apply keeps_call|].
  destruct (isDirectory stat); [apply keeps_onDirectory | by apply keeps_checkComplete].
Qed.

Lemma keeps_readdir_callback fileHandler completeHandler p :
  entry_handler_keeps fs fileHandler ->
  complete_handler_keeps fs completeHandler ->
  keeps fs (readdir_callback fs fileHandler completeHandler p).
Proof.
  intros Hfh Hch. unfold readdir_callback. apply keeps_seq; [apply keeps_decr|].
  destruct (fs_readdir fs p) as [e|files]; [by apply keeps_call|].
  apply keeps_seq; [|by apply keeps_checkComplete].
  apply keeps_forEach. intros file. apply keeps_onFileOrDirectory.
Qed.
End Consistent.

Section ConsistentSessions.
Variable fs : FileSystem.

Lemma keeps_init2 f g k :
  (forall w, consistent fs w -> consistent fs (g (f w))) ->
  keeps fs k -> keeps fs ((modify f ;; modify g) ;; k).
Proof.
  intros Hfg Hk w Hw. rewrite seq_assoc, !seq_modify. by apply Hk, Hfg.
Qed.

Lemma session_keeps_eachFileOrDirectory directory fileHandler completeHandler :
  entry_handler_keeps fs fileHandler ->
  complete_handler_keeps fs completeHandler ->
  session_keeps fs (eachFileOrDirectory fs directory fileHandler completeHandler).
Proof.
  intros Hfh Hch. split_and!; cbn.
  - apply keeps_seq; [apply keeps_modify; consistent_tac|].
    apply keeps_modify2; [consistent_tac | apply keeps_onFileOrDirectory].
  - intros p. by apply keeps_stat_callback.
  - intros p. by apply keeps_readdir_callback.
  - intros target _. apply keeps_skip.
Qed.

Lemma session_keeps_eachFile path callback completeHandler :
  entry_handler_keeps fs callback ->
  complete_handler_keeps fs completeHandler ->
  session_keeps fs (eachFile fs path callback completeHandler).
Proof.
  intros Hcb Hch.
  destruct (session_keeps_eachFileOrDirectory path
              (Some (eachFile_handler callback)) (Some (eachFile_complete completeHandler)))
    as (H1 & H2 & H3 & H4);
    [by apply keeps_eachFile_handler | by apply keeps_eachFile_complete |].
  split_and!; [|done..].
  cbn [eachFile preceded_by start]. apply keeps_init2; [consistent_tac | done].
Qed.

Lemma session_keeps_eachFileMatching expression path callback completeHandler :
  entry_handler_keeps fs callback ->
  complete_handler_keeps fs completeHandler ->
  session_keeps fs (eachFileMatching fs expression path callback completeHandler).
Proof.
  intros Hcb Hch.
  destruct (session_keeps_eachFile path
              (Some (eachFileMatching_handler expression callback))
              (Some (eachFileMatching_complete completeHandler)))
    as (H1 & H2 & H3 & H4);
    [by apply keeps_eachFileMatching_handler | by apply keeps_eachFileMatching_complete |].
  split_and!; [|done..].
  cbn [eachFileMatching preceded_by start]. apply keeps_init2; [consistent_tac | done].
Qed.

Lemma session_keeps_readEachFileMatching expression path callback completeHandler :
  entry_handler_keeps fs callback ->
  complete_handler_keeps fs completeHandler ->
  session_keeps fs (readEachFileMatching fs expression path callback completeHandler).
Proof.
  intros Hcb Hch.
  destruct (session_keeps_eachFileMatching expression path
              (Some (readEachFileMatching_handler fs))
              (Some (readEachFileMatching_complete completeHandler)))
    as (H1 & H2 & H3 & H4);
    [apply keeps_readEachFileMatching_handler
    | by apply keeps_readEachFileMatching_complete |].
  split_and!; cbn [readEachFileMatching start on_stat on_readdir on_readFile]; [|done..|].
  - apply keeps_modify3; [consistent_tac | done].
  - intros target Hop. by apply keeps_readFile_callback.
Qed.

Lemma consistent_settle r : consistent fs r.2 -> consistent fs (settle r).
Proof.
  destruct r as [[|e|] w]; cbn; [done| |done].
  revert w. consistent_tac.
Qed.

Lemma consistent_step S i w w' :
  session_keeps fs S -> consistent fs w -> step S i w = Some w' -> consistent fs w'.
Proof.
  intros (_ & Hstat & Hreaddir & Hread) Hw. unfold step.
  destruct (pending w !! i) as [op|] eqn:Hop; [|discriminate]. intros [= <-].
  apply consistent_settle.
  assert (Hop' : op_ok fs op).
  { destruct Hw as (_ & _ & _ & _ & _ & Hp & _).
    by apply (proj1 (Forall_lookup _ _) Hp i). }
  assert (Hw' : consistent fs (set_pending (delete i (pending w)) w)).
  { revert Hw. generalize w. consistent_tac. by apply Forall_delete. }
  destruct op as [p|p|target]; cbn [deliver].
  - by apply Hstat.
  - by apply Hreaddir.
  - by apply Hread.
Qed.

Lemma consistent_run S sched :
  session_keeps fs S ->
  match run S sched with Some w => consistent fs w | None => True end.
Proof.
  intros HS. unfold run.
  assert (H0 : consistent fs (boot S)).
  { apply consistent_settle. apply HS, consistent_empty. }
  revert H0. generalize (boot S).
  induction sched as [|i sched IH]; intros w Hw; cbn [run_from]; [done|].
  destruct (ended w); [done|].
  destruct (step S i w) as [w1|] eqn:Hstep; [|done].
  apply IH. by eapply consistent_step.
Qed.

Lemma keeps_statSync p k :
  (forall stat, stat_of fs p stat -> keeps fs (k stat)) -> keeps fs (statSync fs p k).
Proof.
  intros Hk. unfold statSync. apply keeps_seq; [by apply keeps_observe|].
  destruct (fs_stat fs p) as [e|stat] eqn:Hst; [apply keeps_throw | by apply Hk].
Qed.

Lemma keeps_readdirSync p k :
  (forall files, keeps fs (k files)) -> keeps fs (readdirSync fs p k).
Proof.
  intros Hk. unfold readdirSync. apply keeps_seq; [by apply keeps_observe|].
  destruct (fs_readdir fs p) as [e|files]; [apply keeps_throw | by apply Hk].
Qed.

Lemma keeps_readFileSync target k :
  (forall file stat content,
     target = Some (file, stat) -> content_of fs file content ->
     keeps fs (k file stat content)) ->
  keeps fs (readFileSync fs target k).
Proof.
  intros Hk. unfold readFileSync. apply keeps_seq; [by apply keeps_observe|].
  destruct target as [[file stat]|]; [|apply keeps_throw].
  destruct (fs_readFile fs file) as [e|content] eqn:Hc; [apply keeps_throw|].
  by apply Hk.
Qed.

Lemma keeps_onFileOrDirectorySync fileHandler fuel :
  entry_handler_keeps fs fileHandler ->
  forall p, keeps fs (onFileOrDirectorySync fs fileHandler fuel p).
Proof.
  intros Hfh. induction fuel as [|fuel IH]; intros p; cbn [onFileOrDirectorySync].
  - apply keeps_diverge.
  - apply keeps_statSync. intros stat Hst.
    apply keeps_push_checked; [done|].
    apply keeps_seq; [by apply keeps_call|].
    destruct (isDirectory stat); [|apply keeps_skip].
    unfold onDirectorySync. apply keeps_readdirSync. intros files.
    apply keeps_forEach. intros file. apply IH.
Qed.

Lemma keeps_readEachFileMatchingSync_handler callback :
  entry_handler_keeps fs callback ->
  entry_handler_keeps fs (Some (readEachFileMatchingSync_handler fs callback)).
Proof.
  intros Hcb f a [= <-] Ha. unfold readEachFileMatchingSync_handler.
  apply keeps_readFileSync. intros file stat content Ht Hc.
  assert (Hst : stat_of fs file stat).
  { destruct a as [e|file' stat' c]; [done|]. injection Ht as -> ->.
    destruct c; [apply Ha | done]. }
  apply keeps_push_rd; [done..|]. by apply keeps_call_if_given.
Qed.

Lemma keeps_eachFileOrDirectorySync fuel directory fileHandler :
  entry_handler_keeps fs fileHandler ->
  keeps fs (eachFileOrDirectorySync fs fuel directory fileHandler).
Proof.
  intros Hfh. unfold eachFileOrDirectorySync.
  apply keeps_modify2; [consistent_tac | by apply keeps_onFileOrDirectorySync].
Qed.

Lemma keeps_eachFileSync fuel path callback :
  entry_handler_keeps fs callback ->
  keeps fs (eachFileSync fs fuel path callback).
Proof.
  intros Hcb. unfold eachFileSync. apply keeps_modify2; [consistent_tac|].
  by apply keeps_eachFileOrDirectorySync, keeps_eachFile_handler.
Qed.

Lemma keeps_eachFileMatchingSync fuel expression path callback :
  entry_handler_keeps fs callback ->
  keeps fs (eachFileMatchingSync fs fuel expression path callback).
Proof.
  intros Hcb. unfold eachFileMatchingSync. apply keeps_modify2; [consistent_tac|].
  by apply keeps_eachFileSync, keeps_eachFileMatching_handler.
Qed.

Lemma keeps_readEachFileMatchingSync fuel expression path callback :
  entry_handler_keeps fs callback ->
  keeps fs (readEachFileMatchingSync fs fuel expression path callback).
Proof.
  intros Hcb. unfold readEachFileMatchingSync. apply keeps_modify3; [consistent_tac|].
  by apply keeps_eachFileMatchingSync, keeps_readEachFileMatchingSync_handler.
Qed.
End ConsistentSessions.

(** C10: in every session of every one of the eight functions, between
    any two callbacks (and when a synchronous call ends, however it
    ends), each stats list is as long as its files list and holds at
    each position the metadata the probe of the file at that position
    produced; the contents list of the reader is as long as its files
    list and holds at each position what reading that file produced;
    every call of the caller's per-entry callback carried the metadata
    (and content) of its path, and every call of a completion handler
    carried lists that correspond in this way. *)
Theorem files_stats_and_contents_stay_aligned fs expression path :
  (forall sched,
     match run (eachFileOrDirectory fs path record_entry record_complete) sched with
     | Some w => consistent fs w | None => True end) /\
  (forall sched,
     match run (eachFile fs path record_entry record_complete) sched with
     | Some w => consistent fs w | None => True end) /\
  (forall sched,
     match run (eachFileMatching fs expression path record_entry record_complete) sched with
     | Some w => consistent fs w | None => True end) /\
  (forall sched,
     match run (readEachFileMatching fs expression path record_entry record_complete) sched
     with
     | Some w => consistent fs w | None => True end) /\
  (forall fuel,
     consistent fs (eachFileOrDirectorySync fs fuel path record_entry empty_world).2) /\
  (forall fuel,
     consistent fs (eachFileSync fs fuel path record_entry empty_world).2) /\
  (forall fuel,
     consistent fs
       (eachFileMatchingSync fs fuel expression path record_entry empty_world).2) /\
  (forall fuel,
     consistent fs
       (readEachFileMatchingSync fs fuel expression path record_entry empty_world).2).
Proof.
  pose proof (keeps_record_entry fs) as He.
  pose proof (keeps_record_complete fs) as Hc.
  pose proof (consistent_empty fs) as H0.
  split_and!; intros x.
  - by apply consistent_run, session_keeps_eachFileOrDirectory.
  - by apply consistent_run, session_keeps_eachFile.
  - by apply consistent_run, session_keeps_eachFileMatching.
  - by apply consistent_run, session_keeps_readEachFileMatching.
  - by apply keeps_eachFileOrDirectorySync.
  - by apply keeps_eachFileSync.
  - by apply keeps_eachFileMatchingSync.
  - by apply keeps_readEachFileMatchingSync.
Qed.

(** ** Further properties *)

Lemma counted_checkComplete w :
  filesToCheck w = Z.of_nat (length (pending w)) ->
  Forall is_probe (pending w) ->
  completions (trace w) = [] ->
  exists w', checkComplete record_complete w = (Returned, w') /\ counted w'.
Proof.
  intros Hc Hp Hn. unfold checkComplete. rewrite Hc.
  destruct (pending w) as [|op ops] eqn:E; cbn [length].
  - eexists. split; [reflexivity|]. split_and!; world_simpl;
      [by rewrite Hc, E | by rewrite E |].
    right. split; [done|]. eauto.
  - replace (Z.of_nat (S (length ops)) =? 0)%Z with false
      by (symmetry; apply Z.eqb_neq; lia).
    exists w. split; [done|]. split_and!; [by rewrite Hc, E | by rewrite E | by left].
Qed.

Lemma counted_step fs directory i w w' :
  counted w ->
  step (eachFileOrDirectory fs directory record_entry record_complete) i w = Some w' ->
  counted w'.
Proof.
  intros (Hc & Hp & Hcompl). unfold step.
  destruct (pending w !! i) as [op|] eqn:Hop; [|discriminate]. intros [= <-].
  assert (Hn : completions (trace w) = []).
  { destruct Hcompl as [?|[Hq _]]; [done|]. by rewrite Hq in Hop. }
  assert (Hlen : length (pending w) = S (length (delete i (pending w)))).
  { rewrite length_delete by eauto. apply lookup_lt_Some in Hop. lia. }
  assert (Hd : Forall is_probe (delete i (pending w))) by (by apply Forall_delete).
  pose proof (proj1 (Forall_lookup _ _) Hp _ _ Hop) as Hprobe.
  destruct op as [p|p|t]; [| |done];
    cbn [deliver eachFileOrDirectory on_stat on_readdir on_readFile].
  - unfold stat_callback, decr_filesToCheck. rewrite !seq_modify.
    destruct (fs_stat fs p) as [e|st].
    + unfold_procs. cbn. split_and!; world_simpl; [|done|].
      * rewrite Hc, Hlen. lia.
      * left. by rewrite completions_app, Hn.
    + unfold push_checkedFiles, push_checkedStats, call, record_entry.
      rewrite !seq_modify. destruct (isDirectory st).
      * unfold_procs. cbn. split_and!; world_simpl.
        -- rewrite length_app, Hc, Hlen. cbn [length]. lia.
        -- apply Forall_app. split; [done | by constructor].
        -- left. by rewrite completions_app, Hn.
      * match goal with |- context [checkComplete _ ?a] =>
          destruct (counted_checkComplete a) as (w' & -> & Hw') end; [| | |done];
          world_simpl; [|done|].
        -- rewrite Hc, Hlen. lia.
        -- by rewrite completions_app, Hn.
  - unfold readdir_callback, decr_filesToCheck. rewrite !seq_modify.
    destruct (fs_readdir fs p) as [e|names].
    + unfold_procs. cbn. split_and!; world_simpl; [|done|].
      * rewrite Hc, Hlen. lia.
      * left. by rewrite completions_app, Hn.
    + erewrite !seq_returned by apply forEach_onFileOrDirectory.
      match goal with |- context [checkComplete _ ?a] =>
        destruct (counted_checkComplete a) as (w' & -> & Hw') end; [| | |done];
        world_simpl; [| |done].
      * rewrite length_app, length_fmap, Hc, Hlen. lia.
      * apply Forall_app. split; [done|]. by apply Forall_fmap, Forall_true.
Qed.

(** X1: In every session of [eachFileOrDirectory], on every file system and
    whatever the order of the answers: between two callbacks the counter
    [filesToCheck] is the number of operations handed to [fs] and not
    yet answered; the completion handler has been called at most once,
    and if it has, that call is the last thing that happened and nothing
    is outstanding, so no per-entry callback follows a completion. *)
Theorem counter_is_the_outstanding_work fs directory sched :
  match run (eachFileOrDirectory fs directory record_entry record_complete) sched with
  | Some w => counted w
  | None => True
  end.
Proof.
  unfold run.
  assert (H0 : counted (boot (eachFileOrDirectory fs directory record_entry record_complete))).
  { split_and!; [done|by repeat constructor|by left]. }
  revert H0. generalize (boot (eachFileOrDirectory fs directory record_entry record_complete)).
  induction sched as [|i sched IH]; intros w Hw; cbn [run_from]; [done|].
  destruct (ended w); [done|].
  destruct (step _ i w) as [w1|] eqn:Hstep; [|done].
  apply IH. by eapply counted_step.
Qed.

(** X2: On a finite directory tree on which no [stat] and no [readdir]
    fails, a session of [eachFileOrDirectory] that has come to rest has
    called the completion handler: once, as the last thing it did, with
    no error and with exactly the entries the per-entry callback was
    given, in the same order; and the per-entry callback was never given
    an error. *)
Theorem completion_fires_once_on_a_tree fs directory sched w :
  directory_tree fs (directory_or_default directory) ->
  run (eachFileOrDirectory fs directory record_entry record_complete) sched = Some w ->
  pending w = [] ->
  exists t,
    trace w = t ++ [EvComplete (Complete (visited t).*1 (visited t).*2 None)] /\
    completions t = [] /\
    entry_errors t = [].
Proof.
  intros Htree Hrun Hq.
  destruct (directory_tree_subtree _ _ Htree) as (n & L & HL).
  pose proof (tree_invariant_run_from fs directory L 0 sched _ _
                (tree_invariant_boot fs directory n L HL) Hrun) as (w0 & Hw0 & ->).
  destruct Hw0 as (plan & _ & _ & _ & _ & _ & Hf & Hs & He & Hn).
  destruct (pending w0) eqn:E; [|congruence].
  exists (trace w0). world_simpl. by rewrite Hf, Hs.
Qed.

Lemma completion_fires_once_on_the_sample_tree :
  exists t,
    trace (world_after
             (eachFileOrDirectory sample_fs (Some "root") record_entry record_complete)
             [0; 0; 1; 1; 2; 1; 0])
      = t ++ [EvComplete (Complete (visited t).*1 (visited t).*2 None)] /\
    completions t = [] /\
    entry_errors t = [].
Proof.
  apply (completion_fires_once_on_a_tree sample_fs (Some "root") [0; 0; 1; 1; 2; 1; 0]).
  - apply (subtree_directory_tree sample_fs 3 "root"
             [("root", a_dir); ("root/a.txt", a_file); ("root/sub", a_dir);
              ("root/sub/b.txt", a_file); ("root/sub/c.log", a_file)]).
    vm_compute; reflexivity.
  - vm_compute; reflexivity.
  - vm_compute; reflexivity.
Defined.

(** ** Parents before children *)

Lemma child_of_seen_mono fs seen v q :
  child_of_seen fs seen q -> child_of_seen fs (seen ++ [v]) q.
Proof.
  intros (p & st & names & name & Hin & H).
  exists p, st, names, name. split; [|done]. apply elem_of_app. by left.
Qed.

Lemma op_descends_mono fs seen v op :
  op_descends fs seen op -> op_descends fs (seen ++ [v]) op.
Proof.
  destruct op as [q|p|t]; cbn; [apply child_of_seen_mono| |done].
  intros (st & Hin & Hd). exists st. split; [|done]. apply elem_of_app. by left.
Qed.

Lemma parents_first_snoc fs root l v :
  parents_first fs root l ->
  (l = [] /\ v.1 = root) \/ child_of_seen fs l v.1 ->
  parents_first fs root (l ++ [v]).
Proof.
  intros Hl Hv l1 x l2 Heq.
  destruct l2 as [|y l2 _] using rev_ind.
  - apply app_inj_tail in Heq as [-> ->]. done.
  - rewrite app_comm_cons, app_assoc in Heq.
    apply app_inj_tail in Heq as [-> _]. by eapply Hl.
Qed.

Lemma checkComplete_keeps_entries w :
  exists w', checkComplete record_complete w = (Returned, w') /\
             pending w' = pending w /\
             visited (trace w') = visited (trace w).
Proof.
  unfold checkComplete. destruct (filesToCheck w =? 0)%Z.
  - eexists. split; [reflexivity|]. world_simpl. rewrite visited_app. cbn.
    by rewrite app_nil_r.
  - by exists w.
Qed.

Lemma descends_step fs directory i w w' :
  descends fs (directory_or_default directory) w ->
  step (eachFileOrDirectory fs directory record_entry record_complete) i w = Some w' ->
  descends fs (directory_or_default directory) w'.
Proof.
  set (root := directory_or_default directory).
  intros (Hpf & Hops). unfold step.
  destruct (pending w !! i) as [op|] eqn:Hop; [|discriminate]. intros [= <-].
  (* what the answered operation and the others stand for *)
  assert (Hthis : (visited (trace w) = [] /\ op = OpStat root /\ delete i (pending w) = []) \/
                  (op_descends fs (visited (trace w)) op /\
                   Forall (op_descends fs (visited (trace w))) (delete i (pending w)))).
  { destruct Hops as [[Hnil [Hp|Hp]]|Hall].
    - left. rewrite Hp in Hop |- *. destruct i; [|done]. by injection Hop as <-.
    - by rewrite Hp in Hop.
    - right. split; [by apply (proj1 (Forall_lookup _ _) Hall i) | by apply Forall_delete]. }
  clear Hops.
  destruct op as [p|p|t]; cbn [deliver eachFileOrDirectory on_stat on_readdir on_readFile].
  - unfold stat_callback, decr_filesToCheck. rewrite !seq_modify.
    destruct (fs_stat fs p) as [e|st].
    + unfold_procs. cbn. split; world_simpl; rewrite visited_app; cbn; rewrite app_nil_r;
        [done|].
      destruct Hthis as [(Hnil & _ & Hd)|[_ Hd]]; [left; by rewrite Hd; auto | by right].
    + unfold push_checkedFiles, push_checkedStats, call, record_entry.
      rewrite !seq_modify.
      assert (Hpf' : parents_first fs root (visited (trace w) ++ [(p, st)])).
      { apply parents_first_snoc; [done|].
        destruct Hthis as [(Hnil & [= ->] & _)|[Hd _]]; [by left | by right]. }
      assert (Hrest : Forall (op_descends fs (visited (trace w) ++ [(p, st)]))
                        (delete i (pending w))).
      { destruct Hthis as [(_ & _ & ->)|[_ Hd]]; [constructor|].
        eapply Forall_impl; [done|]. intros op. apply op_descends_mono. }
      destruct (isDirectory st) eqn:Hdir.
      * unfold_procs. cbn. split; world_simpl; rewrite visited_app; cbn; [done|].
        right. apply Forall_app. split; [done|]. constructor; [|done].
        exists st. split; [|done]. apply elem_of_app. right. by apply list_elem_of_here.
      * match goal with |- context [checkComplete _ ?a] =>
          destruct (checkComplete_keeps_entries a) as (w' & -> & Hp' & Hv') end.
        split; cbn [settle]; rewrite ?Hp', Hv'; world_simpl; rewrite visited_app; cbn;
          [done | by right].
  - unfold readdir_callback, decr_filesToCheck. rewrite !seq_modify.
    destruct Hthis as [(_ & [=] & _)|[(stp & Hin & Hdir) Hd]].
    destruct (fs_readdir fs p) as [e|names] eqn:Hnames.
    + unfold_procs. cbn. split; world_simpl; rewrite visited_app; cbn; rewrite app_nil_r;
        [done | by right].
    + erewrite !seq_returned by apply forEach_onFileOrDirectory.
      match goal with |- context [checkComplete _ ?a] =>
        destruct (checkComplete_keeps_entries a) as (w' & -> & Hp' & Hv') end.
      split; cbn [settle]; rewrite ?Hp', Hv'; world_simpl; [done|].
      right. apply Forall_app. split; [done|].
      apply Forall_fmap, Forall_forall. intros name Hname. cbn.
      by exists p, stp, names, name.
  - by destruct Hthis as [(_ & [=] & _)|[[] _]].
Qed.

(** X3: In concurrent mode too a directory is handed to the per-entry
    callback before any of its children: on every file system and in
    every order of answers, the first entry [eachFileOrDirectory] visits
    is the root, and every later one is the path of a name that the
    listing of an earlier visited directory gave, joined to that
    directory by [fullFilePath]. *)
Theorem parents_are_visited_first fs directory sched :
  match run (eachFileOrDirectory fs directory record_entry record_complete) sched with
  | Some w => parents_first fs (directory_or_default directory) (visited (trace w))
  | None => True
  end.
Proof.
  unfold run.
  assert (H0 : descends fs (directory_or_default directory)
                 (boot (eachFileOrDirectory fs directory record_entry record_complete))).
  { split; [|left; split; [done | by left]].
    intros [|? ?] v l2; discriminate. }
  revert H0. generalize (boot (eachFileOrDirectory fs directory record_entry record_complete)).
  induction sched as [|i sched IH]; intros w Hw; cbn [run_from]; [by destruct Hw|].
  destruct (ended w); [done|].
  destruct (step _ i w) as [w1|] eqn:Hstep; [|done].
  apply IH. by eapply descends_step.
Qed.

(** ** What the layers hand on *)

Lemma filter_is_file_stats (l : list visit) :
  Forall (fun v => isDirectory v.2 = false) (filter (fun v => is_file v = true) l).
Proof.
  apply Forall_forall. intros v Hv. apply list_elem_of_filter in Hv as [Hv _].
  unfold is_file in Hv. by destruct (isDirectory v.2).
Qed.

(** X6: [eachFile] is [eachFileOrDirectory] with the directories withheld:
    after the same answers, on every file system, the caller of
    [eachFile] has seen what the caller of [eachFileOrDirectory] has
    seen, errors included, except that the directories are missing from
    the per-entry calls and from the lists of the completion handler.
    So no directory ever reaches the caller of [eachFile]. *)
Theorem eachFile_withholds_directories fs path sched :
  both (fun w1 w2 => trace w2 = filter_events is_file (trace w1))
    (run (eachFileOrDirectory fs path record_entry record_complete) sched)
    (run (eachFile fs path record_entry record_complete) sched) /\
  match run (eachFile fs path record_entry record_complete) sched with
  | Some w =>
      Forall (fun v => isDirectory v.2 = false) (visited (trace w)) /\
      Forall files_only (completions (trace w))
  | None => True
  end.
Proof.
  pose proof (eachFile_refines_run fs path sched) as HR.
  destruct (run (eachFileOrDirectory _ _ _ _) sched) as [w1|],
           (run (eachFile _ _ _ _) sched) as [w2|]; try done.
  cbn [both] in *. destruct HR as (_ & Ht & _). split; [done|].
  rewrite Ht, visited_filter_events, completions_filter_events. split.
  - apply filter_is_file_stats.
  - apply Forall_fmap, Forall_forall. intros [e|files stats c] _; cbn; [done|].
    apply Forall_fmap. apply (filter_is_file_stats (zip files stats)).
Qed.

(** ** The synchronous layers, side by side *)

Section Mirrors.
Variable keep : visit -> bool.

Lemma mirrors_skip : mirrors keep skip skip.
Proof. by intros w1 w2 H. Qed.

Lemma mirrors_diverge : mirrors keep diverge diverge.
Proof. by intros w1 w2 H. Qed.

Lemma mirrors_throw e : mirrors keep (throw e) (throw e).
Proof. by intros w1 w2 H. Qed.

Lemma mirrors_seq p1 q1 p2 q2 :
  mirrors keep p1 p2 -> mirrors keep q1 q2 -> mirrors keep (p1 ;; q1) (p2 ;; q2).
Proof.
  intros Hp Hq w1 w2 H. specialize (Hp w1 w2 H). unfold seq.
  destruct (p1 w1) as [o1 w1'], (p2 w2) as [o2 w2'].
  destruct Hp as [Ho Ht]; cbn in Ho, Ht. subst o2.
  destruct o1; [by apply Hq | done..].
Qed.

Lemma mirrors_forEach {A} (l : list A) f1 f2 :
  (forall x, mirrors keep (f1 x) (f2 x)) ->
  mirrors keep (forEach l f1) (forEach l f2).
Proof.
  intros Hf. induction l as [|x l IH]; cbn [forEach];
    [apply mirrors_skip | by apply mirrors_seq].
Qed.

Lemma mirrors_quiet_left f p q :
  (forall w, trace (f w) = trace w) ->
  mirrors keep p q -> mirrors keep (modify f ;; p) q.
Proof. intros Hf Hpq w1 w2 H. rewrite seq_modify. apply Hpq. by rewrite Hf. Qed.

Lemma mirrors_quiet_right f p q :
  (forall w, trace (f w) = trace w) ->
  mirrors keep p q -> mirrors keep p (modify f ;; q).
Proof. intros Hf Hpq w1 w2 H. rewrite seq_modify. apply Hpq. by rewrite Hf. Qed.

Lemma mirrors_observe ev p q :
  filter_event keep ev = Some ev ->
  mirrors keep p q ->
  mirrors keep (modify (observe ev) ;; p) (modify (observe ev) ;; q).
Proof.
  intros Hev Hpq w1 w2 H. rewrite !seq_modify. apply Hpq. world_simpl.
  rewrite filter_events_app, H. cbn. by rewrite Hev.
Qed.

Lemma mirrors_statSync fs p k1 k2 :
  (forall stat, mirrors keep (k1 stat) (k2 stat)) ->
  mirrors keep (statSync fs p k1) (statSync fs p k2).
Proof.
  intros Hk. unfold statSync. apply mirrors_observe; [done|].
  destruct (fs_stat fs p); [apply mirrors_throw | apply Hk].
Qed.

Lemma mirrors_readdirSync fs p k1 k2 :
  (forall files, mirrors keep (k1 files) (k2 files)) ->
  mirrors keep (readdirSync fs p k1) (readdirSync fs p k2).
Proof.
  intros Hk. unfold readdirSync. apply mirrors_observe; [done|].
  destruct (fs_readdir fs p); [apply mirrors_throw | apply Hk].
Qed.

Lemma mirrors_onFileOrDirectorySync fs h1 h2 fuel :
  (forall file stat,
     mirrors keep (call h1 (Entry file stat None)) (call h2 (Entry file stat None))) ->
  forall p,
    mirrors keep (onFileOrDirectorySync fs h1 fuel p) (onFileOrDirectorySync fs h2 fuel p).
Proof.
  intros Hh. induction fuel as [|fuel IH]; intros p; cbn [onFileOrDirectorySync].
  - apply mirrors_diverge.
  - apply mirrors_statSync. intros stat.
    unfold push_checkedFiles, push_checkedStats.
    do 2 (apply mirrors_quiet_left; [done|]; apply mirrors_quiet_right; [done|]).
    apply mirrors_seq; [apply Hh|].
    destruct (isDirectory stat); [|apply mirrors_skip].
    unfold onDirectorySync. apply mirrors_readdirSync. intros files.
    apply mirrors_forEach. intros file. apply IH.
Qed.
End Mirrors.

Lemma mirrors_eachFile_handler file stat :
  mirrors is_file (call record_entry (Entry file stat None))
    (call (Some (eachFile_handler record_entry)) (Entry file stat None)).
Proof.
  intros w1 w2 H. unfold call, record_entry, eachFile_handler.
  destruct (isDirectory stat) eqn:Hdir; cbn [negb].
  - split; [done|]. unfold modify, skip. cbn [fst snd]. world_simpl.
    rewrite filter_events_app, H. cbn.
    rewrite is_file_pair, Hdir. cbn. by rewrite app_nil_r.
  - unfold_procs. cbn [fst snd]. split; [done|]. cbn [fst snd]. world_simpl.
    rewrite filter_events_app, H. cbn.
    by rewrite is_file_pair, Hdir.
Qed.

Lemma mirrors_eachFileMatching_handler expression file stat :
  re_global_or_sticky expression = false ->
  mirrors (path_matches (matches expression))
    (call (Some (eachFile_handler record_entry)) (Entry file stat None))
    (call (Some (eachFile_handler (Some (eachFileMatching_handler expression record_entry))))
       (Entry file stat None)).
Proof.
  intros Hflags w1 w2 H. unfold call, eachFile_handler.
  destruct (isDirectory stat) eqn:Hdir; cbn [negb]; [by split|].
  unfold eachFileMatching_handler, call_if_given, test. rewrite Hflags.
  destruct (matches expression file) eqn:Hexp.
  - unfold_procs. cbn [fst snd]. split; [done|]. cbn [fst snd]. world_simpl.
    rewrite filter_events_app, H. cbn.
    by rewrite path_matches_pair, Hexp.
  - unfold_procs. cbn [fst snd]. split; [done|]. cbn [fst snd]. world_simpl.
    rewrite filter_events_app, H. cbn.
    rewrite path_matches_pair, Hexp. cbn. by rewrite app_nil_r.
Qed.

Lemma eachFileSync_mirrors fs fuel path :
  alike is_file
    (eachFileOrDirectorySync fs fuel path record_entry empty_world)
    (eachFileSync fs fuel path record_entry empty_world).
Proof.
  unfold eachFileSync, eachFileOrDirectorySync.
  assert (H : mirrors is_file
    (modify (set_checkedFiles []) ;; modify (set_checkedStats []) ;;
     onFileOrDirectorySync fs record_entry fuel (directory_or_default path))
    (modify (set_ef_files []) ;; modify (set_ef_stats []) ;;
     modify (set_checkedFiles []) ;; modify (set_checkedStats []) ;;
     onFileOrDirectorySync fs (Some (eachFile_handler record_entry)) fuel
       (directory_or_default path))).
  { do 2 (apply mirrors_quiet_left; [done|]).
    do 4 (apply mirrors_quiet_right; [done|]).
    apply mirrors_onFileOrDirectorySync. apply mirrors_eachFile_handler. }
  by apply H.
Qed.

Lemma eachFileMatchingSync_mirrors fs fuel expression path :
  re_global_or_sticky expression = false ->
  alike (path_matches (matches expression))
    (eachFileSync fs fuel path record_entry empty_world)
    (eachFileMatchingSync fs fuel expression path record_entry empty_world).
Proof.
  intros Hflags.
  unfold eachFileMatchingSync, eachFileSync, eachFileOrDirectorySync.
  assert (H : mirrors (path_matches (matches expression))
    (modify (set_ef_files []) ;; modify (set_ef_stats []) ;;
     modify (set_checkedFiles []) ;; modify (set_checkedStats []) ;;
     onFileOrDirectorySync fs (Some (eachFile_handler record_entry)) fuel
       (directory_or_default path))
    (modify (set_efm_files []) ;; modify (set_efm_stats []) ;;
     modify (set_ef_files []) ;; modify (set_ef_stats []) ;;
     modify (set_checkedFiles []) ;; modify (set_checkedStats []) ;;
     onFileOrDirectorySync fs
       (Some (eachFile_handler (Some (eachFileMatching_handler expression record_entry))))
       fuel (directory_or_default path))).
  { do 4 (apply mirrors_quiet_left; [done|]).
    do 6 (apply mirrors_quiet_right; [done|]).
    apply mirrors_onFileOrDirectorySync. intros file stat.
    by apply mirrors_eachFileMatching_handler. }
  by apply H.
Qed.

(** X9: The synchronous layers filter as the asynchronous ones do, on every
    file system and whether the call returns, throws or runs forever:
    [eachFileSync] ends as [eachFileOrDirectorySync] ends (same return,
    same exception) having made the same calls into [fs] and handed its
    caller the same entries less the directories; [eachFileMatchingSync]
    with a pattern that has neither the [g] nor the [y] flag ends as
    [eachFileSync] ends having handed its caller the same entries less
    those whose path the pattern does not match. *)
Theorem sequential_layers_filter fs fuel expression path :
  alike is_file
    (eachFileOrDirectorySync fs fuel path record_entry empty_world)
    (eachFileSync fs fuel path record_entry empty_world) /\
  (re_global_or_sticky expression = false ->
   alike (path_matches (matches expression))
     (eachFileSync fs fuel path record_entry empty_world)
     (eachFileMatchingSync fs fuel expression path record_entry empty_world)).
Proof.
  split; [apply eachFileSync_mirrors | apply eachFileMatchingSync_mirrors].
Qed.

Lemma sequential_layers_filter_on_sample :
  alike is_file
    (eachFileOrDirectorySync sample_fs 5 (Some "root") record_entry empty_world)
    (eachFileSync sample_fs 5 (Some "root") record_entry empty_world) /\
  alike (path_matches (matches ends_in_txt))
    (eachFileSync sample_fs 5 (Some "root") record_entry empty_world)
    (eachFileMatchingSync sample_fs 5 ends_in_txt (Some "root") record_entry empty_world).
Proof.
  destruct (sequential_layers_filter sample_fs 5 ends_in_txt (Some "root")) as [H1 H2].
  split; [exact H1 | apply H2; reflexivity].
Defined.

(** X17: With a pattern that has the [g] flag the synchronous filter
    withholds a match as well.  On [r/{long-name.txt, a.txt}],
    [eachFileSync] hands over both files, in the order of the listing,
    and [/\.txt$/g] matches the path of both; [eachFileMatchingSync]
    with that pattern returns having handed over [r/long-name.txt]
    only, and leaves [lastIndex] at 0. *)
Theorem eachFileMatchingSync_withholds_what_a_global_pattern_matches :
  let rE := eachFileSync two_txt_fs 3 (Some "r") record_entry empty_world in
  let rM := eachFileMatchingSync two_txt_fs 3 ends_in_txt_g (Some "r") record_entry
              empty_world in
  rE.1 = Returned /\ rM.1 = Returned /\
  visited (trace rE.2) = [("r/long-name.txt", a_file); ("r/a.txt", a_file)] /\
  filter (fun v => path_matches (matches ends_in_txt_g) v = true) (visited (trace rE.2))
    = visited (trace rE.2) /\
  visited (trace rM.2) = [("r/long-name.txt", a_file)] /\
  lastIndex rM.2 = 0.
Proof. vm_compute. done. Qed.

(** X10: The filtering layers visit the same entries in both modes, for a
    pattern that has neither the [g] nor the [y] flag.  On a finite
    directory tree on which no [stat] and no [readdir] fails,
    [eachFileSync] and [eachFileMatchingSync] return (with any fuel past
    the depth of the tree), and a finished [eachFile], respectively
    [eachFileMatching], has handed its caller the same entries up to
    order, whatever the order of the answers was. *)
Theorem filter_layers_agree_across_modes fs expression path :
  re_global_or_sticky expression = false ->
  directory_tree fs (directory_or_default path) ->
  exists fuel : nat,
    forall fuel', fuel <= fuel' ->
      (exists ws,
         eachFileSync fs fuel' path record_entry empty_world = (Returned, ws) /\
         forall sched wa,
           run (eachFile fs path record_entry record_complete) sched = Some wa ->
           pending wa = [] ->
           visited (trace wa) ≡ₚ visited (trace ws)) /\
      (exists ws,
         eachFileMatchingSync fs fuel' expression path record_entry empty_world
           = (Returned, ws) /\
         forall sched wa,
           run (eachFileMatching fs expression path record_entry record_complete) sched
             = Some wa ->
           pending wa = [] ->
           visited (trace wa) ≡ₚ visited (trace ws)).
Proof.
  intros Hflags Htree. destruct (directory_tree_subtree _ _ Htree) as (n & L & HL).
  exists n. intros fuel' Hfuel.
  assert (HB : exists wB,
             eachFileOrDirectorySync fs fuel' path record_entry empty_world = (Returned, wB) /\
             visited (trace wB) = L).
  { unfold eachFileOrDirectorySync. rewrite !seq_modify.
    match goal with |- context [onFileOrDirectorySync _ _ _ _ ?w1] =>
      destruct (onFileOrDirectorySync_subtree fs fuel' (directory_or_default path) L w1)
        as (ws & Hrun & Hv & _) end.
    { by eapply subtree_more_fuel. }
    exists ws. split; [done|]. by rewrite Hv. }
  destruct HB as (wB & HrunB & HvB).
  destruct (eachFileSync_mirrors fs fuel' path) as [Ho1 Ht1].
  destruct (eachFileMatchingSync_mirrors fs fuel' expression path Hflags) as [Ho2 Ht2].
  rewrite HrunB in Ho1, Ht1. cbn [fst snd] in Ho1, Ht1.
  destruct (eachFileSync fs fuel' path record_entry empty_world) as [oE wE] eqn:HE.
  cbn [fst snd] in *. subst oE.
  destruct (eachFileMatchingSync fs fuel' expression path record_entry empty_world)
    as [oM wM] eqn:HM.
  cbn [fst snd] in *. subst oM.
  split.
  - exists wE. split; [done|]. intros sched wa Hrun Hq.
    destruct (eachFile_on_tree _ _ _ _ _ _ HL Hrun Hq) as (Hv & _).
    by rewrite Hv, Ht1, visited_filter_events, HvB.
  - exists wM. split; [done|]. intros sched wa Hrun Hq.
    destruct (eachFileMatching_on_tree _ _ _ _ _ _ _ Hflags HL Hrun Hq) as (Hv & _).
    by rewrite Hv, Ht2, Ht1, !visited_filter_events, HvB.
Qed.

Lemma filter_layers_agree_across_modes_on_sample :
  exists fuel : nat,
    forall fuel', fuel <= fuel' ->
      (exists ws,
         eachFileSync sample_fs fuel' (Some "root") record_entry empty_world
           = (Returned, ws) /\
         forall sched wa,
           run (eachFile sample_fs (Some "root") record_entry record_complete) sched
             = Some wa ->
           pending wa = [] ->
           visited (trace wa) ≡ₚ visited (trace ws)) /\
      (exists ws,
         eachFileMatchingSync sample_fs fuel' ends_in_txt (Some "root") record_entry
           empty_world = (Returned, ws) /\
         forall sched wa,
           run (eachFileMatching sample_fs ends_in_txt (Some "root")
                  record_entry record_complete) sched = Some wa ->
           pending wa = [] ->
           visited (trace wa) ≡ₚ visited (trace ws)).
Proof.
  apply (filter_layers_agree_across_modes sample_fs ends_in_txt (Some "root") eq_refl).
  apply (subtree_directory_tree sample_fs 3 "root"
           [("root", a_dir); ("root/a.txt", a_file); ("root/sub", a_dir);
            ("root/sub/b.txt", a_file); ("root/sub/c.log", a_file)]).
  vm_compute; reflexivity.
Defined.

(** ** The reader's bookkeeping *)

Lemma read_targets_app l1 l2 : read_targets (l1 ++ l2) = read_targets l1 ++ read_targets l2.
Proof. apply omap_app. Qed.

Lemma read_targets_stats (g : string -> string) (names : list string) :
  read_targets ((fun file => OpStat (g file)) <$> names) = [].
Proof. induction names as [|x names IH]; [done|]. by cbn. Qed.

Lemma read_targets_delete (ops : list Op) i op :
  ops !! i = Some op ->
  read_targets ops ≡ₚ read_targets [op] ++ read_targets (delete i ops).
Proof.
  intros H. rewrite <- read_targets_app. unfold read_targets.
  apply omap_Permutation. cbn. by apply delete_Permutation.
Qed.

Lemma reads_accounted_checkComplete fs expression w :
  reads_accounted fs expression w ->
  exists w',
    checkComplete
      (Some (eachFile_complete (Some (eachFileMatching_complete
         (Some (readEachFileMatching_complete record_complete)))))) w = (Returned, w') /\
    reads_accounted fs expression w'.
Proof.
  intros Hw. unfold checkComplete. destruct (filesToCheck w =? 0)%Z; [|by exists w].
  eexists. split; [reflexivity|].
  destruct Hw as (m & H1 & H2 & H3 & H4 & H5 & H6). exists m.
  world_simpl. rewrite visited_app. cbn. by rewrite app_nil_r.
Qed.

Lemma reads_accounted_step fs expression path i w w' :
  reads_accounted fs expression w ->
  step (readEachFileMatching fs expression path record_entry record_complete) i w = Some w' ->
  reads_accounted fs expression w'.
Proof.
  intros (m & Hf & Hs & Hm & Hrf & Hrs & Hperm). unfold step.
  destruct (pending w !! i) as [op|] eqn:Hop; [|discriminate]. intros [= <-].
  pose proof (read_targets_delete _ _ _ Hop) as Hdel.
  rewrite Hdel in Hperm. clear Hdel.
  destruct op as [p|p|t];
    cbn [deliver readEachFileMatching eachFileMatching eachFile eachFileOrDirectory
         preceded_by on_stat on_readdir on_readFile].
  - cbn in Hperm. unfold stat_callback, decr_filesToCheck. rewrite !seq_modify.
    destruct (fs_stat fs p) as [e|st].
    + unfold_procs. destruct (fs_readFile_undefined fs); cbn; exists m; world_simpl;
        rewrite ?visited_app, ?read_targets_app; cbn; rewrite ?app_nil_r; done.
    + unfold push_checkedFiles, push_checkedStats, call, eachFile_handler.
      rewrite !seq_modify.
      destruct (isDirectory st) eqn:Hdir; cbn [negb].
      * unfold_procs. cbn. exists m. world_simpl.
        rewrite read_targets_app. cbn. by rewrite app_nil_r.
      * unfold push_ef_files, push_ef_stats, call_if_given, eachFileMatching_handler.
        repeat (rewrite seq_assoc || rewrite seq_modify).
        match goal with |- context [seq (test expression p ?k) ?q ?w] =>
          destruct (seq_test_answers expression p k q w) as (b & w0 & -> & Hw0 & Hb) end.
        destruct b.
        -- unfold push_efm_files, push_efm_stats, call_if_given,
             readEachFileMatching_handler, issue.
           repeat (rewrite seq_assoc || rewrite seq_modify).
           match goal with |- context [checkComplete _ ?a] =>
             destruct (reads_accounted_checkComplete fs expression a) as (w' & -> & Hw') end;
             [|done].
           specialize (Hb eq_refl).
           destruct Hw0 as [->|[j ->]]; exists (m ++ [(p, st)]); world_simpl;
             rewrite !fmap_app, Hf, Hs, read_targets_app, !filter_app;
             cbn [fmap list_fmap fst snd read_targets omap list_omap];
             (split_and!; try done;
              [ apply Forall_app; split; [done|]; by constructor
              | rewrite Hperm; by rewrite app_assoc ]).
        -- rewrite (seq_returned skip _ _ _ eq_refl).
           match goal with |- context [checkComplete _ ?a] =>
             destruct (reads_accounted_checkComplete fs expression a) as (w' & -> & Hw') end;
             [|done].
           destruct Hw0 as [->|[j ->]]; by exists m.
  - cbn in Hperm. unfold readdir_callback, decr_filesToCheck. rewrite !seq_modify.
    destruct (fs_readdir fs p) as [e|names].
    + unfold_procs. destruct (fs_readFile_undefined fs); cbn; exists m; world_simpl;
        rewrite ?visited_app, ?read_targets_app; cbn; rewrite ?app_nil_r; done.
    + erewrite !seq_returned by apply forEach_onFileOrDirectory.
      match goal with |- context [checkComplete _ ?a] =>
        destruct (reads_accounted_checkComplete fs expression a) as (w' & -> & Hw') end;
        [|done].
      exists m. world_simpl.
      rewrite read_targets_app, read_targets_stats. by rewrite app_nil_r.
  - unfold readFile_callback. destruct t as [[file stat]|].
    + cbn in Hperm.
      assert (Hr : readable fs (file, stat) =
                   match fs_readFile fs file with inr _ => true | inl _ => false end)
        by reflexivity.
      rewrite Hr in Hperm. clear Hr.
      destruct (fs_readFile fs file) as [e|content].
      * cbn in Hperm.
        unfold_procs. cbn. exists m. world_simpl.
        rewrite visited_app. cbn. by rewrite !app_nil_r.
      * cbn in Hperm.
        unfold_procs. cbn. exists m. world_simpl.
        rewrite visited_app, !fmap_app, Hrf, Hrs. cbn. split_and!; try done.
        rewrite Hperm, <- app_assoc. apply Permutation_app_head. cbn.
        done.
    + cbn in Hperm. unfold_procs. cbn. exists m. world_simpl.
      rewrite visited_app. cbn. by rewrite app_nil_r.
Qed.

(** X11: The reader reads each matched file once.  In every session of
    [readEachFileMatching], on every file system and in every order of
    answers, the files handed to the caller's callback together with the
    files whose read is outstanding are, each once, the matched files
    that can be read; so once nothing is outstanding, the caller has
    been handed exactly the readable matched files.  Every matched file
    is a non-directory whose full path the pattern matches. *)
Theorem reader_reads_each_match_once fs expression path sched :
  match run (readEachFileMatching fs expression path record_entry record_complete) sched
  with
  | Some w => reads_accounted fs expression w
  | None => True
  end.
Proof.
  unfold run.
  assert (H0 : reads_accounted fs expression
                 (boot (readEachFileMatching fs expression path record_entry record_complete))).
  { exists []. by repeat split. }
  revert H0.
  generalize (boot (readEachFileMatching fs expression path record_entry record_complete)).
  induction sched as [|i sched IH]; intros w Hw; cbn [run_from]; [done|].
  destruct (ended w); [done|].
  destruct (step _ i w) as [w1|] eqn:Hstep; [|done].
  apply IH. by eapply reads_accounted_step.
Qed.

(** ** Callbacks left out *)

(** X12: [eachFileOrDirectory] calls [fileHandler] without testing it, in
    the error branch and in the success branch alike.  Called without a
    per-entry function (as the second example of its own comment does),
    it gets no further than the root on any file system: the answer to
    the probe of the root throws a TypeError out of the callback of
    [stat]; nothing is listed, nothing else is probed, and the completion
    handler, whatever it is, is never called. *)
Theorem eachFileOrDirectory_needs_fileHandler fs directory completeHandler sched :
  match run (eachFileOrDirectory fs directory None completeHandler) sched with
  | Some w =>
      match sched with
      | [] => trace w = [] /\ pending w = [OpStat (directory_or_default directory)]
      | _ :: _ => trace w = [EvUncaught not_a_function] /\ pending w = []
      end
  | None => True
  end.
Proof.
  unfold run, boot. cbn [start eachFileOrDirectory].
  destruct sched as [|[|i] sched]; cbn [run_from]; [done| |done].
  unfold step; cbn. unfold stat_callback.
  destruct (fs_stat fs (directory_or_default directory)) as [e|st]; cbn;
    by destruct sched.
Qed.

Lemma callback_omitted_checkComplete w1 w2 :
  callback_omitted w1 w2 ->
  exists w1' w2',
    checkComplete (Some (eachFile_complete record_complete)) w1 = (Returned, w1') /\
    checkComplete (Some (eachFile_complete record_complete)) w2 = (Returned, w2') /\
    callback_omitted w1' w2' /\
    exists t, trace w1' = trace w1 ++ t /\ entry_errors t = [].
Proof.
  intros ((Hc & Hf & Hs & Hp) & Hef & Hes & Ht & Hon).
  unfold checkComplete. rewrite <- Hc.
  destruct (filesToCheck w1 =? 0)%Z.
  - do 2 eexists. split; [reflexivity|]. split; [reflexivity|]. split.
    + unfold callback_omitted, same_engine, ended in *. world_simpl.
      rewrite omap_app, existsb_app, Ht, Hef, Hes, Hon. by cbn.
    + eexists. split; [reflexivity|done].
  - exists w1, w2. split_and!; [done..|]. exists []. by rewrite app_nil_r.
Qed.

Ltac omitted_simpl :=
  unfold callback_omitted, same_engine, ended in *; world_simpl;
  rewrite ?omap_app, ?existsb_app;
  cbn [omap list_omap without_callback existsb];
  rewrite ?app_nil_r, ?orb_false_r.

(** One answer to both calls: they stay related, and the call with a
    callback is handed an error and nothing else, or no error. *)
Lemma callback_omitted_step fs path i w1 w2 :
  callback_omitted w1 w2 ->
  match step (eachFile fs path record_entry record_complete) i w1,
        step (eachFile fs path None record_complete) i w2 with
  | Some w1', Some w2' =>
      callback_omitted w1' w2' /\
      exists t, trace w1' = trace w1 ++ t /\
                (entry_errors t = [] \/ exists e, t = [EvEntry (EntryErr e)])
  | None, None => True
  | _, _ => False
  end.
Proof.
  intros HR. pose proof HR as ((Hc & Hf & Hs & Hp) & Hef & Hes & Ht & Hon).
  unfold step. rewrite <- Hp.
  destruct (pending w1 !! i) as [[p|p|t]|]; [| | |done]; cbn [deliver].
  - cbn [eachFile eachFileOrDirectory preceded_by on_stat].
    unfold stat_callback, decr_filesToCheck. rewrite !seq_modify.
    destruct (fs_stat fs p) as [e|st].
    + unfold_procs. cbn. split.
      * omitted_simpl. rewrite Ht, Hon. split_and!; congruence.
      * world_simpl. eexists. split; [reflexivity|]. right. by exists e.
    + unfold push_checkedFiles, push_checkedStats, call, record_entry, eachFile_handler.
      rewrite !seq_modify.
      destruct (isDirectory st) eqn:Hdir; cbn [negb].
      * unfold_procs. cbn. split.
        -- omitted_simpl. split_and!; congruence.
        -- world_simpl. exists []. rewrite app_nil_r. by split; [|left].
      * unfold push_ef_files, push_ef_stats, call_if_given.
        repeat (rewrite seq_assoc || rewrite seq_modify).
        rewrite (seq_returned skip _ _ _ eq_refl).
        match goal with
        | |- callback_omitted (settle (checkComplete _ ?a)) (settle (checkComplete _ ?b)) /\ _ =>
            destruct (callback_omitted_checkComplete a b)
              as (w1' & w2' & -> & -> & HR' & tc & Htc & Hec) end.
        { omitted_simpl. rewrite Ht, Hon. split_and!; congruence. }
        split; [exact HR'|]. unfold settle. rewrite Htc. world_simpl.
        eexists. rewrite <- app_assoc. split; [reflexivity|]. left.
        rewrite entry_errors_app. by rewrite Hec.
  - cbn [eachFile eachFileOrDirectory preceded_by on_readdir].
    unfold readdir_callback, decr_filesToCheck. rewrite !seq_modify.
    destruct (fs_readdir fs p) as [e|names].
    + unfold_procs. cbn. split.
      * omitted_simpl. rewrite Ht, Hon. split_and!; congruence.
      * world_simpl. eexists. split; [reflexivity|]. right. by exists e.
    + erewrite !seq_returned by apply forEach_onFileOrDirectory.
      match goal with
      | |- callback_omitted (settle (checkComplete _ ?a)) (settle (checkComplete _ ?b)) /\ _ =>
          destruct (callback_omitted_checkComplete a b)
            as (w1' & w2' & -> & -> & HR' & tc & Htc & Hec) end.
      { omitted_simpl. split_and!; congruence. }
      split; [exact HR'|]. unfold settle. rewrite Htc. world_simpl.
      exists tc. split; [done|]. by left.
  - cbn. split.
    + omitted_simpl. split_and!; congruence.
    + world_simpl. exists []. rewrite app_nil_r. by split; [|left].
Qed.

(** The call without a callback has ended exactly if an error has been
    handed to the call with one. *)
Lemma callback_omitted_ended w1 w2 :
  callback_omitted w1 w2 ->
  ended w2 = match entry_errors (trace w1) with [] => false | _ :: _ => true end.
Proof.
  intros (_ & _ & _ & Ht & Hon). unfold ended in *. rewrite Ht. clear Ht.
  induction (trace w1) as [|ev t IH]; [done|].
  cbn [existsb] in Hon. apply orb_false_iff in Hon as [Hev Hon].
  specialize (IH Hon). unfold entry_errors in *.
  destruct ev as [[e|file stat c]|a|op|e]; cbn; try done.
Qed.

Lemma eachFile_errors_stay fs path sched : forall w w',
  (exists w2, callback_omitted w w2) ->
  run_from (eachFile fs path record_entry record_complete) sched w = Some w' ->
  exists t, trace w' = trace w ++ t.
Proof.
  induction sched as [|i sched IH]; intros w w' [w2 HR].
  - intros [= <-]. exists []. by rewrite app_nil_r.
  - intros Hrun. apply run_from_cons in Hrun as (_ & w1 & Hstep & Hrun).
    pose proof (callback_omitted_step fs path i w w2 HR) as Hs.
    rewrite Hstep in Hs.
    destruct (step (eachFile fs path None record_complete) i w2) as [w2'|]; [|done].
    destruct Hs as (HR' & t & Ht & _).
    destruct (IH w1 w' (ex_intro _ w2' HR') Hrun) as (t' & Ht').
    exists (t ++ t'). by rewrite Ht', Ht, app_assoc.
Qed.

Lemma callback_omitted_run_from fs path sched : forall w1 w2,
  callback_omitted w1 w2 ->
  at_most_the_first_error (trace w1) ->
  callback_omitted_until_error
    (run_from (eachFile fs path record_entry record_complete) sched w1)
    (run_from (eachFile fs path None record_complete) sched w2).
Proof.
  induction sched as [|i sched IH]; intros w1 w2 HR Hfirst; [done|].
  pose proof (callback_omitted_ended _ _ HR) as Hon2.
  pose proof HR as (_ & _ & _ & _ & Hon1).
  destruct (entry_errors (trace w1)) as [|e es] eqn:He.
  - rewrite !run_from_alive by done.
    pose proof (callback_omitted_step fs path i w1 w2 HR) as Hs.
    destruct (step (eachFile fs path record_entry record_complete) i w1) as [w1'|],
             (step (eachFile fs path None record_complete) i w2) as [w2'|]; try done.
    destruct Hs as (HR' & t & Ht & Hshape).
    apply IH; [done|]. rewrite Ht.
    destruct Hshape as [Hnone|[e ->]].
    + left. by rewrite entry_errors_app, He, Hnone.
    + right. by exists (trace w1), e.
  - rewrite (run_from_ended _ i sched w2) by exact Hon2.
    destruct (run_from (eachFile fs path record_entry record_complete) (i :: sched) w1)
      as [w1'|] eqn:Hrun; [|done].
    cbn [callback_omitted_until_error].
    destruct (eachFile_errors_stay fs path _ _ _ (ex_intro _ w2 HR) Hrun) as (t & Ht).
    rewrite Ht, entry_errors_app, He. done.
Qed.

(** X13: The per-entry callback of [eachFile] may be left out as long as
    nothing fails.  After the same answers, on every file system, a call
    of [eachFile] without a callback has walked as far and accumulated
    the same files as a call with one, and its completion handler has
    been called at the same moments with the same lists, up to the first
    failing [stat] or [readdir].  The answer that hands the call with a
    callback its first error makes the call without one throw a
    TypeError out of the callback of [fs] ([callback(err)] is not
    guarded by [if (callback)]); nobody catches it, and no answer after
    it is taken. *)
Theorem eachFile_callback_is_optional_until_an_error fs path sched :
  callback_omitted_until_error
    (run (eachFile fs path record_entry record_complete) sched)
    (run (eachFile fs path None record_complete) sched).
Proof.
  apply callback_omitted_run_from; [by repeat split | by left].
Qed.

(** On [racy_fs]: the answer to the probe of [root/gone] is the last one
    the call without a callback takes. *)
Lemma eachFile_without_callback_ends_on_racy_fs :
  trace (world_after (eachFile racy_fs (Some "root") None record_complete) [0; 0; 0])
    = [EvUncaught not_a_function] /\
  run (eachFile racy_fs (Some "root") None record_complete) [0; 0; 0; 0] = None /\
  entry_calls
    (trace (world_after (eachFile racy_fs (Some "root") record_entry record_complete)
              [0; 0; 0; 0]))
    = [EntryErr "ENOENT: root/gone"; Entry "root/a.txt" a_file None].
Proof. vm_compute. done. Qed.

(** ** A failure costs only the branch below it *)

Lemma surveys_Some (below : string -> option findings) ps l es :
  surveys below ps = Some (l, es) ->
  exists fl : list findings,
    Forall2 (fun p f => below p = Some f) ps fl /\
    l = fl ≫= fst /\ es = fl ≫= snd.
Proof.
  revert l es. induction ps as [|p ps IH]; intros l es; cbn.
  - intros [= <- <-]. exists []. by repeat split; [constructor|..].
  - destruct (below p) as [[lp ep]|] eqn:Hp; [|discriminate].
    destruct (surveys below ps) as [[lr er]|] eqn:Hr; [|discriminate].
    intros [= <- <-]. destruct (IH lr er eq_refl) as (fl & Hfl & -> & ->).
    exists ((lp, ep) :: fl). by repeat split; [constructor|..].
Qed.

Lemma children_survey_plan fs n (cs : list string) (fl : list findings) :
  Forall2 (fun p f => survey fs n p = Some f) cs fl ->
  (zip (OpStat <$> cs) fl).*1 = OpStat <$> cs /\
  Forall (surveyed fs) (zip (OpStat <$> cs) fl) /\
  plan_entries (zip (OpStat <$> cs) fl) = fl ≫= fst /\
  plan_errors (zip (OpStat <$> cs) fl) = fl ≫= snd /\
  sum_list_with survey_weight (zip (OpStat <$> cs) fl)
    = 2 * (length (fl ≫= fst) + length (fl ≫= snd)).
Proof.
  unfold plan_entries, plan_errors.
  induction 1 as [|p f cs fl Hp _ (IH1 & IH2 & IH3 & IH4 & IH5)]; cbn.
  - by repeat split.
  - split_and!.
    + by rewrite IH1.
    + constructor; [by exists n | done].
    + by rewrite IH3.
    + by rewrite IH4.
    + rewrite IH5. unfold survey_weight; cbn. rewrite !length_app. lia.
Qed.

Lemma survey_plan_delete (plan : list (Op * findings)) i x :
  plan !! i = Some x ->
  plan_entries plan ≡ₚ x.2.1 ++ plan_entries (delete i plan) /\
  plan_errors plan ≡ₚ x.2.2 ++ plan_errors (delete i plan) /\
  sum_list_with survey_weight plan
    = survey_weight x + sum_list_with survey_weight (delete i plan).
Proof.
  intros H. pose proof (delete_Permutation _ _ _ H) as HP.
  unfold plan_entries, plan_errors. split_and!; by rewrite HP at 1.
Qed.

Lemma checkComplete_quiet w :
  exists w', checkComplete record_complete w = (Returned, w') /\
             pending w' = pending w /\
             visited (trace w') = visited (trace w) /\
             entry_errors (trace w') = entry_errors (trace w).
Proof.
  unfold checkComplete. destruct (filesToCheck w =? 0)%Z.
  - eexists. split; [reflexivity|]. world_simpl. rewrite visited_app, entry_errors_app. cbn.
    by rewrite !app_nil_r.
  - by exists w.
Qed.

Lemma survey_invariant_ext fs L Es k w w' :
  pending w' = pending w ->
  visited (trace w') = visited (trace w) ->
  entry_errors (trace w') = entry_errors (trace w) ->
  survey_invariant fs L Es k w -> survey_invariant fs L Es k w'.
Proof.
  intros Hp Hv He (plan & H). exists plan. by rewrite Hp, Hv, He.
Qed.

Lemma survey_invariant_step fs directory L Es k i w w' :
  survey_invariant fs L Es k w ->
  step (eachFileOrDirectory fs directory record_entry record_complete) i w = Some w' ->
  survey_invariant fs L Es (S k) w'.
Proof.
  intros (plan & Hpend & Hcov & Hperm & Herr & Hsum). unfold step.
  destruct (pending w !! i) as [op|] eqn:Hop; [|discriminate]. intros [= <-].
  assert (exists f, plan !! i = Some (op, f)) as [[l es] Hl].
  { rewrite Hpend, list_lookup_fmap in Hop.
    destruct (plan !! i) as [[op' f]|]; [|discriminate].
    injection Hop as <-. by exists f. }
  destruct (survey_plan_delete _ _ _ Hl) as (HP & HE & HS). cbn [fst snd] in HP, HE.
  pose proof (proj1 (Forall_lookup _ _) Hcov _ _ Hl) as Hc.
  assert (Hd : Forall (surveyed fs) (delete i plan)) by (by apply Forall_delete).
  assert (Hpd : delete i (pending w) = (delete i plan).*1)
    by (by rewrite Hpend, fmap_delete).
  destruct op as [p|p|t]; unfold surveyed in Hc; cbn [fst snd] in Hc; [| |done];
    cbn [deliver eachFileOrDirectory on_stat on_readdir].
  - destruct Hc as [[|n] Hn]; [discriminate|]. cbn [survey] in Hn.
    unfold stat_callback, decr_filesToCheck. rewrite !seq_modify.
    destruct (fs_stat fs p) as [e|st].
    + injection Hn as <- <-. unfold_procs. cbn. exists (delete i plan). world_simpl.
      rewrite visited_app, entry_errors_app. cbn. rewrite app_nil_r. split_and!; try done.
      * by rewrite <- Hperm, HP.
      * rewrite <- Herr, HE. by rewrite <- app_assoc.
      * revert Hsum. rewrite HS. unfold survey_weight; cbn. lia.
    + unfold push_checkedFiles, push_checkedStats, call, record_entry.
      rewrite !seq_modify.
      destruct (isDirectory st) eqn:Hdir.
      * assert (exists f', surveyed fs (OpReaddir p, f') /\
                  l = (p, st) :: f'.1 /\ es = f'.2) as ([l' es'] & Hs' & -> & ->).
        { destruct (fs_readdir fs p) as [e|names] eqn:Hnames.
          - injection Hn as <- <-. exists ([], [e]). split; [|done].
            exists 0. cbn. by rewrite Hnames.
          - destruct (surveys _ _) as [[l' es']|] eqn:Hsub; [|discriminate].
            injection Hn as <- <-. exists (l', es'). split; [|done].
            exists n. cbn. by rewrite Hnames. }
        cbn [fst snd] in *.
        unfold_procs. cbn. exists (delete i plan ++ [(OpReaddir p, (l', es'))]).
        world_simpl. unfold plan_entries, plan_errors in *.
        rewrite visited_app, entry_errors_app, !bind_app, sum_list_with_app. cbn.
        rewrite !app_nil_r. split_and!.
        -- by rewrite fmap_app, Hpd.
        -- apply Forall_app. split; [done | by constructor].
        -- rewrite <- Hperm, HP. rewrite <- !app_assoc. apply Permutation_app_head.
           cbn. apply Permutation_cons; [done|]. apply Permutation_app_comm.
        -- rewrite <- Herr, HE. apply Permutation_app_head, Permutation_app_comm.
        -- revert Hsum. rewrite HS. unfold survey_weight; cbn. lia.
      * injection Hn as <- <-.
        match goal with |- context [checkComplete _ ?a] =>
          destruct (checkComplete_quiet a) as (w' & -> & Hp' & Hv' & He') end.
        cbn [settle]. eapply survey_invariant_ext; [exact Hp' | exact Hv' | exact He' |].
        exists (delete i plan). world_simpl.
        rewrite visited_app, entry_errors_app. cbn. rewrite app_nil_r. split_and!; try done.
        -- rewrite <- Hperm, HP. by rewrite <- app_assoc.
        -- by rewrite <- Herr, HE.
        -- revert Hsum. rewrite HS. unfold survey_weight; cbn. lia.
  - destruct Hc as [n Hn].
    unfold readdir_callback, decr_filesToCheck. rewrite !seq_modify.
    destruct (fs_readdir fs p) as [e|names].
    + injection Hn as -> ->. unfold_procs. cbn. exists (delete i plan). world_simpl.
      rewrite visited_app, entry_errors_app. cbn. rewrite app_nil_r. split_and!; try done.
      * by rewrite <- Hperm, HP.
      * rewrite <- Herr, HE. by rewrite <- app_assoc.
      * revert Hsum. rewrite HS. unfold survey_weight; cbn. lia.
    + erewrite !seq_returned by apply forEach_onFileOrDirectory.
      match goal with |- context [checkComplete _ ?a] =>
        destruct (checkComplete_quiet a) as (w' & -> & Hp' & Hv' & He') end.
      cbn [settle]. eapply survey_invariant_ext; [exact Hp' | exact Hv' | exact He' |].
      apply surveys_Some in Hn as (fl & Hfl & -> & ->).
      destruct (children_survey_plan fs n _ _ Hfl) as (HC1 & HC2 & HC3 & HC4 & HC5).
      exists (delete i plan ++ zip (OpStat <$> (fullFilePath p <$> names)) fl).
      world_simpl. unfold plan_entries, plan_errors in *.
      rewrite !bind_app, sum_list_with_app, HC3, HC4, HC5. split_and!.
      * rewrite fmap_app, Hpd, HC1. by rewrite <- list_fmap_compose.
      * by apply Forall_app.
      * rewrite <- Hperm, HP. apply Permutation_app_head, Permutation_app_comm.
      * rewrite <- Herr, HE. apply Permutation_app_head, Permutation_app_comm.
      * revert Hsum. rewrite HS. unfold survey_weight; cbn. lia.
Qed.

Lemma survey_invariant_boot fs directory n L Es :
  survey fs n (directory_or_default directory) = Some (L, Es) ->
  survey_invariant fs L Es 0
    (boot (eachFileOrDirectory fs directory record_entry record_complete)).
Proof.
  intros HL. exists [(OpStat (directory_or_default directory), (L, Es))].
  unfold plan_entries, plan_errors. cbn. rewrite !app_nil_r. split_and!; try done.
  - constructor; [|done]. by exists n.
  - unfold survey_weight; cbn. lia.
Qed.

Lemma survey_invariant_run_from fs directory L Es k sched w w' :
  survey_invariant fs L Es k w ->
  run_from (eachFileOrDirectory fs directory record_entry record_complete) sched w = Some w' ->
  survey_invariant fs L Es (k + length sched) w'.
Proof.
  revert k w. induction sched as [|i sched IH]; intros k w Hw; cbn.
  - intros [= <-]. by rewrite Nat.add_0_r.
  - intros Hrun. apply run_from_cons in Hrun as (_ & w1 & Hstep & Hrun).
    replace (k + S (length sched)) with (S k + length sched) by lia.
    eapply IH; [|done]. by eapply survey_invariant_step.
Qed.

Lemma survey_invariant_finishes fs directory L Es m : forall k w,
  2 * (length L + length Es) - k <= m ->
  survey_invariant fs L Es k w ->
  ended w = false ->
  exists sched w',
    run_from (eachFileOrDirectory fs directory record_entry record_complete) sched w = Some w' /\
    pending w' = [].
Proof.
  induction m as [|m IH]; intros k w Hm Hw Hon;
    (destruct (pending w) as [|op ops] eqn:E; [by exists [], w|]);
    (destruct (step (eachFileOrDirectory fs directory record_entry record_complete) 0 w)
       as [w1|] eqn:Hstep; [|unfold step in Hstep; by rewrite E in Hstep]);
    pose proof (survey_invariant_step _ _ _ _ _ _ _ _ Hw Hstep) as Hw1.
  - destruct Hw1 as (plan & _ & _ & _ & _ & Hsum). lia.
  - destruct (IH (S k) w1) as (sched & w' & Hrun & Hq); [|done| |].
    { destruct Hw1 as (plan & _ & _ & _ & _ & Hsum). lia. }
    { by rewrite (recording_engine_goes_on _ _ _ _ _ Hstep). }
    exists (0 :: sched), w'. split; [|done]. by rewrite run_from_alive, Hstep.
Qed.

(** X4: In concurrent mode a failure costs the branch below it and nothing
    else, and what a traversal finds does not depend on the order of the
    answers.  If the part of the file system that can be reached from
    the root is finite ([survey] ends, with the entries [L] and the
    errors [Es]), then every order of answers ends after at most
    [2 * (length L + length Es)] of them, and once nothing is
    outstanding the per-entry callback has been given the entries [L]
    and the errors [Es], up to order: the entry of every path whose
    probe succeeds under a directory that could be listed, one error for
    every probe or listing that fails; and some order gets there. *)
Theorem failures_cost_only_their_branch fs directory n L Es :
  survey fs n (directory_or_default directory) = Some (L, Es) ->
  (forall sched w,
     run (eachFileOrDirectory fs directory record_entry record_complete) sched = Some w ->
     length sched <= 2 * (length L + length Es) /\
     (pending w = [] ->
      visited (trace w) ≡ₚ L /\ entry_errors (trace w) ≡ₚ Es)) /\
  (exists sched w,
     run (eachFileOrDirectory fs directory record_entry record_complete) sched = Some w /\
     pending w = []).
Proof.
  intros HL. pose proof (survey_invariant_boot fs directory n L Es HL) as H0. split.
  - intros sched w Hrun.
    pose proof (survey_invariant_run_from _ _ _ _ 0 _ _ _ H0 Hrun)
      as (plan & Hp & _ & Hv & He & Hsum).
    split; [cbn in Hsum; lia|].
    intros Hq. rewrite Hq in Hp. destruct plan; [|done].
    unfold plan_entries, plan_errors in *. cbn in Hv, He.
    by rewrite !app_nil_r in *.
  - by eapply (survey_invariant_finishes fs directory L Es _ 0); [reflexivity| |].
Qed.

Lemma failures_cost_only_their_branch_on_racy_fs :
  (forall sched w,
     run (eachFileOrDirectory racy_fs (Some "root") record_entry record_complete) sched
       = Some w ->
     length sched <= 2 * (2 + 1) /\
     (pending w = [] ->
      visited (trace w) ≡ₚ [("root", a_dir); ("root/a.txt", a_file)] /\
      entry_errors (trace w) ≡ₚ ["ENOENT: root/gone"])) /\
  (exists sched w,
     run (eachFileOrDirectory racy_fs (Some "root") record_entry record_complete) sched
       = Some w /\
     pending w = []).
Proof.
  apply (failures_cost_only_their_branch racy_fs (Some "root") 3
           [("root", a_dir); ("root/a.txt", a_file)] ["ENOENT: root/gone"]).
  vm_compute; reflexivity.
Defined.


(** ** Paths of siblings *)

(** X14: Children of one directory with different names get different paths. *)
Theorem fullFilePath_distinct_children dir file1 file2 :
  file1 <> file2 -> fullFilePath dir file1 <> fullFilePath dir file2.
Proof.
  intros Hne Heq. apply Hne. unfold fullFilePath in Heq.
  by do 2 apply String.app_inj in Heq.
Qed.

Lemma fullFilePath_distinct_children_example :
  fullFilePath "root/" "a.txt" <> fullFilePath "root/" "a.tx".
Proof.
  apply (fullFilePath_distinct_children "root/" "a.txt" "a.tx"). discriminate.
Defined.

(** ** Sequential mode stops where concurrent mode goes on *)

Lemma entries_met_app c1 c2 : entries_met (c1 ++ c2) = entries_met c1 ++ entries_met c2.
Proof. apply omap_app. Qed.
Lemma errors_met_app c1 c2 : errors_met (c1 ++ c2) = errors_met c1 ++ errors_met c2.
Proof. apply omap_app. Qed.

Lemma before_failure_app c1 c2 :
  before_failure (c1 ++ c2) =
    match (before_failure c1).2 with
    | Some e => before_failure c1
    | None => ((before_failure c1).1 ++ (before_failure c2).1, (before_failure c2).2)
    end.
Proof.
  induction c1 as [|[v|e] c1 IH]; cbn [app before_failure fst snd].
  - by destruct (before_failure c2).
  - rewrite IH. by destruct (before_failure c1) as [l [e|]].
  - done.
Qed.

(** The walk that goes on after a failure meets what [survey] finds. *)
Lemma chronicles_surveys (below : string -> option (list finding))
    (below' : string -> option findings) :
  (forall p c, below p = Some c -> below' p = Some (entries_met c, errors_met c)) ->
  forall ps c,
    chronicles below ps = Some c ->
    surveys below' ps = Some (entries_met c, errors_met c).
Proof.
  intros Hb. induction ps as [|p ps IH]; intros c; cbn [chronicles surveys].
  - by intros [= <-].
  - destruct (below p) as [cp|] eqn:Hp; [|discriminate].
    destruct (chronicles below ps) as [cs|]; [|discriminate].
    intros [= <-]. rewrite (Hb _ _ Hp), (IH cs eq_refl).
    by rewrite entries_met_app, errors_met_app.
Qed.

Lemma chronicle_survey fs n : forall p c,
  chronicle fs n p = Some c ->
  survey fs n p = Some (entries_met c, errors_met c).
Proof.
  induction n as [|n IH]; intros p c; [discriminate|]. cbn [chronicle survey].
  destruct (fs_stat fs p) as [e|st]; [by intros [= <-]|].
  destruct (isDirectory st); [|by intros [= <-]].
  destruct (fs_readdir fs p) as [e|names]; [by intros [= <-]|].
  destruct (chronicles _ _) as [cs|] eqn:Hcs; [|discriminate].
  intros [= <-]. by rewrite (chronicles_surveys _ _ IH _ _ Hcs).
Qed.

Lemma forEach_ends_at_first_error (f : string -> Proc) (h : string -> string)
    (below : string -> option (list finding)) :
  (forall p c w, below p = Some c -> ends_at_first_error c w (f p w)) ->
  forall names c w,
    chronicles below (h <$> names) = Some c ->
    ends_at_first_error c w (forEach names (fun name => f (h name)) w).
Proof.
  intros Hf. induction names as [|name names IH]; intros c w;
    cbn [chronicles forEach fmap list_fmap].
  - intros [= <-]. split; [|done]. cbn. by rewrite app_nil_r.
  - destruct (below (h name)) as [cp|] eqn:Hp; [|discriminate].
    destruct (chronicles below (h <$> names)) as [cr|] eqn:Hr; [|discriminate].
    intros [= <-]. specialize (Hf (h name) cp w Hp). unfold seq.
    destruct (f (h name) w) as [o w1]. destruct Hf as [Hv Ho]. cbn [fst snd] in Hv, Ho.
    unfold ends_at_first_error. rewrite before_failure_app.
    destruct (before_failure cp) as [lp [e|]]; cbn [fst snd] in *; subst o.
    + by split.
    + destruct (IH cr w1 eq_refl) as [Hv' Ho']. split; [|done].
      by rewrite Hv', Hv, app_assoc.
Qed.

Lemma onFileOrDirectorySync_ends_at_first_error fs n : forall fuel p c w,
  n <= fuel ->
  chronicle fs n p = Some c ->
  ends_at_first_error c w (onFileOrDirectorySync fs record_entry fuel p w).
Proof.
  induction n as [|n IH]; intros fuel p c w Hfuel; [discriminate|].
  destruct fuel as [|fuel]; [lia|].
  cbn [chronicle onFileOrDirectorySync]. unfold statSync. rewrite seq_modify.
  destruct (fs_stat fs p) as [e|st].
  - intros [= <-]. split; [|done]. cbn.
    rewrite visited_app. cbn. by rewrite !app_nil_r.
  - unfold push_checkedFiles, push_checkedStats, call, record_entry. rewrite !seq_modify.
    destruct (isDirectory st).
    + unfold onDirectorySync, readdirSync. rewrite seq_modify.
      destruct (fs_readdir fs p) as [e|names].
      * intros [= <-]. split; [|done]. cbn.
        rewrite !visited_app. cbn. by rewrite !app_nil_r.
      * destruct (chronicles _ _) as [c'|] eqn:Hsub; [|discriminate].
        intros [= <-].
        assert (Hle : n <= fuel) by lia.
        match goal with |- context [forEach names ?f ?w1] =>
          pose proof (forEach_ends_at_first_error
                        (onFileOrDirectorySync fs record_entry fuel) (fullFilePath p)
                        (chronicle fs n)
                        (fun q cq wq Hq => IH fuel q cq wq Hle Hq)
                        _ _ w1 Hsub) as Hall;
          change (forEach names f w1)
            with (forEach names
                    (fun name => onFileOrDirectorySync fs record_entry fuel
                                   (fullFilePath p name)) w1);
          destruct (forEach names
                      (fun name => onFileOrDirectorySync fs record_entry fuel
                                     (fullFilePath p name)) w1) as [o w2] end.
        destruct Hall as [Hv Ho]. cbn [fst snd] in Hv, Ho. world_simpl.
        rewrite !visited_app in Hv. cbn in Hv. rewrite !app_nil_r in Hv.
        split; cbn [before_failure fst snd]; [|done].
        by rewrite Hv, <- app_assoc.
    + intros [= <-]. split; [|done]. cbn. world_simpl.
      rewrite !visited_app. cbn. by rewrite !app_nil_r.
Qed.

(** X5: Where concurrent mode goes on, sequential mode stops.  Let a walk
    from the root that takes parents first and children in the order of
    the directory listings, and that goes on after a failure, meet the
    entries and errors [c]; these are the entries and the errors a
    traversal in concurrent mode finds.  Then [eachFileOrDirectorySync]
    (with fuel for the depth) visits the entries of [c] that come before
    the first error, in that order, those and no other, and throws that
    error; when [c] holds no error it visits every entry and returns. *)
Theorem sequential_mode_stops_at_the_first_error fs directory n c fuel :
  chronicle fs n (directory_or_default directory) = Some c ->
  n <= fuel ->
  survey fs n (directory_or_default directory) = Some (entries_met c, errors_met c) /\
  ends_at_first_error c empty_world
    (eachFileOrDirectorySync fs fuel directory record_entry empty_world).
Proof.
  intros Hc Hfuel. split; [by apply chronicle_survey|].
  unfold eachFileOrDirectorySync. rewrite !seq_modify.
  match goal with |- context [onFileOrDirectorySync _ _ _ _ ?w1] =>
    exact (onFileOrDirectorySync_ends_at_first_error fs n fuel _ c w1 Hfuel Hc) end.
Qed.

Lemma sequential_mode_stops_at_the_first_error_on_racy_fs :
  survey racy_fs 3 "root"
    = Some ([("root", a_dir); ("root/a.txt", a_file)], ["ENOENT: root/gone"]) /\
  ends_at_first_error
    [inl ("root", a_dir); inr "ENOENT: root/gone"; inl ("root/a.txt", a_file)]
    empty_world
    (eachFileOrDirectorySync racy_fs 5 (Some "root") record_entry empty_world).
Proof.
  apply (sequential_mode_stops_at_the_first_error racy_fs (Some "root") 3
           [inl ("root", a_dir); inr "ENOENT: root/gone"; inl ("root/a.txt", a_file)] 5);
    [|lia].
  vm_compute; reflexivity.
Defined.

(** On [racy_fs] the call stops after the root: [root/a.txt], listed
    after the child that is gone, is not visited. *)
Lemma sequential_mode_visits_nothing_after_the_failure_on_racy_fs :
  (eachFileOrDirectorySync racy_fs 5 (Some "root") record_entry empty_world).1
    = Thrown "ENOENT: root/gone" /\
  visited (trace (eachFileOrDirectorySync racy_fs 5 (Some "root") record_entry
                    empty_world).2)
    = [("root", a_dir)].
Proof. vm_compute. done. Qed.

(** ** Reading along, synchronously *)

Section ReadAlong.
Variable fs : FileSystem.

Lemma read_along_skip : read_along fs skip skip.
Proof. by intros w1 w2 H HI. Qed.

Lemma read_along_diverge : read_along fs diverge diverge.
Proof. by intros w1 w2 H HI. Qed.

Lemma read_along_throw e : read_along fs (throw e) (throw e).
Proof. by intros w1 w2 H HI. Qed.

Lemma read_along_seq p1 q1 p2 q2 :
  read_along fs p1 p2 -> read_along fs q1 q2 -> read_along fs (p1 ;; q1) (p2 ;; q2).
Proof.
  intros Hp Hq w1 w2 H HI. specialize (Hp w1 w2 H HI). unfold seq.
  destruct (p1 w1) as [o1 w1'], (p2 w2) as [o2 w2'].
  destruct Hp as (Ho & Ht & Hi); cbn in Ho, Ht, Hi. subst o2.
  destruct o1; [by apply Hq | done..].
Qed.

Lemma read_along_forEach {A} (l : list A) f1 f2 :
  (forall x, read_along fs (f1 x) (f2 x)) ->
  read_along fs (forEach l f1) (forEach l f2).
Proof.
  intros Hf. induction l as [|x l IH]; cbn [forEach];
    [apply read_along_skip | by apply read_along_seq].
Qed.

Lemma read_along_quiet_left f p q :
  (forall w, trace (f w) = trace w /\ lastIndex (f w) = lastIndex w) ->
  read_along fs p q -> read_along fs (modify f ;; p) q.
Proof.
  intros Hf Hpq w1 w2 H HI. rewrite seq_modify. destruct (Hf w1) as [Ht Hi].
  apply Hpq; [by rewrite Ht | by rewrite Hi].
Qed.

Lemma read_along_quiet_right f p q :
  (forall w, trace (f w) = trace w /\ lastIndex (f w) = lastIndex w) ->
  read_along fs p q -> read_along fs p (modify f ;; q).
Proof.
  intros Hf Hpq w1 w2 H HI. rewrite seq_modify. destruct (Hf w2) as [Ht Hi].
  apply Hpq; [by rewrite Ht | by rewrite Hi].
Qed.

Lemma read_along_call op p q :
  read_along fs p q ->
  read_along fs (modify (observe (EvCall op)) ;; p) (modify (observe (EvCall op)) ;; q).
Proof.
  intros Hpq w1 w2 H HI. rewrite !seq_modify. apply Hpq; [|done]. world_simpl.
  rewrite bind_app, H. cbn. done.
Qed.

Lemma read_along_statSync p k1 k2 :
  (forall stat, fs_stat fs p = inr stat -> read_along fs (k1 stat) (k2 stat)) ->
  read_along fs (statSync fs p k1) (statSync fs p k2).
Proof.
  intros Hk. unfold statSync. apply read_along_call.
  destruct (fs_stat fs p); [apply read_along_throw | by apply Hk].
Qed.

Lemma read_along_readdirSync p k1 k2 :
  (forall files, read_along fs (k1 files) (k2 files)) ->
  read_along fs (readdirSync fs p k1) (readdirSync fs p k2).
Proof.
  intros Hk. unfold readdirSync. apply read_along_call.
  destruct (fs_readdir fs p); [apply read_along_throw | apply Hk].
Qed.

Lemma read_along_onFileOrDirectorySync h1 h2 fuel :
  (forall file stat,
     fs_stat fs file = inr stat ->
     read_along fs (call h1 (Entry file stat None)) (call h2 (Entry file stat None))) ->
  forall p,
    read_along fs (onFileOrDirectorySync fs h1 fuel p) (onFileOrDirectorySync fs h2 fuel p).
Proof.
  intros Hh. induction fuel as [|fuel IH]; intros p; cbn [onFileOrDirectorySync].
  - apply read_along_diverge.
  - apply read_along_statSync. intros stat Hst.
    unfold push_checkedFiles, push_checkedStats.
    do 2 (apply read_along_quiet_left; [done|]; apply read_along_quiet_right; [done|]).
    apply read_along_seq; [by apply Hh|].
    destruct (isDirectory stat); [|apply read_along_skip].
    unfold onDirectorySync. apply read_along_readdirSync. intros files.
    apply read_along_forEach. intros file. apply IH.
Qed.

(** Both calls test the same pattern, whose [lastIndex] they have left
    alike. *)
Lemma read_along_test expression s k1 k2 :
  (forall b, read_along fs (k1 b) (k2 b)) ->
  read_along fs (test expression s k1) (test expression s k2).
Proof.
  intros Hk w1 w2 H HI. unfold test. rewrite HI.
  destruct (re_global_or_sticky expression); [|by apply Hk].
  destruct (re_exec expression (lastIndex w1) s); by apply Hk.
Qed.

Lemma read_along_handler expression file stat :
  files_readable fs ->
  fs_stat fs file = inr stat ->
  read_along fs
    (call (Some (eachFile_handler (Some (eachFileMatching_handler expression record_entry))))
       (Entry file stat None))
    (call (Some (eachFile_handler (Some (eachFileMatching_handler expression
             (Some (readEachFileMatchingSync_handler fs record_entry))))))
       (Entry file stat None)).
Proof.
  intros Hread Hst. unfold call, eachFile_handler.
  destruct (isDirectory stat) eqn:Hdir; cbn [negb]; [apply read_along_skip|].
  unfold push_ef_files, push_ef_stats.
  do 2 (apply read_along_quiet_left; [done|]; apply read_along_quiet_right; [done|]).
  unfold eachFileMatching_handler, call_if_given.
  apply read_along_test. intros [|]; [|apply read_along_skip].
  destruct (Hread file stat Hst Hdir) as [content Hc].
  intros w1 w2 H HI.
  unfold readEachFileMatchingSync_handler, readFileSync. rewrite Hc.
  unfold_procs. cbn [fst snd]. split_and!; [done| |done]. world_simpl.
  rewrite bind_app, <- app_assoc, H. cbn. by rewrite Hc.
Qed.
End ReadAlong.

(** X15: [readEachFileMatchingSync] is [eachFileMatchingSync] reading
    along.  On a file system where every file that can be probed can be
    read, the two calls end alike (same return or exception, or both
    without end) after the same probes and listings, and the caller of
    [readEachFileMatchingSync] has been given the same entries in the
    same order, each with the content of its file, read just before the
    entry is handed over. *)
Theorem readEachFileMatchingSync_reads_along fs fuel expression path :
  files_readable fs ->
  (readEachFileMatchingSync fs fuel expression path record_entry empty_world).1
    = (eachFileMatchingSync fs fuel expression path record_entry empty_world).1 /\
  trace (readEachFileMatchingSync fs fuel expression path record_entry empty_world).2
    = trace (eachFileMatchingSync fs fuel expression path record_entry empty_world).2
        ≫= with_content fs.
Proof.
  intros Hread.
  unfold readEachFileMatchingSync, eachFileMatchingSync, eachFileSync, eachFileOrDirectorySync.
  assert (H : read_along fs
    (modify (set_efm_files []) ;; modify (set_efm_stats []) ;;
     modify (set_ef_files []) ;; modify (set_ef_stats []) ;;
     modify (set_checkedFiles []) ;; modify (set_checkedStats []) ;;
     onFileOrDirectorySync fs
       (Some (eachFile_handler (Some (eachFileMatching_handler expression record_entry))))
       fuel (directory_or_default path))
    (modify (set_rd_files []) ;; modify (set_rd_contents []) ;; modify (set_rd_stats []) ;;
     modify (set_efm_files []) ;; modify (set_efm_stats []) ;;
     modify (set_ef_files []) ;; modify (set_ef_stats []) ;;
     modify (set_checkedFiles []) ;; modify (set_checkedStats []) ;;
     onFileOrDirectorySync fs
       (Some (eachFile_handler (Some (eachFileMatching_handler expression
                (Some (readEachFileMatchingSync_handler fs record_entry))))))
       fuel (directory_or_default path))).
  { do 6 (apply read_along_quiet_left; [done|]).
    do 9 (apply read_along_quiet_right; [done|]).
    apply read_along_onFileOrDirectorySync. intros file stat Hst.
    by apply read_along_handler. }
  destruct (H empty_world empty_world eq_refl eq_refl) as (Ho & Ht & _). by split.
Qed.

Lemma readEachFileMatchingSync_reads_along_on_sample :
  (readEachFileMatchingSync sample_fs 5 ends_in_txt (Some "root") record_entry empty_world).1
    = (eachFileMatchingSync sample_fs 5 ends_in_txt (Some "root") record_entry empty_world).1 /\
  trace (readEachFileMatchingSync sample_fs 5 ends_in_txt (Some "root") record_entry
           empty_world).2
    = trace (eachFileMatchingSync sample_fs 5 ends_in_txt (Some "root") record_entry
               empty_world).2
        ≫= with_content sample_fs.
Proof.
  apply (readEachFileMatchingSync_reads_along sample_fs 5 ends_in_txt (Some "root")).
  intros file stat. unfold sample_fs, disk_fs, sample_disk.
  cbn [fs_stat fs_readFile find_node].
  repeat (destruct (String.eqb _ file)); cbn [node_stat]; intros H1 H2;
    simplify_eq/=; eauto.
Defined.
